(** * google-ads-scraper: region/surface aggregation and row flattening

    A shallow embedding of [src/extractors/utils_region.py],
    [src/extractors/targeting_parser.py], [src/extractors/ads_parser.py] and
    of the impression-range parser of [src/extractors/google_ads_parser.py].

    Python objects that the code mutates in place (region, surface and
    impression-range objects) live in an explicit store addressed by
    locations, so that aliasing and in-place updates are visible.  Values
    decoded from JSON are an inductive type [pyval]; exceptions are an
    explicit [result].

    A Python [str] is the [string] of the bytes of its UTF-8 encoding:
    comparing bytes lexicographically is comparing code points, as [<] does
    on [str].  Integers are unbounded ([Z]). *)

From Stdlib Require Import ZArith String Ascii List Lia Bool Sorted Permutation.
From stdpp Require Import base tactics option list functions strings sorting.

#[local] Set Warnings "-register-all".
Local Open Scope string_scope.
Local Open Scope Z_scope.

(** ** Python values *)

(** A Python float, as far as [bool(...)] and [int(...)] can tell floats
    apart: a finite float is the rational [num / den]. *)
Inductive pyfloat :=
| FFinite (num : Z) (den : positive)
| FInf (negative : bool)
| FNan.

(** JSON-shaped Python values.  A [dict] keeps its insertion order. *)
Inductive pyval :=
| PNone
| PBool (b : bool)
| PInt (z : Z)
| PFloat (f : pyfloat)
| PStr (s : string)
| PList (xs : list pyval)
| PDict (kvs : list (pyval * pyval)).

(** The exception classes the modelled code can raise.  All of them derive
    from [Exception]. *)
Inductive exn := AttributeError | TypeError | ValueError | OverflowError.

Inductive result (A : Type) :=
| Ok (a : A)
| Raise (e : exn).
Arguments Ok {A} a.
Arguments Raise {A} e.

Definition exn_eqb (a b : exn) : bool :=
  match a, b with
  | AttributeError, AttributeError | TypeError, TypeError
  | ValueError, ValueError | OverflowError, OverflowError => true
  | _, _ => false
  end.

(** [except (E1, ..., En)]: does the clause catch [e]? *)
Definition catches (classes : list exn) (e : exn) : bool :=
  existsb (exn_eqb e) classes.

(** [except Exception]: every modelled class derives from [Exception]. *)
Definition is_Exception (e : exn) : bool :=
  match e with
  | AttributeError | TypeError | ValueError | OverflowError => true
  end.

Definition nonempty (s : string) : bool :=
  match s with EmptyString => false | String _ _ => true end.

(** [bool(v)] *)
Definition truthy (v : pyval) : bool :=
  match v with
  | PNone => false
  | PBool b => b
  | PInt z => negb (z =? 0)
  | PFloat (FFinite n _) => negb (n =? 0)
  | PFloat _ => true
  | PStr s => nonempty s
  | PList xs => match xs with [] => false | _ => true end
  | PDict kvs => match kvs with [] => false | _ => true end
  end.

(** [a or b] *)
Definition py_or (a b : pyval) : pyval := if truthy a then a else b.

(** *** Characters *)

(** A [str] is kept as its UTF-8 bytes.  [head_char] reads the first
    character of a string: its code point and the number of bytes that
    encode it.  A byte that starts no well-formed sequence counts as one
    character, U+FFFD, which is neither white space nor a digit. *)
Definition continuation (c : ascii) : option N :=
  let n := N_of_ascii c in
  if ((128 <=? n) && (n <? 192))%N then Some (n - 128)%N else None.

Definition cont_at (i : nat) (s : string) : option N :=
  match String.get i s with
  | Some c => continuation c
  | None => None
  end.

Definition stray : N * nat := (65533%N, 1%nat).

Definition head_char (s : string) : N * nat :=
  match s with
  | EmptyString => (0%N, 0%nat)
  | String c rest =>
      let n := N_of_ascii c in
      if (n <? 128)%N then (n, 1%nat)
      else if ((192 <=? n) && (n <? 224))%N then
        match cont_at 0 rest with
        | Some x1 =>
            let cp := ((n - 192) * 64 + x1)%N in
            if (128 <=? cp)%N then (cp, 2%nat) else stray
        | None => stray
        end
      else if ((224 <=? n) && (n <? 240))%N then
        match cont_at 0 rest, cont_at 1 rest with
        | Some x1, Some x2 =>
            let cp := ((n - 224) * 4096 + x1 * 64 + x2)%N in
            if (2048 <=? cp)%N then (cp, 3%nat) else stray
        | _, _ => stray
        end
      else if ((240 <=? n) && (n <? 248))%N then
        match cont_at 0 rest, cont_at 1 rest, cont_at 2 rest with
        | Some x1, Some x2, Some x3 =>
            let cp := ((n - 240) * 262144 + x1 * 4096 + x2 * 64 + x3)%N in
            if ((65536 <=? cp) && (cp <? 1114112))%N then (cp, 4%nat) else stray
        | _, _, _ => stray
        end
      else stray
  end.

(** The characters of a string, each with its bytes; [skip] bytes belong to
    the character read last. *)
Fixpoint chars_from (skip : nat) (s : string) : list (N * string) :=
  match s with
  | EmptyString => []
  | String c rest =>
      match skip with
      | S skip' => chars_from skip' rest
      | O =>
          let '(cp, len) := head_char s in
          (cp, substring 0 len s) :: chars_from (len - 1) rest
      end
  end.

Definition chars (s : string) : list (N * string) := chars_from 0 s.

Definition unchars (l : list (N * string)) : string :=
  fold_right (fun cb acc => (cb.2 ++ acc)%string) EmptyString l.

(** [ch.isspace()], the white space of [str.strip] and of [int] above
    U+007E: the characters of bidirectional type WS, B or S, or of category
    Zs. *)
Definition is_py_space (cp : N) : bool :=
  (((9 <=? cp) && (cp <=? 13)) || ((28 <=? cp) && (cp <=? 32)) ||
   (cp =? 133) || (cp =? 160) || (cp =? 5760) ||
   ((8192 <=? cp) && (cp <=? 8202)) || (cp =? 8232) || (cp =? 8233) ||
   (cp =? 8239) || (cp =? 8287) || (cp =? 12288))%N.

(** The white space [int] skips in its ASCII buffer (C's [isspace]). *)
Definition is_c_space (cp : N) : bool :=
  (((9 <=? cp) && (cp <=? 13)) || (cp =? 32))%N.

(** The zeros of the decimal digits (category Nd, Unicode 14): every one
    starts a run of ten digits. *)
Definition decimal_starts : list N :=
  [48; 1632; 1776; 1984; 2406; 2534; 2662; 2790; 2918; 3046; 3174; 3302; 3430;
   3558; 3664; 3792; 3872; 4160; 4240; 6112; 6160; 6470; 6608; 6784; 6800; 6992;
   7088; 7232; 7248; 42528; 43216; 43264; 43472; 43504; 43600; 44016; 65296;
   66720; 68912; 69734; 69872; 69942; 70096; 70384; 70736; 70864; 71248; 71360;
   71472; 71904; 72016; 72784; 73040; 73120; 92768; 92864; 93008; 120782;
   120792; 120802; 120812; 120822; 123200; 123632; 125264; 130032]%N.

(** The decimal value of a digit. *)
Definition decimal_of (cp : N) : option N :=
  match List.find (fun z => ((z <=? cp) && (cp <? z + 10))%N) decimal_starts with
  | Some z => Some (cp - z)%N
  | None => None
  end.

(** *** [s.strip()] *)

Fixpoint lstrip_chars (l : list (N * string)) : list (N * string) :=
  match l with
  | (cp, bytes) :: l' => if is_py_space cp then lstrip_chars l' else l
  | [] => []
  end.

Definition rstrip_chars (l : list (N * string)) : list (N * string) :=
  rev (lstrip_chars (rev l)).

Definition lstrip (s : string) : string := unchars (lstrip_chars (chars s)).
Definition rstrip (s : string) : string := unchars (rstrip_chars (chars s)).

(** [s.strip()] *)
Definition strip (s : string) : string :=
  unchars (rstrip_chars (lstrip_chars (chars s))).

(** *** [int(...)] on strings *)

(** The ASCII buffer [int] parses: a character below U+007F stands for
    itself, white space above becomes a space, a digit above becomes its
    ASCII digit, and the first other character becomes [?] and ends the
    buffer. *)
Fixpoint to_ascii_buffer (l : list N) : list N :=
  match l with
  | [] => []
  | cp :: l' =>
      if (cp <? 127)%N then cp :: to_ascii_buffer l'
      else if is_py_space cp then 32%N :: to_ascii_buffer l'
      else
        match decimal_of cp with
        | Some d => (48 + d)%N :: to_ascii_buffer l'
        | None => [63%N]
        end
  end.

(** Decimal digits with single underscores between digits: the value, the
    number of digits and what follows them, or [None] when there is no
    digit or an underscore is not between two digits.  [prev] says that the
    previous character was a digit. *)
Fixpoint digits_value (acc : Z) (count : N) (prev : bool) (l : list N)
    : option (Z * N * list N) :=
  match l with
  | [] => if prev then Some (acc, count, []) else None
  | c :: l' =>
      if ((48 <=? c) && (c <=? 57))%N
      then digits_value (10 * acc + Z.of_N (c - 48)) (count + 1)%N true l'
      else if (c =? 95)%N then (if prev then digits_value acc count false l' else None)
      else if prev then Some (acc, count, l) else None
  end.

Fixpoint skip_c_space (l : list N) : list N :=
  match l with
  | c :: l' => if is_c_space c then skip_c_space l' else l
  | [] => []
  end.

(** [sys.get_int_max_str_digits()], left at its default. *)
Definition max_str_digits : N := 4300.

(** [int(s)] for a string: white space, an optional sign, digits, white
    space; [None] stands for [ValueError]. *)
Definition int_of_string (s : string) : option Z :=
  let buffer := skip_c_space (to_ascii_buffer (map fst (chars s))) in
  let '(negative, digits) :=
    match buffer with
    | 45%N :: l => (true, l)
    | 43%N :: l => (false, l)
    | l => (false, l)
    end in
  match digits_value 0 0 false digits with
  | Some (z, count, rest) =>
      if forallb is_c_space rest && (count <=? max_str_digits)%N
      then Some (if negative then - z else z)
      else None
  | None => None
  end.

(** [int(v)] *)
Definition py_int (v : pyval) : result Z :=
  match v with
  | PNone => Raise TypeError
  | PBool b => Ok (if b then 1 else 0)
  | PInt z => Ok z
  | PFloat (FFinite n d) => Ok (Z.quot n (Z.pos d))
  | PFloat (FInf _) => Raise OverflowError
  | PFloat FNan => Raise ValueError
  | PStr s => match int_of_string s with Some z => Ok z | None => Raise ValueError end
  | PList _ | PDict _ => Raise TypeError
  end.

(** [s.replace(",", "")] *)
Fixpoint remove_commas (s : string) : string :=
  match s with
  | EmptyString => EmptyString
  | String c s' => if Ascii.eqb c ","%char then remove_commas s' else String c (remove_commas s')
  end.

(** *** Dictionaries *)

Definition is_key (k : string) (v : pyval) : bool :=
  match v with PStr s => String.eqb s k | _ => false end.

(** The value stored under the string key [k], if any. *)
Fixpoint dict_lookup (k : string) (kvs : list (pyval * pyval)) : option pyval :=
  match kvs with
  | [] => None
  | (k', v) :: rest => if is_key k k' then Some v else dict_lookup k rest
  end.

(** [obj.get(k, default)]: only a [dict] has the method. *)
Definition py_get (obj : pyval) (k : string) (dflt : pyval) : result pyval :=
  match obj with
  | PDict kvs => Ok (default dflt (dict_lookup k kvs))
  | _ => Raise AttributeError
  end.

(** *** Insertion-ordered dictionaries built by the code itself *)

Section odict.
Context {K V : Type} `{EqDecision K}.

(** [d.get(k)] *)
Fixpoint od_get (k : K) (d : list (K * V)) : option V :=
  match d with
  | [] => None
  | (k', v) :: d' => if decide (k = k') then Some v else od_get k d'
  end.

(** [d[k] = v]: an existing key keeps its position, a new key goes last. *)
Fixpoint od_set (k : K) (v : V) (d : list (K * V)) : list (K * V) :=
  match d with
  | [] => [(k, v)]
  | (k', v') :: d' =>
      if decide (k = k') then (k', v) :: d' else (k', v') :: od_set k v d'
  end.

(** [d.update(other)] *)
Definition od_update (d other : list (K * V)) : list (K * V) :=
  fold_left (fun acc kv => od_set kv.1 kv.2 acc) other d.

Definition od_keys (d : list (K * V)) : list K := map fst d.
Definition od_values (d : list (K * V)) : list V := map snd d.
End odict.

(** *** [sorted(xs, key=...)]: a stable sort that only uses [<] on keys *)

Section sorted.
Context {A K : Type} (ltb : K -> K -> bool) (key : A -> K).

Fixpoint insert_sorted (x : A) (l : list A) : list A :=
  match l with
  | [] => [x]
  | y :: l' => if ltb (key y) (key x) then y :: insert_sorted x l' else x :: l
  end.

Definition sorted_by (l : list A) : list A := foldr insert_sorted [] l.
End sorted.

(** [a < b] on strings and on pairs of strings (tuples compare
    lexicographically, component by component). *)
Definition str_ltb (a b : string) : bool := String.ltb a b.

Definition pair_ltb (a b : string * string) : bool :=
  if String.eqb a.1 b.1 then str_ltb a.2 b.2 else str_ltb a.1 b.1.

(** ** The object store *)

Definition loc := nat.

(** [ads_parser.ImpressionRange] *)
Record ImpressionRange := mkImpressionRange {
  lower_bound : Z;
  upper_bound : Z
}.

(** [ads_parser.SurfaceServingStat]; [impressions] refers to an
    [ImpressionRange] object. *)
Record SurfaceServingStat := mkSurfaceServingStat {
  surface_code : string;
  surface_name : string;
  s_impressions : loc
}.

(** [ads_parser.RegionStat]; [impressions] refers to an [ImpressionRange]
    object and [surface_serving_stats] lists [SurfaceServingStat] objects. *)
Record RegionStat := mkRegionStat {
  region_code : string;
  region_name : string;
  first_shown : string;
  last_shown : string;
  impressions : loc;
  surface_serving_stats : list loc
}.

(** The store: one table per class, and the next unused location. *)
Record heap := mkHeap {
  imps : loc -> ImpressionRange;
  surfs : loc -> SurfaceServingStat;
  regs : loc -> RegionStat;
  next : loc
}.

Definition set_imp (l : loc) (v : ImpressionRange) (h : heap) : heap :=
  mkHeap (<[l := v]> (imps h)) (surfs h) (regs h) (next h).

Definition set_surf (l : loc) (v : SurfaceServingStat) (h : heap) : heap :=
  mkHeap (imps h) (<[l := v]> (surfs h)) (regs h) (next h).

Definition set_reg (l : loc) (v : RegionStat) (h : heap) : heap :=
  mkHeap (imps h) (surfs h) (<[l := v]> (regs h)) (next h).

(** Constructors allocate at [next]. *)
Definition new_imp (v : ImpressionRange) (h : heap) : loc * heap :=
  (next h, mkHeap (<[next h := v]> (imps h)) (surfs h) (regs h) (S (next h))).

Definition new_surf (v : SurfaceServingStat) (h : heap) : loc * heap :=
  (next h, mkHeap (imps h) (<[next h := v]> (surfs h)) (regs h) (S (next h))).

Definition new_reg (v : RegionStat) (h : heap) : loc * heap :=
  (next h, mkHeap (imps h) (surfs h) (<[next h := v]> (regs h)) (S (next h))).

(** Attribute assignments. *)
Definition set_first_shown (r : loc) (s : string) (h : heap) : heap :=
  let o := regs h r in
  set_reg r (mkRegionStat (region_code o) (region_name o) s (last_shown o)
               (impressions o) (surface_serving_stats o)) h.

Definition set_last_shown (r : loc) (s : string) (h : heap) : heap :=
  let o := regs h r in
  set_reg r (mkRegionStat (region_code o) (region_name o) (first_shown o) s
               (impressions o) (surface_serving_stats o)) h.

Definition set_surface_serving_stats (r : loc) (l : list loc) (h : heap) : heap :=
  let o := regs h r in
  set_reg r (mkRegionStat (region_code o) (region_name o) (first_shown o)
               (last_shown o) (impressions o) l) h.

(** ** [utils_region.normalize_region_stats] *)

(** [existing_impressions.lower_bound += impressions.lower_bound] followed by
    the same statement for [upper_bound].  Both objects are dataclass
    instances, hence truthy: the guard [if impressions and
    existing_impressions] always passes.  The two locations may be the same
    object. *)
Definition add_impressions (existing_impressions impressions : loc) (h : heap) : heap :=
  let h1 :=
    let e := imps h existing_impressions in
    set_imp existing_impressions
      (mkImpressionRange (lower_bound e + lower_bound (imps h impressions)) (upper_bound e)) h in
  let e := imps h1 existing_impressions in
  set_imp existing_impressions
    (mkImpressionRange (lower_bound e) (upper_bound e + upper_bound (imps h1 impressions))) h1.

Definition region_key (h : heap) (region : loc) : string * string :=
  (region_code (regs h region), region_name (regs h region)).

(** The [else] branch of the first loop: [region] is merged into the
    canonical object [existing]. *)
Definition merge_region (existing region : loc) (h : heap) : heap :=
  let h1 := add_impressions (impressions (regs h existing)) (impressions (regs h region)) h in
  let region_first := first_shown (regs h1 region) in
  let region_last := last_shown (regs h1 region) in
  let existing_first := first_shown (regs h1 existing) in
  let existing_last := last_shown (regs h1 existing) in
  let h2 :=
    if nonempty region_first && (negb (nonempty existing_first) || str_ltb region_first existing_first)
    then set_first_shown existing region_first h1 else h1 in
  let h3 :=
    if nonempty region_last && (negb (nonempty existing_last) || str_ltb existing_last region_last)
    then set_last_shown existing region_last h2 else h2 in
  let existing_surfaces := surface_serving_stats (regs h3 existing) in
  let new_surfaces := surface_serving_stats (regs h3 region) in
  set_surface_serving_stats existing (existing_surfaces ++ new_surfaces) h3.

(** The first loop, from a given [by_key]. *)
Fixpoint group_regions (region_stats : list loc) (by_key : list ((string * string) * loc))
    (h : heap) : list ((string * string) * loc) * heap :=
  match region_stats with
  | [] => (by_key, h)
  | region :: rest =>
      let key := region_key h region in
      match od_get key by_key with
      | None => group_regions rest (od_set key region by_key) h
      | Some existing => group_regions rest by_key (merge_region existing region h)
      end
  end.

(** The inner loop of the second pass, from a given [merged_surfaces]. *)
Fixpoint merge_surfaces (surfaces : list loc) (merged_surfaces : list (string * loc))
    (h : heap) : list (string * loc) * heap :=
  match surfaces with
  | [] => (merged_surfaces, h)
  | surface :: rest =>
      let code := surface_code (surfs h surface) in
      match od_get code merged_surfaces with
      | None => merge_surfaces rest (od_set code surface merged_surfaces) h
      | Some existing_surface =>
          merge_surfaces rest merged_surfaces
            (add_impressions (s_impressions (surfs h existing_surface))
               (s_impressions (surfs h surface)) h)
      end
  end.

(** The second pass over [by_key.values()]. *)
Fixpoint merge_region_surfaces (regions : list loc) (h : heap) : heap :=
  match regions with
  | [] => h
  | region :: rest =>
      let '(merged_surfaces, h1) :=
        merge_surfaces (surface_serving_stats (regs h region)) [] h in
      merge_region_surfaces rest
        (set_surface_serving_stats region (od_values merged_surfaces) h1)
  end.

Definition normalize_region_stats (region_stats : list loc) (h : heap) : list loc * heap :=
  let '(by_key, h1) := group_regions region_stats [] h in
  let h2 := merge_region_surfaces (od_values by_key) h1 in
  (sorted_by pair_ltb (region_key h2) (od_values by_key), h2).

(** ** [ads_parser]: the record model and [AdRecord.to_flat_dicts] *)

(** [targeting_parser.TargetingInfo]: four insertion-ordered
    [Dict[str, bool]]. *)
Record TargetingInfo := mkTargetingInfo {
  demographics : list (string * bool);
  geography : list (string * bool);
  contextual : list (string * bool);
  advertiser_list : list (string * bool)
}.

(** [ads_parser.AdVariation]: declared [Optional[str]], filled with whatever
    [item.get(...)] returns. *)
Record AdVariation := mkAdVariation {
  click_url : pyval;
  cta : pyval;
  description : pyval;
  image_url : pyval
}.

(** [ads_parser.AdRecord] *)
Record AdRecord := mkAdRecord {
  ad_library_url : string;
  advertiser_id : string;
  advertiser_name : string;
  creative_id : string;
  format : string;
  ad_first_shown : string;
  ad_last_shown : string;
  preview_url : pyval;
  start_url : pyval;
  region_stats : list loc;
  targeting : option TargetingInfo;
  variations : list AdVariation
}.

(** A flat row: an insertion-ordered [Dict[str, Any]]. *)
Definition row := list (string * pyval).

(** [sep.join(xs)] *)
Fixpoint join (sep : string) (xs : list string) : string :=
  match xs with
  | [] => ""
  | [x] => x
  | x :: rest => x ++ sep ++ join sep rest
  end.

(** [",".join(sorted(k for k, v in d.items() if v))] *)
Definition active_codes (d : list (string * bool)) : pyval :=
  PStr (join "," (sorted_by str_ltb id (map fst (List.filter snd d)))).

Definition base_dict (self : AdRecord) : row :=
  [ ("adLibraryUrl", PStr (ad_library_url self));
    ("advertiserId", PStr (advertiser_id self));
    ("advertiserName", PStr (advertiser_name self));
    ("creativeId", PStr (creative_id self));
    ("format", PStr (format self));
    ("firstShown", PStr (ad_first_shown self));
    ("lastShown", PStr (ad_last_shown self));
    ("previewUrl", preview_url self);
    ("startUrl", start_url self) ].

(** [TargetingInfo] defines neither [__bool__] nor [__len__]: [if
    self.targeting] only tests for [None]. *)
Definition targeting_dict (self : AdRecord) : row :=
  match targeting self with
  | Some t =>
      [ ("targetingDemographicsTrue", active_codes (demographics t));
        ("targetingGeographyTrue", active_codes (geography t));
        ("targetingContextualTrue", active_codes (contextual t));
        ("targetingAdvertiserListTrue", active_codes (advertiser_list t)) ]
  | None => []
  end.

Definition region_dict (h : heap) (region : loc) : row :=
  let o := regs h region in
  [ ("regionCode", PStr (region_code o));
    ("regionName", PStr (region_name o));
    ("regionFirstShown", PStr (first_shown o));
    ("regionLastShown", PStr (last_shown o));
    ("regionImpressionsLower", PInt (lower_bound (imps h (impressions o))));
    ("regionImpressionsUpper", PInt (upper_bound (imps h (impressions o)))) ].

Definition surface_dict (h : heap) (surface : loc) : row :=
  let o := surfs h surface in
  [ ("surfaceCode", PStr (surface_code o));
    ("surfaceName", PStr (surface_name o));
    ("surfaceImpressionsLower", PInt (lower_bound (imps h (s_impressions o))));
    ("surfaceImpressionsUpper", PInt (upper_bound (imps h (s_impressions o)))) ].

Definition variation_dict (variation : AdVariation) : row :=
  [ ("variationClickUrl", click_url variation);
    ("variationCta", cta variation);
    ("variationDescription", description variation);
    ("variationImageUrl", image_url variation) ].

(** The five [row.update(...)] calls on a fresh [row]. *)
Definition make_row (base rd sd td vd : row) : row :=
  od_update (od_update (od_update (od_update (od_update [] base) rd) sd) td) vd.

(** [for variation in variations: ... rows.append(row)] *)
Definition for_variations (base rd sd td : row) (variations : list AdVariation)
    (rows : list row) : list row :=
  fold_left (fun rows variation => (rows ++ [make_row base rd sd td (variation_dict variation)])%list)
    variations rows.

(** [for surface in surfaces: ...] *)
Definition for_surfaces (h : heap) (base rd td : row) (variations : list AdVariation)
    (surfaces : list loc) (rows : list row) : list row :=
  fold_left (fun rows surface => for_variations base rd (surface_dict h surface) td variations rows)
    surfaces rows.

(** [region.surface_serving_stats or [SurfaceServingStat("", "",
    ImpressionRange(0, 0))]] *)
Definition surfaces_or_default (h : heap) (region : loc) : list loc * heap :=
  match surface_serving_stats (regs h region) with
  | [] =>
      let '(i, h1) := new_imp (mkImpressionRange 0 0) h in
      let '(s, h2) := new_surf (mkSurfaceServingStat "" "" i) h1 in
      ([s], h2)
  | surfaces => (surfaces, h)
  end.

(** [for region in regions: ...] *)
Fixpoint for_regions (base td : row) (variations : list AdVariation) (regions : list loc)
    (rows : list row) (h : heap) : list row * heap :=
  match regions with
  | [] => (rows, h)
  | region :: rest =>
      let rd := region_dict h region in
      let '(surfaces, h1) := surfaces_or_default h region in
      for_regions base td variations rest (for_surfaces h1 base rd td variations surfaces rows) h1
  end.

(** [self.region_stats or [RegionStat("", "", "", "", ImpressionRange(0, 0),
    [])]] *)
Definition regions_or_default (self : AdRecord) (h : heap) : list loc * heap :=
  match region_stats self with
  | [] =>
      let '(i, h1) := new_imp (mkImpressionRange 0 0) h in
      let '(r, h2) := new_reg (mkRegionStat "" "" "" "" i []) h1 in
      ([r], h2)
  | regions => (regions, h)
  end.

(** [self.variations or [AdVariation(None, None, None, None)]] *)
Definition variations_or_default (self : AdRecord) : list AdVariation :=
  match variations self with
  | [] => [mkAdVariation PNone PNone PNone PNone]
  | vs => vs
  end.

Definition to_flat_dicts (self : AdRecord) (h : heap) : list row * heap :=
  let base := base_dict self in
  let td := targeting_dict self in
  let '(regions, h1) := regions_or_default self h in
  let variations := variations_or_default self in
  for_regions base td variations regions [] h1.

(** ** Exceptions and the store: the two monads of the parsers *)

#[export] Instance result_ret : MRet result := fun _ a => Ok a.
#[export] Instance result_bind : MBind result := fun _ _ f m =>
  match m with
  | Ok a => f a
  | Raise e => Raise e
  end.

(** [try: body except classes: handler] *)
Definition try_except {A} (body : result A) (classes : exn -> bool)
    (handler : result A) : result A :=
  match body with
  | Ok a => Ok a
  | Raise e => if classes e then handler else Raise e
  end.

(** A computation that may allocate, update the store, and raise.  What was
    written before an exception stays written. *)
Definition M (A : Type) : Type := heap -> result A * heap.

Definition retM {A} (a : A) : M A := fun h => (Ok a, h).

Definition bindM {A B} (m : M A) (k : A -> M B) : M B := fun h =>
  match m h with
  | (Ok a, h1) => k a h1
  | (Raise e, h1) => (Raise e, h1)
  end.

Notation "x <- m ;; k" := (bindM m (fun x => k))
  (at level 100, m at next level, right associativity).

Definition lift {A} (r : result A) : M A := fun h => (r, h).

(** A call of a function that updates the store and cannot raise. *)
Definition run {A} (f : heap -> A * heap) : M A := fun h =>
  let '(a, h1) := f h in (Ok a, h1).

Definition try_exceptM {A} (body : M A) (classes : exn -> bool) (handler : M A) : M A :=
  fun h =>
    match body h with
    | (Ok a, h1) => (Ok a, h1)
    | (Raise e, h1) => if classes e then handler h1 else (Raise e, h1)
    end.

(** [for item in v]: what a JSON value iterates over (a mapping yields its
    keys, a string its characters). *)
Definition py_iter (v : pyval) : result (list pyval) :=
  match v with
  | PList xs => Ok xs
  | PDict kvs => Ok (map fst kvs)
  | PStr s => Ok (map (fun cb => PStr cb.2) (chars s))
  | PNone | PBool _ | PInt _ | PFloat _ => Raise TypeError
  end.

Section parsers.
(** [str(v)] is [v] itself on a string; on the other values it is their
    printed form, which the code under study never inspects. *)
Variable repr : pyval -> string.

Definition py_str (v : pyval) : string :=
  match v with
  | PStr s => s
  | _ => repr v
  end.

(** *** [targeting_parser] *)

Definition _ensure_bool_map (raw : pyval) : list (string * bool) :=
  match raw with
  | PDict kvs =>
      fold_left (fun result kv => od_set (py_str kv.1) (truthy kv.2) result) kvs []
  | _ => []
  end.

Definition parse_targeting (targeting_raw : pyval) : result (option TargetingInfo) :=
  if negb (truthy targeting_raw) then Ok None
  else
    category ← py_get targeting_raw "targetingCategory" (PDict []);
    d ← py_get category "demographics" PNone;
    g ← py_get category "geography" PNone;
    c ← py_get category "contextual" PNone;
    a ← py_get category "advertiserList" PNone;
    Ok (Some (mkTargetingInfo (_ensure_bool_map d) (_ensure_bool_map g)
                (_ensure_bool_map c) (_ensure_bool_map a))).

(** *** [ads_parser]: the parsers *)

(** The [try] block of [_parse_impression_range]: both conversions share
    one handler, which resets both results. *)
Definition coerce_bounds (lower upper : pyval) : result (Z * Z) :=
  try_except
    (lower_int ← py_int lower;
     upper_int ← py_int upper;
     Ok (lower_int, upper_int))
    (catches [TypeError; ValueError])
    (Ok (0, 0)).

(** The bounds [_parse_impression_range] passes to [ImpressionRange(...)]. *)
Definition impression_bounds (impressions_raw : pyval) : result (Z * Z) :=
  if negb (truthy impressions_raw) then Ok (0, 0)
  else
    lower ← py_get impressions_raw "lowerBound" (PInt 0);
    upper ← py_get impressions_raw "upperBound" (PInt 0);
    coerce_bounds (py_or lower (PInt 0)) (py_or upper (PInt 0)).

Definition _parse_impression_range (impressions_raw : pyval) : M loc :=
  b <- lift (impression_bounds impressions_raw);;
  run (new_imp (mkImpressionRange b.1 b.2)).

Fixpoint surface_items (items : list pyval) (stats : list loc) : M (list loc) :=
  match items with
  | [] => retM stats
  | item :: rest =>
      impressions_raw <- lift (py_get item "impressions" (PDict []));;
      code <- lift (py_get item "surfaceCode" (PStr ""));;
      name <- lift (py_get item "surfaceName" (PStr ""));;
      i <- _parse_impression_range impressions_raw;;
      s <- run (new_surf (mkSurfaceServingStat (py_str code) (py_str name) i));;
      surface_items rest (stats ++ [s])%list
  end.

Definition _parse_surface_stats (surface_stats_raw : pyval) : M (list loc) :=
  if negb (truthy surface_stats_raw) then retM []
  else
    items <- lift (py_iter surface_stats_raw);;
    surface_items items [].

Fixpoint region_items (items : list pyval) (stats : list loc) : M (list loc) :=
  match items with
  | [] => retM stats
  | item :: rest =>
      impressions_raw <- lift (py_get item "impressions" (PDict []));;
      surface_stats_raw <- lift (py_get item "surfaceServingStats" (PList []));;
      code <- lift (py_get item "regionCode" (PStr ""));;
      name <- lift (py_get item "regionName" (PStr ""));;
      first <- lift (py_get item "firstShown" (PStr ""));;
      last <- lift (py_get item "lastShown" (PStr ""));;
      i <- _parse_impression_range impressions_raw;;
      ss <- _parse_surface_stats surface_stats_raw;;
      r <- run (new_reg (mkRegionStat (py_str code) (py_str name) (py_str first)
                              (py_str last) i ss));;
      region_items rest (stats ++ [r])%list
  end.

Definition _parse_region_stats (region_stats_raw : pyval) : M (list loc) :=
  if negb (truthy region_stats_raw) then retM []
  else
    items <- lift (py_iter region_stats_raw);;
    stats <- region_items items [];;
    run (normalize_region_stats stats).

Fixpoint variation_items (items : list pyval) (variations : list AdVariation)
    : result (list AdVariation) :=
  match items with
  | [] => Ok variations
  | item :: rest =>
      cu ← py_get item "clickUrl" PNone;
      ct ← py_get item "cta" PNone;
      de ← py_get item "description" PNone;
      iu ← py_get item "imageUrl" PNone;
      variation_items rest (variations ++ [mkAdVariation cu ct de iu])%list
  end.

Definition _parse_variations (variations_raw : pyval) : result (list AdVariation) :=
  if negb (truthy variations_raw) then Ok []
  else
    items ← py_iter variations_raw;
    variation_items items [].

(** The [AdRecord(...)] call inside the [try] of [parse_ads]. *)
Definition build_ad (raw : pyval) : M AdRecord :=
  url <- lift (py_get raw "adLibraryUrl" (PStr ""));;
  aid <- lift (py_get raw "advertiserId" (PStr ""));;
  aname <- lift (py_get raw "advertiserName" (PStr ""));;
  cid <- lift (py_get raw "creativeId" (PStr ""));;
  fmt <- lift (py_get raw "format" (PStr ""));;
  first <- lift (py_get raw "firstShown" (PStr ""));;
  last <- lift (py_get raw "lastShown" (PStr ""));;
  preview <- lift (py_get raw "previewUrl" PNone);;
  start <- lift (py_get raw "startUrl" PNone);;
  regions_raw <- lift (py_get raw "regionStats" PNone);;
  regions <- _parse_region_stats regions_raw;;
  targeting_raw <- lift (py_get raw "targeting" PNone);;
  tg <- lift (parse_targeting targeting_raw);;
  variations_raw <- lift (py_get raw "variations" PNone);;
  vs <- lift (_parse_variations variations_raw);;
  retM (mkAdRecord (py_str url) (py_str aid) (py_str aname) (py_str cid) (py_str fmt)
          (py_str first) (py_str last) preview start regions tg vs).

(** The loop of [parse_ads]; [logging.exception] leaves the store and
    [parsed] alone. *)
Fixpoint parse_ads_from (raw_ads : list pyval) (parsed : list AdRecord) : M (list AdRecord) :=
  match raw_ads with
  | [] => retM parsed
  | raw :: rest =>
      parsed1 <-
        try_exceptM
          (ad <- build_ad raw;; retM (parsed ++ [ad])%list)
          is_Exception
          (retM parsed);;
      parse_ads_from rest parsed1
  end.

Definition parse_ads (raw_ads : list pyval) : M (list AdRecord) :=
  parse_ads_from raw_ads [].
End parsers.

(** ** [google_ads_parser._parse_impressions_range] *)

Module google_ads_parser.
Record ImpressionRange := mkImpressionRange {
  lowerBound : Z;
  upperBound : Z
}.

(** The nested [to_int]; [val.replace] exists on strings only. *)
Definition to_int (val : pyval) : result Z :=
  if negb (truthy val) then Ok 0
  else
    try_except
      (match val with
       | PStr s => py_int (PStr (strip (remove_commas s)))
       | _ => Raise AttributeError
       end)
      (catches [ValueError])
      (Ok 0).

Definition _parse_impressions_range (lower upper : pyval) : result ImpressionRange :=
  l ← to_int lower;
  u ← to_int upper;
  Ok (mkImpressionRange l u).
End google_ads_parser.

(** * Specification vocabulary *)

Local Open Scope list_scope.

(** A store in which every object is blank and nothing is allocated. *)
Definition empty_heap : heap :=
  mkHeap (fun _ => mkImpressionRange 0 0)
         (fun _ => mkSurfaceServingStat "" "" 0%nat)
         (fun _ => mkRegionStat "" "" "" "" 0%nat [])
         0%nat.

(** What a constructor call [ImpressionRange(a, b)] leaves behind. *)
Definition created_range (b : Z * Z) (h : heap) : result loc * heap :=
  let '(l, h1) := new_imp (mkImpressionRange b.1 b.2) h in (Ok l, h1).

(** The argument [int(...)] receives for the bound [k] of a mapping. *)
Definition bound_arg (k : string) (kvs : list (pyval * pyval)) : pyval :=
  py_or (default (PInt 0) (dict_lookup k kvs)) (PInt 0).

Definition is_infinite (v : pyval) : bool :=
  match v with PFloat (FInf _) => true | _ => false end.

(** Both bounds when both coerce, [(0, 0)] when either does not. *)
Definition mapping_bounds (kvs : list (pyval * pyval)) : Z * Z :=
  match py_int (bound_arg "lowerBound" kvs), py_int (bound_arg "upperBound" kvs) with
  | Ok a, Ok b => (a, b)
  | _, _ => (0, 0)
  end.

(** An [Optional[str]] argument. *)
Definition of_opt (o : option string) : pyval :=
  match o with Some s => PStr s | None => PNone end.

(** One bound of the string-pair parser, coerced on its own. *)
Definition string_bound (o : option string) : Z :=
  match o with
  | Some s => default 0 (int_of_string (strip (remove_commas s)))
  | None => 0
  end.

(** The records whose construction succeeds, in input order; the store is
    threaded through every attempt. *)
Fixpoint constructed (repr : pyval -> string) (raw_ads : list pyval) (h : heap)
    : list AdRecord :=
  match raw_ads with
  | [] => []
  | raw :: rest =>
      match build_ad repr raw h with
      | (Ok ad, h1) => ad :: constructed repr rest h1
      | (Raise _, h1) => constructed repr rest h1
      end
  end.

(** *** Grouping by a key *)

Section keyed.
Context {A K : Type} `{EqDecision K} (key : A -> K).

(** The elements of [l] whose key occurs neither in [seen] nor earlier in
    [l]: the first occurrence of every key, in order. *)
Fixpoint first_occurrences (seen : list K) (l : list A) : list A :=
  match l with
  | [] => []
  | x :: l' =>
      if decide (key x ∈ seen) then first_occurrences seen l'
      else x :: first_occurrences (key x :: seen) l'
  end.

(** The dictionary that maps the key of every element of [l] to it. *)
Definition keyed (l : list A) : list (K * A) := map (fun x => (key x, x)) l.

(** The elements of [l] that have the key [k]. *)
Definition members (k : K) (l : list A) : list A := filter (fun x => key x = k) l.
End keyed.

(** The shape shared by the two merging loops of [normalize_region_stats]:
    look the key up, insert on a miss, merge into the entry on a hit. *)
Section group_loop.
Context {K : Type} `{EqDecision K}.
Variable key : heap -> loc -> K.
Variable merge : loc -> loc -> heap -> heap.

Fixpoint group_loop (xs : list loc) (d : list (K * loc)) (h : heap) : list (K * loc) * heap :=
  match xs with
  | [] => (d, h)
  | x :: rest =>
      match od_get (key h x) d with
      | None => group_loop rest (od_set (key h x) x d) h
      | Some e => group_loop rest d (merge e x h)
      end
  end.
End group_loop.

(** *** Observations on the store *)

Definition code_of (h : heap) (s : loc) : string := surface_code (surfs h s).
Definition imp_of (h : heap) (r : loc) : loc := impressions (regs h r).
Definition simp_of (h : heap) (s : loc) : loc := s_impressions (surfs h s).
Definition surfaces_of (h : heap) (r : loc) : list loc := surface_serving_stats (regs h r).

(** The merge performed on a hit of the surface loop. *)
Definition merge_surface (existing_surface surface : loc) (h : heap) : heap :=
  add_impressions (simp_of h existing_surface) (simp_of h surface) h.

(** Two stores that hold the same objects. *)
Definition heap_eq (h h' : heap) : Prop :=
  (forall l, imps h l = imps h' l) /\
  (forall l, surfs h l = surfs h' l) /\
  (forall l, regs h l = regs h' l) /\
  next h = next h'.

(** [h'] has the surfaces of [h], and the same code, name and impressions
    reference in every region: what identifies an object is untouched. *)
Definition same_identity (h h' : heap) : Prop :=
  surfs h' = surfs h /\
  next h' = next h /\
  forall r, region_code (regs h' r) = region_code (regs h r) /\
            region_name (regs h' r) = region_name (regs h r) /\
            impressions (regs h' r) = impressions (regs h r).

(** Bound-wise sum of impression ranges. *)
Definition range_add (a b : ImpressionRange) : ImpressionRange :=
  mkImpressionRange (lower_bound a + lower_bound b) (upper_bound a + upper_bound b).

Definition range_sum (l : list ImpressionRange) : ImpressionRange :=
  fold_left range_add l (mkImpressionRange 0 0).

(** The value [existing.first_shown] holds after merging a region whose
    [first_shown] is [region]: the smaller non-empty one. *)
Definition merge_first (existing region : string) : string :=
  if nonempty region && (negb (nonempty existing) || str_ltb region existing)
  then region else existing.

(** Likewise for [last_shown]: the larger non-empty one. *)
Definition merge_last (existing region : string) : string :=
  if nonempty region && (negb (nonempty existing) || str_ltb existing region)
  then region else existing.

(** [x] may stand before [y] in a list sorted by [key]: the key of [y] is
    not smaller than the key of [x]. *)
Definition not_after {A K : Type} (ltb : K -> K -> bool) (key : A -> K) (x y : A) : Prop :=
  ltb (key y) (key x) = false.

(** A region object with its surface list replaced. *)
Definition with_surfaces (o : RegionStat) (l : list loc) : RegionStat :=
  mkRegionStat (region_code o) (region_name o) (first_shown o) (last_shown o)
    (impressions o) l.

(** The surface list a region ends up with: the first surface of every
    code. *)
Definition merged_surfaces (h : heap) (r : loc) : list loc :=
  first_occurrences (code_of h) [] (surfaces_of h r).

(** The objects of a small input: regions 0 and 1 are both [("US", "United
    States")], region 2 is [("CA", "Canada")].  Region 0 has the surface 0,
    region 1 the surfaces 1 and 2; surfaces 0 and 1 share the code ["S"].
    Impression ranges 0, 1 and 5 belong to the regions, 2, 3 and 4 to the
    surfaces. *)
Definition example_heap : heap :=
  mkHeap
    (fun l => match l with
              | 0%nat => mkImpressionRange 100 200
              | 1%nat => mkImpressionRange 50 75
              | 2%nat => mkImpressionRange 1 2
              | 3%nat => mkImpressionRange 10 20
              | 4%nat => mkImpressionRange 7 7
              | _ => mkImpressionRange 0 0
              end)
    (fun l => match l with
              | 0%nat => mkSurfaceServingStat "S" "Search" 2%nat
              | 1%nat => mkSurfaceServingStat "S" "Search again" 3%nat
              | _ => mkSurfaceServingStat "Y" "YouTube" 4%nat
              end)
    (fun l => match l with
              | 0%nat => mkRegionStat "US" "United States" "2023-02-01" "" 0%nat [0%nat]
              | 1%nat => mkRegionStat "US" "United States" "2023-01-01" "2024-01-01" 1%nat
                           [1%nat; 2%nat]
              | _ => mkRegionStat "CA" "Canada" "" "" 5%nat []
              end)
    6%nat.

(** A store with a shared range: the regions 0 and 1 are both [("US",
    "United States")]; the only surface, 0, belongs to region 0 and has the
    impression range 0, which is also the range of region 0.  Region 1 has
    the range 1. *)
Definition shared_heap : heap :=
  mkHeap
    (fun l => match l with
              | 0%nat => mkImpressionRange 100 200
              | _ => mkImpressionRange 50 75
              end)
    (fun _ => mkSurfaceServingStat "S" "Search" 0%nat)
    (fun l => match l with
              | 0%nat => mkRegionStat "US" "United States" "" "" 0%nat [0%nat]
              | _ => mkRegionStat "US" "United States" "" "" 1%nat []
              end)
    2%nat.

(** [h'] extends [h]: the objects allocated in [h] are unchanged. *)
Definition extends (h h' : heap) : Prop :=
  (next h <= next h')%nat /\
  forall l, (l < next h)%nat ->
    imps h' l = imps h l /\ surfs h' l = surfs h l /\ regs h' l = regs h l.

(** *** Rows *)

Definition rows_of_region (h : heap) (v : nat) (r : loc) : nat :=
  (Nat.max 1 (length (surfaces_of h r)) * v)%nat.

(** The row count law: the sum over the regions [r] of
    [max(1, S_r) * max(1, V)], taken as [max(1, V)] without regions. *)
Definition row_count (self : AdRecord) (h : heap) : nat :=
  let v := Nat.max 1 (length (variations self)) in
  match region_stats self with
  | [] => v
  | rs => sum_list (map (rows_of_region h v) rs)
  end.

Definition metadata_keys : list string :=
  ["adLibraryUrl"; "advertiserId"; "advertiserName"; "creativeId"; "format";
   "firstShown"; "lastShown"; "previewUrl"; "startUrl"].

Definition region_keys : list string :=
  ["regionCode"; "regionName"; "regionFirstShown"; "regionLastShown";
   "regionImpressionsLower"; "regionImpressionsUpper"].

Definition surface_keys : list string :=
  ["surfaceCode"; "surfaceName"; "surfaceImpressionsLower"; "surfaceImpressionsUpper"].

Definition targeting_keys : list string :=
  ["targetingDemographicsTrue"; "targetingGeographyTrue"; "targetingContextualTrue";
   "targetingAdvertiserListTrue"].

Definition variation_keys : list string :=
  ["variationClickUrl"; "variationCta"; "variationDescription"; "variationImageUrl"].

(** The full fixed set of keys, in the order the row is filled. *)
Definition full_key_set : list string :=
  metadata_keys ++ region_keys ++ surface_keys ++ targeting_keys ++ variation_keys.

(** The region fields of a row hold the placeholder values. *)
Definition region_blank (r : row) : Prop :=
  od_get "regionCode" r = Some (PStr "") /\
  od_get "regionName" r = Some (PStr "") /\
  od_get "regionFirstShown" r = Some (PStr "") /\
  od_get "regionLastShown" r = Some (PStr "") /\
  od_get "regionImpressionsLower" r = Some (PInt 0) /\
  od_get "regionImpressionsUpper" r = Some (PInt 0).

Definition surface_blank (r : row) : Prop :=
  od_get "surfaceCode" r = Some (PStr "") /\
  od_get "surfaceName" r = Some (PStr "") /\
  od_get "surfaceImpressionsLower" r = Some (PInt 0) /\
  od_get "surfaceImpressionsUpper" r = Some (PInt 0).

(** The variation fields of a row hold [None]. *)
Definition variation_none (r : row) : Prop :=
  od_get "variationClickUrl" r = Some PNone /\
  od_get "variationCta" r = Some PNone /\
  od_get "variationDescription" r = Some PNone /\
  od_get "variationImageUrl" r = Some PNone.

(** The region fields of a row hold the code, the name and the dates of the
    region [r]. *)
Definition region_text (h : heap) (r : loc) (x : row) : Prop :=
  od_get "regionCode" x = Some (PStr (region_code (regs h r))) /\
  od_get "regionName" x = Some (PStr (region_name (regs h r))) /\
  od_get "regionFirstShown" x = Some (PStr (first_shown (regs h r))) /\
  od_get "regionLastShown" x = Some (PStr (last_shown (regs h r))).

(** ... and the bounds of its impression range. *)
Definition region_impressions (h : heap) (r : loc) (x : row) : Prop :=
  od_get "regionImpressionsLower" x = Some (PInt (lower_bound (imps h (imp_of h r)))) /\
  od_get "regionImpressionsUpper" x = Some (PInt (upper_bound (imps h (imp_of h r)))).

(** The surface fields of a row hold the code and the name of the surface
    [s]. *)
Definition surface_text (h : heap) (s : loc) (x : row) : Prop :=
  od_get "surfaceCode" x = Some (PStr (surface_code (surfs h s))) /\
  od_get "surfaceName" x = Some (PStr (surface_name (surfs h s))).

(** ... and the bounds of its impression range. *)
Definition surface_impressions (h : heap) (s : loc) (x : row) : Prop :=
  od_get "surfaceImpressionsLower" x = Some (PInt (lower_bound (imps h (simp_of h s)))) /\
  od_get "surfaceImpressionsUpper" x = Some (PInt (upper_bound (imps h (simp_of h s)))).

(** The variation fields of a row hold the fields of the variation [v]. *)
Definition variation_fields (v : AdVariation) (x : row) : Prop :=
  od_get "variationClickUrl" x = Some (click_url v) /\
  od_get "variationCta" x = Some (cta v) /\
  od_get "variationDescription" x = Some (description v) /\
  od_get "variationImageUrl" x = Some (image_url v).

(** The keys of a row of a record without targeting. *)
Definition plain_key_set : list string :=
  metadata_keys ++ region_keys ++ surface_keys ++ variation_keys.

(** A record with nothing in it. *)
Definition blank_ad : AdRecord :=
  mkAdRecord "" "" "" "" "" "" "" PNone PNone [] None [].

(** A record without regions and variations that has targeting. *)
Definition targeted_ad : AdRecord :=
  mkAdRecord "url" "AR1" "Acme" "CR1" "IMAGE" "2023-07-04" "2024-05-17" PNone PNone []
    (Some (mkTargetingInfo [("b", true); ("a", true); ("c", false)] [] [] [])) [].

(** A record over the regions 1 (two surfaces) and 2 (no surface) of
    [example_heap], without targeting and without variations. *)
Definition mixed_ad : AdRecord :=
  mkAdRecord "url" "AR1" "Acme" "CR1" "IMAGE" "" "" PNone PNone
    [1%nat; 2%nat] None [].

(** [m] is the extreme non-empty string of [vals] for the strict order
    [lt] (no non-empty element of [vals] is before [m]), or is empty when
    [vals] has no non-empty string. *)
Definition extreme_nonempty (lt : string -> string -> bool) (vals : list string)
    (m : string) : Prop :=
  (m = "" /\ Forall (fun v => v = "") vals) \/
  (m <> "" /\ m ∈ vals /\ Forall (fun v => v = "" \/ lt v m = false) vals).

(** The lexicographically smallest non-empty string of [vals]. *)
Definition smallest_nonempty : list string -> string -> Prop :=
  extreme_nonempty str_ltb.

(** The lexicographically largest non-empty string of [vals]. *)
Definition largest_nonempty : list string -> string -> Prop :=
  extreme_nonempty (fun a b => str_ltb b a).

(** The entries of the input that share the identity key of [c]. *)
Definition region_group (h : heap) (rs : list loc) (c : loc) : list loc :=
  members (region_key h) (region_key h c) rs.

(** The update both date fields go through, for a strict order [lt]. *)
Definition merge_with (lt : string -> string -> bool) (existing region : string) : string :=
  if nonempty region && (negb (nonempty existing) || lt region existing)
  then region else existing.

(** *** Ownership *)

(** All the surface objects of the regions [rs], in order. *)
Definition all_surfaces (h : heap) (rs : list loc) : list loc :=
  concat (map (surfaces_of h) rs).

(** The impression-range objects reachable from [rs]: those of the regions,
    then those of their surfaces.  When this list has no duplicates, every
    region and every surface owns its own range (and the regions, and the
    surfaces, are themselves distinct objects). *)
Definition impression_objects (h : heap) (rs : list loc) : list loc :=
  map (imp_of h) rs ++ map (simp_of h) (all_surfaces h rs).

(** The surfaces of all the input regions that share the key of [c],
    concatenated in input order. *)
Definition group_surfaces (h : heap) (rs : list loc) (c : loc) : list loc :=
  all_surfaces h (region_group h rs c).

(** The invariant of the surface loop: it writes impression ranges only. *)
Definition same_objects (h cur : heap) : Prop :=
  surfs cur = surfs h /\ regs cur = regs h.

(** The targeting fields of a row are the summaries of the four category
    mappings. *)
Definition targeting_summary (t : TargetingInfo) (x : row) : Prop :=
  od_get "targetingDemographicsTrue" x = Some (active_codes (demographics t)) /\
  od_get "targetingGeographyTrue" x = Some (active_codes (geography t)) /\
  od_get "targetingContextualTrue" x = Some (active_codes (contextual t)) /\
  od_get "targetingAdvertiserListTrue" x = Some (active_codes (advertiser_list t)).

(** The surfaces [l] are allocated, and own distinct impression ranges
    allocated at or after [lo]. *)
Definition owned_surfaces (lo : loc) (h : heap) (l : list loc) : Prop :=
  NoDup (map (simp_of h) l) /\
  Forall (fun s => (s < next h)%nat /\ (lo <= simp_of h s < next h)%nat) l.

(** The regions [rs] and their surfaces are allocated and own distinct,
    allocated impression ranges. *)
Definition owned (h : heap) (rs : list loc) : Prop :=
  NoDup (impression_objects h rs) /\
  Forall (fun i => (i < next h)%nat) (impression_objects h rs) /\
  Forall (fun r => (r < next h)%nat) rs /\
  Forall (fun s => (s < next h)%nat) (all_surfaces h rs).


(** * More of the code *)

(** ** [helpers.safe_get] *)

(** [safe_get(d, *keys, default=dflt)]: the loop leaves with [default] as
    soon as the current value is no mapping or lacks the key. *)
Fixpoint safe_get (d : pyval) (keys : list string) (dflt : pyval) : pyval :=
  match keys with
  | [] => d
  | key :: rest =>
      match d with
      | PDict kvs =>
          match dict_lookup key kvs with
          | Some v => safe_get v rest dflt
          | None => dflt
          end
      | _ => dflt
      end
  end.

(** ** [main.normalize_input_payload] *)

(** The loop over [enumerate(advertisers)]: an item that is no mapping
    raises [ValueError]. *)
Fixpoint check_advertisers (items : list pyval) (normalized : list pyval)
    : result (list pyval) :=
  match items with
  | [] => Ok normalized
  | item :: rest =>
      match item with
      | PDict _ => check_advertisers rest (normalized ++ [item])
      | _ => Raise ValueError
      end
  end.

Definition normalize_input_payload (payload : pyval) : result (list pyval) :=
  let advertisers :=
    match payload with
    | PDict kvs =>
        match dict_lookup "advertisers" kvs with
        | Some a => a
        | None => PList [payload]
        end
    | PList _ => payload
    | _ => PList [payload]
    end in
  items ← py_iter advertisers;
  check_advertisers items [].

(** ** [helpers.http_get]: the retry loop *)

Module helpers.

(** What one call of [sess.get] does: it answers with a status code or it
    raises (the exception is identified by a number). *)
Inductive outcome :=
| Responds (status : Z)
| Throws (e : nat).

Inductive http_exn :=
| HTTPError (status : Z)
| RequestError (e : nat)
| AssertionError.

Inductive http_result :=
| Returned (status : Z)
| Raised (e : http_exn).

(** The state the loop leaves behind: the result, the arguments of
    [time.sleep] as multiples of [backoff_factor], the number of calls of
    [sess.get].  [backoff_factor] is taken not to be negative, so that
    [time.sleep] returns, and the [assert] is taken to be checked. *)
Record run := mkRun {
  result_of : http_result;
  sleeps : list Z;
  calls : nat
}.

(** [200 <= resp.status_code < 300] *)
Definition is_success (status : Z) : bool := (200 <=? status) && (status <? 300).

(** [resp.raise_for_status()] raises on 4xx and 5xx. *)
Definition raises_for_status (status : Z) : bool := (400 <=? status) && (status <? 600).

(** The [while attempt < retries] loop; [remaining] is [retries - attempt]
    on entry, [env n] is what the [n]-th call of [sess.get] does. *)
Fixpoint http_loop (remaining : nat) (attempt : nat) (env : nat -> outcome)
    (last_exc : option http_exn) (slept : list Z) : run :=
  match remaining with
  | O =>
      match last_exc with
      | Some e => mkRun (Raised e) slept attempt
      | None => mkRun (Raised AssertionError) slept attempt
      end
  | S remaining' =>
      let attempt := S attempt in
      let handler exc :=
        let slept' :=
          match remaining' with
          | O => slept
          | S _ => slept ++ [2 ^ (Z.of_nat attempt - 1)]
          end in
        http_loop remaining' attempt env (Some exc) slept' in
      match env attempt with
      | Responds status =>
          if is_success status then mkRun (Returned status) slept attempt
          else if raises_for_status status then handler (HTTPError status)
          else http_loop remaining' attempt env last_exc slept
      | Throws e => handler (RequestError e)
      end
  end.

Definition http_get (retries : Z) (env : nat -> outcome) : run :=
  http_loop (Z.to_nat retries) 0 env None [].
End helpers.

(** ** [export_manager.ExportManager] *)

(** [csv.DictWriter(f, fieldnames=...)] with the defaults the code leaves in
    place, [restval=""] and [extrasaction="raise"]: [_dict_to_list] raises
    [ValueError] when the row has a key that is no field name, and otherwise
    lists [rowdict.get(key, "")] over the field names.  A line of the file
    is kept as the list of its values; quoting and separators are left
    out. *)
Definition _dict_to_list (fieldnames : list string) (rowdict : row) : result (list pyval) :=
  if forallb (fun k => bool_decide (k ∈ fieldnames)) (od_keys rowdict)
  then Ok (map (fun key => default (PStr "") (od_get key rowdict)) fieldnames)
  else Raise ValueError.

(** [writer.writerows(rows)]: the lines written before a failing row stay
    in the file. *)
Fixpoint writerows (fieldnames : list string) (rowdicts : list row)
    (file : list (list pyval)) : result unit * list (list pyval) :=
  match rowdicts with
  | [] => (Ok tt, file)
  | rowdict :: rest =>
      match _dict_to_list fieldnames rowdict with
      | Ok line => writerows fieldnames rest (file ++ [line])
      | Raise e => (Raise e, file)
      end
  end.

(** [writer.writeheader()] *)
Definition writeheader (fieldnames : list string) : list (list pyval) :=
  [map PStr fieldnames].

Module export_manager.

(** The loop of [_rows]: [rows.extend(ad.to_flat_dicts())]. *)
Fixpoint rows_from (ads : list AdRecord) (rows : list row) (h : heap) : list row * heap :=
  match ads with
  | [] => (rows, h)
  | ad :: rest =>
      let '(flat, h1) := to_flat_dicts ad h in
      rows_from rest (rows ++ flat) h1
  end.

Definition _rows (_ads : list AdRecord) (h : heap) : list row * heap :=
  rows_from _ads [] h.

(** [export_csv]: the outcome, and the lines of the file. *)
Definition export_csv (_ads : list AdRecord) (h : heap)
    : (result unit * list (list pyval)) * heap :=
  let '(rows, h1) := _rows _ads h in
  match rows with
  | [] => ((Ok tt, []), h1)
  | first :: _ =>
      let fieldnames := od_keys first in
      (writerows fieldnames rows (writeheader fieldnames), h1)
  end.

(** [value.replace(old, new)] for a pattern [old] of one character. *)
Fixpoint replace_char (old : ascii) (new : string) (value : string) : string :=
  match value with
  | EmptyString => EmptyString
  | String c rest =>
      if Ascii.eqb c old then (new ++ replace_char old new rest)%string
      else String c (replace_char old new rest)
  end.

(** The nested [_escape] of [export_html]; ["034"] is the double quote. *)
Definition _escape (value : string) : string :=
  replace_char "034" "&quot;"
    (replace_char ">" "&gt;"
       (replace_char "<" "&lt;"
          (replace_char "&" "&amp;" value))).
End export_manager.

(** ** [exporters] *)

Module exporters.
Section flatten.
(** [json.dumps(value, ensure_ascii=False)], used on the values that are
    neither scalars nor [None]; its text is not inspected. *)
Variable json_dumps : pyval -> string.

(** [isinstance(value, (str, int, float)) or value is None]; a [bool] is an
    [int]. *)
Definition is_scalar (value : pyval) : bool :=
  match value with
  | PList _ | PDict _ => false
  | PNone | PBool _ | PInt _ | PFloat _ | PStr _ => true
  end.

Definition _flatten_record_for_csv (record : row) : row :=
  fold_left
    (fun flat kv =>
       if is_scalar kv.2 then od_set kv.1 kv.2 flat
       else od_set kv.1 (PStr (json_dumps kv.2)) flat)
    record [].

(** [sorted({k for rec in data for k in rec.keys()})]: the set keeps one
    occurrence of every key; its order does not matter to [sorted]. *)
Definition fieldnames_of (data : list row) : list string :=
  sorted_by str_ltb id (first_occurrences id [] (concat (map od_keys data))).

(** [export_to_csv]: the outcome, and the lines of the file at
    [output_path] after the call.  [file] holds its lines before the call,
    [None] when it does not exist: [output_path.touch()] creates it empty
    or leaves its content alone, [output_path.open("w")] replaces its
    content. *)
Definition export_to_csv (records : list row) (file : option (list (list pyval)))
    : result unit * option (list (list pyval)) :=
  let data := fold_left (fun data rec => data ++ [_flatten_record_for_csv rec]) records [] in
  match data with
  | [] => (Ok tt, Some (default [] file))
  | _ :: _ =>
      let fieldnames := fieldnames_of data in
      let '(outcome, lines) := writerows fieldnames data (writeheader fieldnames) in
      (outcome, Some lines)
  end.
End flatten.
End exporters.

(** * Vocabulary for the properties of the rest of the code *)

(** The value at the end of a path of keys through nested mappings. *)
Fixpoint path_value (d : pyval) (keys : list string) : option pyval :=
  match keys with
  | [] => Some d
  | key :: rest =>
      match d with
      | PDict kvs => v ← dict_lookup key kvs; path_value v rest
      | _ => None
      end
  end.

Definition is_mapping (v : pyval) : Prop :=
  match v with PDict _ => True | _ => False end.

(** The [n]-th call of [sess.get] answers with a 2xx status. *)
Definition succeeds (env : nat -> helpers.outcome) (n : nat) : Prop :=
  match env n with
  | helpers.Responds status => helpers.is_success status = true
  | helpers.Throws _ => False
  end.


(** The [n]-th call ends in the [except] clause: it raises, or answers
    with a 4xx or 5xx status. *)
Definition fails (env : nat -> helpers.outcome) (n : nat) : Prop :=
  match env n with
  | helpers.Responds status =>
      helpers.is_success status = false /\ helpers.raises_for_status status = true
  | helpers.Throws _ => True
  end.


(** The total of the arguments of [time.sleep], in units of
    [backoff_factor]. *)
Definition total_sleep (l : list Z) : Z := fold_right Z.add 0 l.



(** The impression range [_parse_region_stats] builds for a raw region
    entry: the bounds of its ["impressions"] value. *)
Definition item_range (item : pyval) : ImpressionRange :=
  match py_get item "impressions" (PDict []) with
  | Ok raw =>
      match impression_bounds raw with
      | Ok b => mkImpressionRange b.1 b.2
      | Raise _ => mkImpressionRange 0 0
      end
  | Raise _ => mkImpressionRange 0 0
  end.

(** The regions [rs] and the impression ranges they reach were allocated at
    or after [lo]. *)
Definition fresh_since (lo : loc) (h : heap) (rs : list loc) : Prop :=
  Forall (fun r => (lo <= r)%nat) rs /\
  Forall (fun i => (lo <= i)%nat) (impression_objects h rs).

(** The variation [_parse_variations] builds for a raw entry that is a
    mapping. *)
Definition variation_of (item : pyval) : AdVariation :=
  match item with
  | PDict kvs =>
      mkAdVariation (default PNone (dict_lookup "clickUrl" kvs))
        (default PNone (dict_lookup "cta" kvs))
        (default PNone (dict_lookup "description" kvs))
        (default PNone (dict_lookup "imageUrl" kvs))
  | _ => mkAdVariation PNone PNone PNone PNone
  end.

(** Two raw entries for the same region, then one for another. *)
Definition raw_regions : list pyval :=
  [ PDict [(PStr "regionCode", PStr "US");
           (PStr "impressions", PDict [(PStr "lowerBound", PInt 100);
                                       (PStr "upperBound", PInt 200)])];
    PDict [(PStr "regionCode", PStr "US");
           (PStr "impressions", PDict [(PStr "lowerBound", PStr "50");
                                       (PStr "upperBound", PStr "75")])];
    PDict [(PStr "regionCode", PStr "CA")] ].

(** The rows of the regions [rs], read in the store [h]: region by region,
    surface by surface, variation by variation. *)
Definition product_rows (self : AdRecord) (h : heap) (rs : list loc) : list row :=
  concat (map (fun r =>
    concat (map (fun s =>
      map (fun v => make_row (base_dict self) (region_dict h r) (surface_dict h s)
                      (targeting_dict self) (variation_dict v))
        (variations_or_default self))
      (surfaces_of h r)))
    rs).

(** A record over the regions 1 and 0 of [example_heap], with one
    variation. *)
Definition example_ad : AdRecord :=
  mkAdRecord "url" "AR1" "Acme" "CR1" "IMAGE" "" "" PNone PNone
    [1%nat; 0%nat] None [mkAdVariation (PStr "click") PNone PNone PNone].

(** The keys of every row of a record. *)
Definition row_keys (self : AdRecord) : list string :=
  metadata_keys ++ region_keys ++ surface_keys ++ od_keys (targeting_dict self) ++
  variation_keys.

(** The regions of the record are objects of the store. *)
Definition allocated (h : heap) (self : AdRecord) : Prop :=
  Forall (fun r => (r < next h)%nat) (region_stats self).

(** What [_escape] puts in the place of one character. *)
Definition escape_char (c : ascii) : string :=
  if Ascii.eqb c "&" then "&amp;"
  else if Ascii.eqb c "<" then "&lt;"
  else if Ascii.eqb c ">" then "&gt;"
  else if Ascii.eqb c "034" then "&quot;"
  else String c "".

Fixpoint escape_all (s : string) : string :=
  match s with
  | EmptyString => EmptyString
  | String c rest => (escape_char c ++ escape_all rest)%string
  end.

(** The character [c] occurs in [s]. *)
Fixpoint occurs (c : ascii) (s : string) : bool :=
  match s with
  | EmptyString => false
  | String d rest => Ascii.eqb c d || occurs c rest
  end.

(** The line [DictWriter] writes for a row. *)
Definition csv_line (fieldnames : list string) (rowdict : row) : list pyval :=
  map (fun key => default (PStr "") (od_get key rowdict)) fieldnames.

(** The value [_flatten_record_for_csv] stores for [value]. *)
Definition flat_value (json_dumps : pyval -> string) (value : pyval) : pyval :=
  if exporters.is_scalar value then value else PStr (json_dumps value).

(** A record with a nested value. *)
Definition nested_record : row :=
  [("creativeId", PStr "CR1"); ("variations", PList [PInt 1; PInt 2]); ("count", PInt 3)].

(** The store after the construction of every record of [raw_ads] was
    attempted. *)
Fixpoint parsed_store (repr : pyval -> string) (raw_ads : list pyval) (h : heap) : heap :=
  match raw_ads with
  | [] => h
  | raw :: rest => parsed_store repr rest (build_ad repr raw h).2
  end.
(** * Theorems *)

(** ** The parsers *)

(** [int(v)] raises nothing but [TypeError], [ValueError] and, on an
    infinite float, [OverflowError]. *)
Lemma py_int_cases (v : pyval) :
  is_infinite v = false ->
  (exists z, py_int v = Ok z) \/ py_int v = Raise TypeError \/ py_int v = Raise ValueError.
Proof.
  destruct v as [| | |[| |]| | |]; simpl; try discriminate; eauto.
  destruct (int_of_string s); eauto.
Qed.

Lemma coerce_bounds_total (lower upper : pyval) :
  is_infinite lower = false -> is_infinite upper = false ->
  coerce_bounds lower upper =
    Ok (match py_int lower, py_int upper with
        | Ok a, Ok b => (a, b)
        | _, _ => (0, 0)
        end).
Proof.
  intros Hl Hu. unfold coerce_bounds, try_except, mbind, result_bind.
  destruct (py_int_cases _ Hl) as [[a ->]|[-> | ->]]; try reflexivity.
  destruct (py_int_cases _ Hu) as [[b ->]|[-> | ->]]; reflexivity.
Qed.

Lemma impression_bounds_mapping (kvs : list (pyval * pyval)) :
  is_infinite (bound_arg "lowerBound" kvs) = false ->
  is_infinite (bound_arg "upperBound" kvs) = false ->
  impression_bounds (PDict kvs) = Ok (mapping_bounds kvs).
Proof.
  intros Hl Hu. unfold impression_bounds, mapping_bounds.
  destruct kvs as [|kv kvs]; [reflexivity|].
  cbn [truthy negb py_get mbind result_bind].
  apply coerce_bounds_total; assumption.
Qed.

Lemma to_int_optional (o : option string) :
  google_ads_parser.to_int (of_opt o) = Ok (string_bound o).
Proof.
  destruct o as [s|]; [|reflexivity].
  unfold google_ads_parser.to_int, of_opt, string_bound.
  destruct s as [|c s]; [reflexivity|].
  cbn [truthy nonempty negb py_int try_except].
  destruct (int_of_string _); reflexivity.
Qed.

(** [int] and [strip] on white space and digits outside ASCII, and at the
    digit limit: [int] does not skip U+001C, which [strip] removes; it reads
    the Arabic-Indic digits; [strip] removes a trailing no-break space; a
    string of 4301 digits is refused, one of 4300 is not. *)
Example int_of_string_examples :
  int_of_string (String "028" "5") = None /\
  strip (String "028" "5") = "5" /\
  int_of_string (String "217" (String "161" (String "217" (String "162"
                   (String "217" (String "163" "")))))) = Some 123 /\
  strip ("1,234" ++ String "194" (String "160" "")) = "1,234" /\
  google_ads_parser.to_int (PStr ("1,234" ++ String "194" (String "160" ""))) = Ok 1234 /\
  int_of_string (" +1_000" ++ String "009" "") = Some 1000 /\
  int_of_string "1__0" = None /\
  int_of_string (string_of_list_ascii (repeat "1"%char 4301)) = None /\
  int_of_string (string_of_list_ascii (repeat "1"%char 4300)) <> None.
Proof. vm_compute. repeat split. discriminate. Qed.

(** The same inputs as bounds: a lower bound that [int] refuses resets both
    bounds, Arabic-Indic digits are read. *)
Example impression_range_examples :
  _parse_impression_range
    (PDict [(PStr "lowerBound", PStr (String "028" "5")); (PStr "upperBound", PStr "7")])
    empty_heap = created_range (0, 0) empty_heap /\
  _parse_impression_range
    (PDict [(PStr "lowerBound",
             PStr (String "217" (String "161" (String "217" (String "162"
                     (String "217" (String "163" "")))))));
            (PStr "upperBound", PStr "5")])
    empty_heap = created_range (123, 5) empty_heap.
Proof. split; reflexivity. Qed.

(** C3 (as the code has it): on [None] or on a mapping none of whose bounds
    is an infinite float, [_parse_impression_range] returns a fresh
    [ImpressionRange] and does not raise; it holds both coerced bounds when
    both coerce and [(0, 0)] as soon as either fails.  The string-pair parser
    [_parse_impressions_range] coerces each bound on its own.  The mapping
    [{"lowerBound": "abc", "upperBound": None}] gives [(0, 0)]. *)
Theorem C3_impression_range_parsers :
  (forall h, _parse_impression_range PNone h = created_range (0, 0) h) /\
  (forall kvs h,
     is_infinite (bound_arg "lowerBound" kvs) = false ->
     is_infinite (bound_arg "upperBound" kvs) = false ->
     _parse_impression_range (PDict kvs) h = created_range (mapping_bounds kvs) h) /\
  (forall lower upper : option string,
     google_ads_parser._parse_impressions_range (of_opt lower) (of_opt upper) =
       Ok (google_ads_parser.mkImpressionRange (string_bound lower) (string_bound upper))) /\
  (forall h,
     _parse_impression_range
       (PDict [(PStr "lowerBound", PStr "abc"); (PStr "upperBound", PNone)]) h =
       created_range (0, 0) h).
Proof.
  assert (Hmap : forall kvs h,
     is_infinite (bound_arg "lowerBound" kvs) = false ->
     is_infinite (bound_arg "upperBound" kvs) = false ->
     _parse_impression_range (PDict kvs) h = created_range (mapping_bounds kvs) h).
  { intros kvs h Hl Hu. unfold _parse_impression_range, bindM, lift.
    rewrite (impression_bounds_mapping kvs Hl Hu). reflexivity. }
  split; [reflexivity|]. split; [exact Hmap|]. split.
  - intros lower upper. unfold google_ads_parser._parse_impressions_range.
    rewrite !to_int_optional. reflexivity.
  - intros h. apply Hmap; reflexivity.
Qed.

Lemma C3_impression_range_parsers_witness :
  _parse_impression_range
    (PDict [(PStr "lowerBound", PStr "12"); (PStr "upperBound", PStr "1_000")]) empty_heap =
    created_range (12, 1000) empty_heap.
Proof.
  apply (proj1 (proj2 C3_impression_range_parsers)
           [(PStr "lowerBound", PStr "12"); (PStr "upperBound", PStr "1_000")] empty_heap);
    reflexivity.
Defined.

(** C3 as stated fails: the lower bound ["5"] coerces to [5], the upper
    bound ["abc"] does not coerce, and the parser returns [(0, 0)], not
    [(5, 0)]. *)
Lemma C3_counterexample :
  py_int (PStr "5") = Ok 5 /\
  _parse_impression_range
    (PDict [(PStr "lowerBound", PStr "5"); (PStr "upperBound", PStr "abc")]) empty_heap =
    created_range (0, 0) empty_heap.
Proof. split; reflexivity. Qed.

(** An infinite float bound escapes the handler of [_parse_impression_range]:
    [int(float("inf"))] raises [OverflowError]. *)
Lemma impression_range_overflow (h : heap) :
  (_parse_impression_range (PDict [(PStr "lowerBound", PFloat (FInf false))]) h).1 =
    Raise OverflowError.
Proof. reflexivity. Qed.

(** [_ensure_bool_map]: a non-mapping gives the empty mapping. *)
Lemma ensure_bool_map_non_mapping (repr : pyval -> string) (raw : pyval) :
  (forall kvs, raw <> PDict kvs) -> _ensure_bool_map repr raw = [].
Proof. destruct raw; try reflexivity. intros H. destruct (H kvs eq_refl). Qed.

Lemma elem_of_od_set {K V} `{EqDecision K} (k : K) (v : V) (d : list (K * V)) (x : K * V) :
  x ∈ od_set k v d -> x = (k, v) \/ x ∈ d.
Proof.
  induction d as [|[k' v'] d IH]; simpl.
  - intros Hx. apply list_elem_of_singleton in Hx. auto.
  - destruct (decide (k = k')) as [->|Hne]; intros Hx;
      apply elem_of_cons in Hx as [->|Hx]; auto.
    + right. apply elem_of_cons. auto.
    + right. apply elem_of_cons. auto.
    + destruct (IH Hx) as [->|Hd]; auto. right. apply elem_of_cons. auto.
Qed.

(** [_ensure_bool_map]: every entry of the result is the stringified key and
    the truthiness of the value of an entry of the mapping. *)
Lemma ensure_bool_map_entries (repr : pyval -> string) (kvs : list (pyval * pyval))
    (k : string) (b : bool) :
  (k, b) ∈ _ensure_bool_map repr (PDict kvs) ->
  exists key v, (key, v) ∈ kvs /\ k = py_str repr key /\ b = truthy v.
Proof.
  cbn [_ensure_bool_map].
  assert (Hgen : forall acc,
    (k, b) ∈ fold_left (fun result kv => od_set (py_str repr kv.1) (truthy kv.2) result) kvs acc ->
    (k, b) ∈ acc \/ exists key v, (key, v) ∈ kvs /\ k = py_str repr key /\ b = truthy v).
  { induction kvs as [|[key v] kvs IH]; intros acc; simpl; [auto|].
    intros Hin. apply IH in Hin as [Hin|(key' & v' & Hin & ?)].
    - apply elem_of_od_set in Hin as [[= -> ->]|Hin]; [|auto].
      right. exists key, v. split; [apply elem_of_cons; auto | auto].
    - right. exists key', v'. split; [apply elem_of_cons; auto | assumption]. }
  intros Hin. apply Hgen in Hin as [Hin|Hin]; [inversion Hin | exact Hin].
Qed.

(** [parse_targeting] on an absent or falsy input. *)
Lemma parse_targeting_falsy (repr : pyval -> string) (raw : pyval) :
  truthy raw = false -> parse_targeting repr raw = Ok None.
Proof. intros H. unfold parse_targeting. rewrite H. reflexivity. Qed.

(** [parse_targeting] on a mapping whose [targetingCategory] is absent or is
    itself a mapping. *)
Lemma parse_targeting_mapping (repr : pyval -> string) kvs cs :
  truthy (PDict kvs) = true ->
  default (PDict []) (dict_lookup "targetingCategory" kvs) = PDict cs ->
  parse_targeting repr (PDict kvs) =
    Ok (Some (mkTargetingInfo
                (_ensure_bool_map repr (default PNone (dict_lookup "demographics" cs)))
                (_ensure_bool_map repr (default PNone (dict_lookup "geography" cs)))
                (_ensure_bool_map repr (default PNone (dict_lookup "contextual" cs)))
                (_ensure_bool_map repr (default PNone (dict_lookup "advertiserList" cs))))).
Proof.
  intros Ht Hc. unfold parse_targeting. rewrite Ht.
  cbn [negb py_get mbind result_bind]. rewrite Hc. reflexivity.
Qed.

(** C8 (the code at the failing input): a mapping whose [targetingCategory]
    is present but is not a mapping, here [None], makes [parse_targeting]
    raise [AttributeError] on [category.get]. *)
Theorem C8_parse_targeting_raises (repr : pyval -> string) :
  parse_targeting repr (PDict [(PStr "targetingCategory", PNone)]) = Raise AttributeError.
Proof. reflexivity. Qed.

(** The loop of [parse_ads] from any accumulator: it returns, and appends
    the records that get constructed. *)
Lemma parse_ads_from_spec (repr : pyval -> string) (raw_ads : list pyval) :
  forall parsed h,
    (parse_ads_from repr raw_ads parsed h).1 = Ok (parsed ++ constructed repr raw_ads h)%list.
Proof.
  induction raw_ads as [|raw rest IH]; intros parsed h.
  - simpl. rewrite app_nil_r. reflexivity.
  - cbn [parse_ads_from constructed]. unfold bindM at 1. unfold try_exceptM.
    unfold bindM at 1.
    destruct (build_ad repr raw h) as [[ad|e] h1].
    + unfold retM at 1. rewrite IH, <- app_assoc. reflexivity.
    + destruct e; cbn [is_Exception]; unfold retM at 1; apply IH.
Qed.

(** C9: [parse_ads] returns for every list of raw values; its result is the
    list of the records whose construction succeeded, in input order, a
    failed construction being skipped. *)
Theorem C9_parse_ads_skips_failures (repr : pyval -> string) (raw_ads : list pyval) (h : heap) :
  (parse_ads repr raw_ads h).1 = Ok (constructed repr raw_ads h).
Proof. unfold parse_ads. rewrite parse_ads_from_spec. reflexivity. Qed.

(** A batch with two malformed entries: the number [3] is no mapping, and
    the third entry has a [targetingCategory] that is no mapping.  Both are
    skipped, the first and the last entry are kept. *)
Example parse_ads_example :
  (parse_ads (fun _ => "")
     [ PDict [(PStr "creativeId", PStr "CR1")];
       PInt 3;
       PDict [(PStr "creativeId", PStr "CR2");
              (PStr "targeting", PDict [(PStr "targetingCategory", PInt 1)])];
       PDict [(PStr "creativeId", PStr "CR3")] ]
     empty_heap).1 =
    Ok [ mkAdRecord "" "" "" "CR1" "" "" "" PNone PNone [] None [];
         mkAdRecord "" "" "" "CR3" "" "" "" PNone PNone [] None [] ].
Proof. reflexivity. Qed.

(** ** Lists *)

Lemma elem_of_map {A B} (f : A -> B) (l : list A) (y : B) :
  y ∈ map f l <-> exists x, y = f x /\ x ∈ l.
Proof. apply (list_elem_of_fmap f). Qed.

Lemma elem_of_map_2 {A B} (f : A -> B) (l : list A) (x : A) :
  x ∈ l -> f x ∈ map f l.
Proof. apply (list_elem_of_fmap_2 f). Qed.

(** On a list without duplicate images, the function is injective. *)
Lemma NoDup_map_inj {A B} (f : A -> B) (l : list A) (x y : A) :
  NoDup (map f l) -> x ∈ l -> y ∈ l -> f x = f y -> x = y.
Proof.
  induction l as [|a l IH]; simpl; intros Hnd Hx Hy Hf.
  - inversion Hx.
  - apply NoDup_cons in Hnd as [Ha Hnd].
    apply elem_of_cons in Hx as [->|Hx]; apply elem_of_cons in Hy as [->|Hy]; auto.
    + destruct Ha. rewrite Hf. apply elem_of_map_2, Hy.
    + destruct Ha. rewrite <- Hf. apply elem_of_map_2, Hx.
Qed.

Lemma NoDup_map_NoDup {A B} (f : A -> B) (l : list A) :
  NoDup (map f l) -> NoDup l.
Proof. apply (NoDup_fmap_1 f). Qed.

(** ** Dictionaries and first occurrences *)

Section keyed_facts.
Context {A K : Type} `{EqDecision K} (key : A -> K).

Lemma od_get_keyed_None (k : K) (l : list A) :
  od_get k (keyed key l) = None <-> k ∉ map key l.
Proof.
  induction l as [|x l IH]; simpl.
  - split; [intros _; apply not_elem_of_nil | reflexivity].
  - destruct (decide (k = key x)) as [->|Hne].
    + split; [discriminate|]. intros Hn. destruct Hn. apply elem_of_cons; auto.
    + rewrite IH, not_elem_of_cons. tauto.
Qed.

Lemma od_get_keyed_Some (k : K) (l : list A) (e : A) :
  od_get k (keyed key l) = Some e -> e ∈ l /\ key e = k.
Proof.
  induction l as [|x l IH]; simpl; [discriminate|].
  destruct (decide (k = key x)) as [->|Hne].
  - intros [= ->]. split; [apply elem_of_cons; auto | reflexivity].
  - intros Hg. destruct (IH Hg). split; [apply elem_of_cons; auto | assumption].
Qed.

Lemma od_set_keyed_fresh (x : A) (l : list A) :
  key x ∉ map key l -> od_set (key x) x (keyed key l) = keyed key (l ++ [x]).
Proof.
  induction l as [|y l IH]; simpl; [reflexivity|].
  intros Hn. apply not_elem_of_cons in Hn as [Hne Hn].
  destruct (decide (key x = key y)); [contradiction|].
  rewrite IH by assumption. reflexivity.
Qed.

Lemma od_values_keyed (l : list A) : od_values (keyed key l) = l.
Proof.
  unfold od_values, keyed. rewrite map_map. simpl. apply map_id.
Qed.

Lemma od_keys_keyed (l : list A) : od_keys (keyed key l) = map key l.
Proof. unfold od_keys, keyed. rewrite map_map. reflexivity. Qed.

Lemma first_occurrences_snoc (seen : list K) (l : list A) (x : A) :
  first_occurrences key seen (l ++ [x]) =
    first_occurrences key seen l ++
      (if decide (key x ∈ seen ++ map key l) then [] else [x]).
Proof.
  revert seen. induction l as [|y l IH]; intros seen; simpl.
  - rewrite app_nil_r. destruct (decide (key x ∈ seen)); reflexivity.
  - destruct (decide (key y ∈ seen)) as [Hy|Hy].
    + rewrite IH. f_equal. apply decide_ext.
      rewrite !elem_of_app, elem_of_cons. split; [tauto|].
      intros [?|[->|?]]; auto.
    + rewrite IH. cbn [app]. f_equal. f_equal. apply decide_ext.
      rewrite !elem_of_app, !elem_of_cons, elem_of_app. tauto.
Qed.

Lemma elem_of_first_occurrences (seen : list K) (l : list A) (x : A) :
  x ∈ first_occurrences key seen l -> x ∈ l /\ key x ∉ seen.
Proof.
  revert seen. induction l as [|y l IH]; intros seen; simpl.
  - intros Hx. inversion Hx.
  - destruct (decide (key y ∈ seen)) as [Hy|Hy].
    + intros Hx. destruct (IH _ Hx). split; [apply elem_of_cons; auto | assumption].
    + intros Hx. apply elem_of_cons in Hx as [->|Hx].
      * split; [apply elem_of_cons; auto | assumption].
      * destruct (IH _ Hx) as [? Hs]. split; [apply elem_of_cons; auto|].
        intros Hin. apply Hs. apply elem_of_cons; auto.
Qed.

Lemma first_occurrences_keys (seen : list K) (l : list A) (k : K) :
  k ∈ map key (first_occurrences key seen l) <-> k ∈ map key l /\ k ∉ seen.
Proof.
  revert seen. induction l as [|y l IH]; intros seen; simpl.
  - split; [intros Hk; inversion Hk | intros [Hk _]; inversion Hk].
  - destruct (decide (key y ∈ seen)) as [Hy|Hy].
    + rewrite IH, elem_of_cons. split; [tauto|].
      intros [[->|?] ?]; [contradiction | tauto].
    + simpl. rewrite !elem_of_cons, IH, not_elem_of_cons.
      split.
      * intros [->|[? [? ?]]]; auto.
      * intros [[->|?] ?]; auto.
        destruct (decide (k = key y)); auto.
Qed.

Lemma first_occurrences_NoDup (seen : list K) (l : list A) :
  NoDup (map key (first_occurrences key seen l)).
Proof.
  revert seen. induction l as [|y l IH]; intros seen; simpl; [constructor|].
  destruct (decide (key y ∈ seen)); [apply IH|].
  simpl. apply NoDup_cons. split; [|apply IH].
  rewrite first_occurrences_keys, not_elem_of_cons. tauto.
Qed.

Lemma first_occurrences_id (seen : list K) (l : list A) :
  NoDup (map key l) -> (forall x, x ∈ l -> key x ∉ seen) ->
  first_occurrences key seen l = l.
Proof.
  revert seen. induction l as [|y l IH]; intros seen Hnd Hs; simpl; [reflexivity|].
  simpl in Hnd. apply NoDup_cons in Hnd as [Hy Hnd].
  destruct (decide (key y ∈ seen)) as [Hin|_].
  - exfalso. apply (Hs y); [apply elem_of_cons; auto | assumption].
  - f_equal. apply IH; [assumption|].
    intros x Hx. rewrite not_elem_of_cons. split.
    + intros Heq. apply Hy. rewrite <- Heq. apply elem_of_map_2. exact Hx.
    + apply Hs. apply elem_of_cons; auto.
Qed.

(** The canonical element is the first member of its key. *)
Lemma members_first_occurrence (l : list A) (e : A) :
  e ∈ first_occurrences key [] l ->
  exists dups, members key (key e) l = e :: dups.
Proof.
  assert (Hgen : forall seen, e ∈ first_occurrences key seen l ->
            exists pre post, l = pre ++ e :: post /\ key e ∉ map key pre).
  { induction l as [|y l IH]; intros seen; simpl.
    - intros Hx. inversion Hx.
    - destruct (decide (key y ∈ seen)) as [Hy|Hy].
      + intros He. destruct (IH _ He) as (pre & post & -> & Hn).
        exists (y :: pre), post. split; [reflexivity|].
        simpl. rewrite not_elem_of_cons. split; [|assumption].
        intros Heq. apply elem_of_first_occurrences in He as [_ He].
        apply He. rewrite Heq. assumption.
      + intros He. apply elem_of_cons in He as [->|He].
        * exists [], l. split; [reflexivity | apply not_elem_of_nil].
        * destruct (IH _ He) as (pre & post & -> & Hn).
          exists (y :: pre), post. split; [reflexivity|].
          simpl. rewrite not_elem_of_cons. split; [|assumption].
          intros Heq. apply elem_of_first_occurrences in He as [_ He].
          apply He. rewrite Heq. apply elem_of_cons; auto. }
  intros He. destruct (Hgen _ He) as (pre & post & -> & Hn).
  exists (members key (key e) post). unfold members.
  rewrite filter_app, filter_cons_True by reflexivity.
  replace (filter (fun x => key x = key e) pre) with (@nil A); [reflexivity|].
  symmetry. clear -Hn. induction pre as [|y pre IH]; [reflexivity|].
  simpl in Hn. apply not_elem_of_cons in Hn as [Hne Hn].
  rewrite filter_cons_False by congruence. apply IH, Hn.
Qed.

Lemma members_snoc (k : K) (l : list A) (x : A) :
  members key k (l ++ [x]) = members key k l ++ (if decide (key x = k) then [x] else []).
Proof.
  unfold members. rewrite filter_app. reflexivity.
Qed.

Lemma elem_of_members (k : K) (l : list A) (x : A) :
  x ∈ members key k l <-> x ∈ l /\ key x = k.
Proof. unfold members. rewrite list_elem_of_filter. tauto. Qed.
End keyed_facts.

(** ** Reads after writes *)

Lemma add_impressions_self (e i : loc) (h : heap) :
  imps (add_impressions e i h) e = range_add (imps h e) (imps h i).
Proof.
  unfold add_impressions, set_imp, range_add; simpl.
  rewrite !fn_lookup_insert. simpl. f_equal. f_equal.
  destruct (decide (e = i)) as [->|Hne].
  - rewrite fn_lookup_insert. reflexivity.
  - rewrite fn_lookup_insert_ne by assumption. reflexivity.
Qed.

Lemma add_impressions_other (e i l : loc) (h : heap) :
  l <> e -> imps (add_impressions e i h) l = imps h l.
Proof.
  intros Hne. unfold add_impressions, set_imp; simpl.
  rewrite !fn_lookup_insert_ne by congruence. reflexivity.
Qed.

Lemma add_impressions_rest (e i : loc) (h : heap) :
  surfs (add_impressions e i h) = surfs h /\
  regs (add_impressions e i h) = regs h /\
  next (add_impressions e i h) = next h.
Proof. repeat split. Qed.

(** What [merge_region] leaves in the canonical region object. *)
Lemma merge_region_regs_self (e r : loc) (h : heap) :
  regs (merge_region e r h) e =
    mkRegionStat (region_code (regs h e)) (region_name (regs h e))
      (merge_first (first_shown (regs h e)) (first_shown (regs h r)))
      (merge_last (last_shown (regs h e)) (last_shown (regs h r)))
      (impressions (regs h e))
      (surface_serving_stats (regs h e) ++ surface_serving_stats (regs h r)).
Proof.
  unfold merge_region, merge_first, merge_last.
  cbn [regs add_impressions set_imp].
  set (c1 := nonempty (first_shown (regs h r)) && _).
  set (c2 := nonempty (last_shown (regs h r)) && _).
  destruct c1, c2;
    unfold set_surface_serving_stats, set_last_shown, set_first_shown, set_reg;
    cbn [regs]; rewrite ?fn_lookup_insert; cbn; f_equal;
    destruct (decide (e = r)) as [->|Hne];
    rewrite ?fn_lookup_insert, ?fn_lookup_insert_ne by assumption; reflexivity.
Qed.

Lemma merge_region_regs_other (e r l : loc) (h : heap) :
  l <> e -> regs (merge_region e r h) l = regs h l.
Proof.
  intros Hne. unfold merge_region.
  cbn [regs add_impressions set_imp].
  set (c1 := nonempty (first_shown (regs h r)) && _).
  set (c2 := nonempty (last_shown (regs h r)) && _).
  destruct c1, c2;
    unfold set_surface_serving_stats, set_last_shown, set_first_shown, set_reg;
    cbn [regs]; rewrite ?fn_lookup_insert_ne by congruence; reflexivity.
Qed.

Lemma merge_region_imps (e r : loc) (h : heap) :
  imps (merge_region e r h) = imps (add_impressions (imp_of h e) (imp_of h r) h).
Proof.
  unfold merge_region.
  set (c1 := nonempty _ && _). set (c2 := nonempty _ && _).
  destruct c1, c2; reflexivity.
Qed.

Lemma merge_region_surfs (e r : loc) (h : heap) :
  surfs (merge_region e r h) = surfs h /\ next (merge_region e r h) = next h.
Proof.
  unfold merge_region.
  set (c1 := nonempty _ && _). set (c2 := nonempty _ && _).
  destruct c1, c2; split; reflexivity.
Qed.

(** ** [same_identity] is a preorder that every step respects *)

Lemma same_identity_refl (h : heap) : same_identity h h.
Proof. repeat split. Qed.

Lemma same_identity_trans (h1 h2 h3 : heap) :
  same_identity h1 h2 -> same_identity h2 h3 -> same_identity h1 h3.
Proof.
  intros (Hs1 & Hn1 & Hr1) (Hs2 & Hn2 & Hr2). split; [congruence|]. split; [congruence|].
  intros r. destruct (Hr1 r) as (? & ? & ?), (Hr2 r) as (? & ? & ?).
  repeat split; congruence.
Qed.

Lemma same_identity_merge_region (e r : loc) (h : heap) :
  same_identity h (merge_region e r h).
Proof.
  destruct (merge_region_surfs e r h) as [Hs Hn].
  split; [assumption|]. split; [assumption|]. intros l.
  destruct (decide (l = e)) as [->|Hne].
  - rewrite merge_region_regs_self. repeat split.
  - rewrite merge_region_regs_other by assumption. repeat split.
Qed.

Lemma same_identity_add_impressions (e i : loc) (h : heap) :
  same_identity h (add_impressions e i h).
Proof. repeat split. Qed.

Lemma same_identity_set_surfaces (r : loc) (l : list loc) (h : heap) :
  same_identity h (set_surface_serving_stats r l h).
Proof.
  split; [reflexivity|]. split; [reflexivity|]. intros x.
  unfold set_surface_serving_stats, set_reg; cbn [regs].
  destruct (decide (x = r)) as [->|Hne].
  - rewrite fn_lookup_insert. repeat split.
  - rewrite fn_lookup_insert_ne by congruence. repeat split.
Qed.

Lemma same_identity_region_key (h h' : heap) (r : loc) :
  same_identity h h' -> region_key h' r = region_key h r.
Proof.
  intros (_ & _ & Hr). destruct (Hr r) as (Hc & Hn & _).
  unfold region_key. rewrite Hc, Hn. reflexivity.
Qed.

Lemma same_identity_imp_of (h h' : heap) (r : loc) :
  same_identity h h' -> imp_of h' r = imp_of h r.
Proof. intros (_ & _ & Hr). destruct (Hr r) as (_ & _ & Hi). exact Hi. Qed.

Lemma same_identity_code_of (h h' : heap) (s : loc) :
  same_identity h h' -> code_of h' s = code_of h s.
Proof. intros (Hs & _). unfold code_of. rewrite Hs. reflexivity. Qed.

Lemma same_identity_simp_of (h h' : heap) (s : loc) :
  same_identity h h' -> simp_of h' s = simp_of h s.
Proof. intros (Hs & _). unfold simp_of. rewrite Hs. reflexivity. Qed.

(** ** The two loops are instances of [group_loop] *)

Lemma group_regions_loop (xs : list loc) (d : list ((string * string) * loc)) (h : heap) :
  group_regions xs d h = group_loop region_key merge_region xs d h.
Proof. revert d h. induction xs as [|x xs IH]; intros d h; simpl; [reflexivity|].
  destruct (od_get _ d); apply IH. Qed.

Lemma merge_surfaces_loop (xs : list loc) (d : list (string * loc)) (h : heap) :
  merge_surfaces xs d h = group_loop code_of merge_surface xs d h.
Proof. revert d h. induction xs as [|x xs IH]; intros d h; simpl; [reflexivity|].
  unfold code_of at 1 2. destruct (od_get _ d); apply IH. Qed.

Section group_loop_facts.
Context {K : Type} `{EqDecision K}.
Variable key : heap -> loc -> K.
Variable merge : loc -> loc -> heap -> heap.
Hypothesis key_merge : forall e x h y, key (merge e x h) y = key h y.

Lemma group_loop_app (xs ys : list loc) (d : list (K * loc)) (h : heap) :
  group_loop key merge (xs ++ ys) d h =
    let '(d1, h1) := group_loop key merge xs d h in group_loop key merge ys d1 h1.
Proof.
  revert d h. induction xs as [|x xs IH]; intros d h; simpl; [reflexivity|].
  destruct (od_get _ d); apply IH.
Qed.

(** An invariant of the loop, indexed by the prefix already processed: it
    is enough to preserve it on a miss (the store is untouched) and on a hit
    (the element is merged into the first element of its key). *)
Lemma group_loop_inv (h : heap) (xs : list loc) (I : list loc -> heap -> Prop) :
  I [] h ->
  (forall pre x post cur,
     xs = pre ++ x :: post -> I pre cur -> (forall y, key cur y = key h y) ->
     key h x ∉ map (key h) pre -> I (pre ++ [x]) cur) ->
  (forall pre x post e cur,
     xs = pre ++ x :: post -> I pre cur -> (forall y, key cur y = key h y) ->
     e ∈ first_occurrences (key h) [] pre -> key h e = key h x ->
     I (pre ++ [x]) (merge e x cur)) ->
  exists h',
    group_loop key merge xs [] h = (keyed (key h) (first_occurrences (key h) [] xs), h') /\
    I xs h' /\ (forall y, key h' y = key h y).
Proof.
  intros Hnil Hmiss Hhit.
  assert (Hgen : forall pre post, xs = pre ++ post ->
    exists cur,
      group_loop key merge pre [] h = (keyed (key h) (first_occurrences (key h) [] pre), cur) /\
      I pre cur /\ (forall y, key cur y = key h y)).
  { induction pre as [|x pre IH] using rev_ind; intros post Hxs.
    - exists h. simpl. auto.
    - rewrite <- app_assoc in Hxs. simpl in Hxs.
      destruct (IH _ Hxs) as (cur & Hrun & HI & Hkey).
      rewrite group_loop_app, Hrun. cbn [group_loop]. rewrite Hkey.
      rewrite first_occurrences_snoc. cbn [app].
      destruct (od_get (key h x) _) as [e|] eqn:Hget.
      + apply od_get_keyed_Some in Hget as [He Hke].
        exists (merge e x cur). split; [|split].
        * destruct (decide _) as [_|Hn]; [rewrite app_nil_r; reflexivity|].
          destruct Hn. apply elem_of_first_occurrences in He as [He _].
          rewrite <- Hke. apply elem_of_map_2, He.
        * eapply Hhit; eauto.
        * intros y. rewrite key_merge. apply Hkey.
      + apply od_get_keyed_None in Hget.
        assert (Hn : key h x ∉ map (key h) pre).
        { intros Hin. apply Hget. apply first_occurrences_keys. split; [assumption|].
          apply not_elem_of_nil. }
        exists cur. split; [|split].
        * destruct (decide _) as [Hin|_]; [contradiction|].
          rewrite od_set_keyed_fresh by assumption. reflexivity.
        * eapply Hmiss; eauto.
        * assumption. }
  destruct (Hgen xs [] (eq_sym (app_nil_r xs))) as (cur & ? & ? & ?). eauto.
Qed.

(** When no key repeats, the loop only fills the dictionary. *)
Lemma group_loop_NoDup (h : heap) (xs : list loc) :
  NoDup (map (key h) xs) -> group_loop key merge xs [] h = (keyed (key h) xs, h).
Proof.
  intros Hnd.
  destruct (group_loop_inv h xs (fun _ cur => cur = h)) as (h' & Hrun & -> & _).
  - reflexivity.
  - intros; assumption.
  - intros pre x post e cur -> _ _ He Hk. exfalso.
    rewrite map_app in Hnd. apply NoDup_app in Hnd as (_ & Hdisj & _).
    apply (Hdisj (key h x)).
    + rewrite <- Hk. apply elem_of_map_2. apply elem_of_first_occurrences in He. tauto.
    + simpl. apply elem_of_cons; auto.
  - rewrite Hrun. rewrite first_occurrences_id; [reflexivity | assumption |].
    intros; apply not_elem_of_nil.
Qed.
End group_loop_facts.

(** ** The order on strings and on pairs of strings *)

Lemma str_ltb_irrefl (a : string) : str_ltb a a = false.
Proof.
  unfold str_ltb, String.ltb.
  destruct (String.compare a a) eqn:Hc; try reflexivity.
  pose proof (String.compare_antisym a a) as Ha. rewrite Hc in Ha. discriminate.
Qed.

Lemma str_ltb_asym (a b : string) : str_ltb a b = true -> str_ltb b a = false.
Proof.
  unfold str_ltb, String.ltb. rewrite (String.compare_antisym a b).
  destruct (String.compare b a); simpl; congruence.
Qed.

Lemma str_ltb_leb (a b : string) : str_ltb a b = negb (String.leb b a).
Proof.
  unfold str_ltb, String.ltb, String.leb. rewrite (String.compare_antisym b a).
  destruct (String.compare a b); reflexivity.
Qed.

Lemma str_ltb_total (a b : string) : str_ltb a b = false -> str_ltb b a = false -> a = b.
Proof.
  rewrite !str_ltb_leb. intros H1 H2.
  apply negb_false_iff in H1, H2. apply String.leb_antisym; assumption.
Qed.

Lemma str_ltb_trans (a b c : string) :
  str_ltb a b = true -> str_ltb b c = true -> str_ltb a c = true.
Proof.
  intros Hab Hbc.
  destruct (str_ltb a c) eqn:Hac; [reflexivity|exfalso].
  (* c <= a, a <= b (from a < b), hence c <= b: contradiction with b < c *)
  pose proof (str_ltb_asym _ _ Hab) as Hba.
  rewrite str_ltb_leb in Hac, Hba, Hbc.
  apply negb_false_iff in Hac, Hba. apply negb_true_iff in Hbc.
  assert (Hcb : String.le c b).
  { transitivity a; unfold String.le; [rewrite Hac | rewrite Hba]; exact I. }
  unfold String.le in Hcb. rewrite Hbc in Hcb. exact Hcb.
Qed.

Lemma pair_ltb_irrefl (a : string * string) : pair_ltb a a = false.
Proof. unfold pair_ltb. rewrite String.eqb_refl. apply str_ltb_irrefl. Qed.

Lemma pair_ltb_total (a b : string * string) :
  pair_ltb a b = false -> pair_ltb b a = false -> a = b.
Proof.
  destruct a as [a1 a2], b as [b1 b2]. unfold pair_ltb; simpl.
  rewrite (String.eqb_sym b1 a1).
  destruct (String.eqb_spec a1 b1) as [->|Hne]; intros H1 H2.
  - f_equal. apply str_ltb_total; assumption.
  - destruct Hne. apply str_ltb_total; assumption.
Qed.

Lemma pair_ltb_trans (a b c : string * string) :
  pair_ltb a b = true -> pair_ltb b c = true -> pair_ltb a c = true.
Proof.
  destruct a as [a1 a2], b as [b1 b2], c as [c1 c2]. unfold pair_ltb; simpl.
  destruct (String.eqb_spec a1 b1) as [->|Hab];
    destruct (String.eqb_spec b1 c1) as [->|Hbc]; intros H1 H2.
  - eapply str_ltb_trans; eassumption.
  - assumption.
  - destruct (String.eqb_spec a1 c1) as [->|Hac]; [contradiction | assumption].
  - destruct (String.eqb_spec a1 c1) as [->|Hac].
    + rewrite (str_ltb_asym _ _ H1) in H2. discriminate.
    + eapply str_ltb_trans; eassumption.
Qed.

Lemma pair_ltb_asym (a b : string * string) : pair_ltb a b = true -> pair_ltb b a = false.
Proof.
  intros Hab. destruct (pair_ltb b a) eqn:Hba; [|reflexivity].
  pose proof (pair_ltb_trans _ _ _ Hab Hba) as Haa.
  rewrite pair_ltb_irrefl in Haa. discriminate.
Qed.

(** ** [sorted] *)

Section sorted_facts.
Context {A K : Type} (ltb : K -> K -> bool) (key : A -> K).
Hypothesis ltb_trans : forall a b c, ltb a b = true -> ltb b c = true -> ltb a c = true.
Hypothesis ltb_irrefl : forall a, ltb a a = false.
Hypothesis ltb_total : forall a b, ltb a b = false -> ltb b a = false -> a = b.

#[local] Abbreviation not_after := (not_after ltb key).

Lemma ltb_asym (a b : K) : ltb a b = true -> ltb b a = false.
Proof.
  intros Hab. destruct (ltb b a) eqn:Hba; [|reflexivity].
  rewrite <- (ltb_irrefl a). symmetry. eapply ltb_trans; eassumption.
Qed.

Lemma not_after_trans : Transitive not_after.
Proof.
  intros x y z Hxy Hyz. unfold not_after in *.
  destruct (ltb (key z) (key x)) eqn:Hzx; [exfalso|reflexivity].
  destruct (ltb (key x) (key y)) eqn:Hlt.
  - rewrite (ltb_trans _ _ _ Hzx Hlt) in Hyz. discriminate.
  - rewrite (ltb_total _ _ Hlt Hxy) in Hzx. congruence.
Qed.

Lemma insert_sorted_Permutation (x : A) (l : list A) :
  Permutation (insert_sorted ltb key x l) (x :: l).
Proof.
  induction l as [|y l IH]; simpl; [reflexivity|].
  destruct (ltb (key y) (key x)); [|reflexivity].
  rewrite IH. apply perm_swap.
Qed.

Lemma sorted_by_Permutation (l : list A) : Permutation (sorted_by ltb key l) l.
Proof.
  induction l as [|x l IH]; simpl; [reflexivity|].
  rewrite insert_sorted_Permutation, IH. reflexivity.
Qed.

Lemma insert_sorted_Sorted (x : A) (l : list A) :
  Sorted not_after l -> Sorted not_after (insert_sorted ltb key x l).
Proof.
  induction l as [|y l IH]; simpl; intros Hs.
  - repeat constructor.
  - destruct (ltb (key y) (key x)) eqn:Hyx.
    + apply Sorted_inv in Hs as [Hs Hhd]. constructor; [apply IH, Hs|].
      destruct l as [|z l]; simpl.
      * constructor. unfold not_after. apply ltb_asym, Hyx.
      * destruct (ltb (key z) (key x)); constructor.
        -- inversion Hhd; assumption.
        -- unfold not_after. apply ltb_asym, Hyx.
    + constructor; [assumption|]. constructor. exact Hyx.
Qed.

Lemma sorted_by_Sorted (l : list A) : Sorted not_after (sorted_by ltb key l).
Proof.
  induction l as [|x l IH]; simpl; [constructor|]. apply insert_sorted_Sorted, IH.
Qed.

(** Sorting a list that is in order returns it. *)
Lemma sorted_by_id (l : list A) : Sorted not_after l -> sorted_by ltb key l = l.
Proof.
  induction l as [|x l IH]; simpl; intros Hs; [reflexivity|].
  apply Sorted_inv in Hs as [Hs Hhd]. rewrite (IH Hs).
  destruct l as [|y l]; simpl; [reflexivity|].
  inversion Hhd as [|? ? Hxy]; subst. unfold not_after in Hxy. rewrite Hxy. reflexivity.
Qed.

(** With pairwise distinct keys the sorted list is strictly increasing. *)
Lemma sorted_by_strict (l : list A) :
  NoDup (map key l) ->
  StronglySorted (fun a b => ltb a b = true) (map key (sorted_by ltb key l)).
Proof.
  intros Hnd.
  assert (Hnd' : NoDup (map key (sorted_by ltb key l))).
  { rewrite (Permutation_map key (sorted_by_Permutation l)). exact Hnd. }
  pose proof (Sorted.Sorted_StronglySorted not_after_trans (sorted_by_Sorted l)) as Hss.
  revert Hnd'. induction Hss as [|x l' Hss IH Hall]; simpl; intros Hnd'; [constructor|].
  apply NoDup_cons in Hnd' as [Hx Hnd']. constructor; [apply IH, Hnd'|].
  rewrite List.Forall_forall in *. intros k Hk.
  apply in_map_iff in Hk as (y & <- & Hy).
  destruct (ltb (key x) (key y)) eqn:Hlt; [reflexivity|exfalso].
  apply Hx. rewrite (ltb_total _ _ Hlt (Hall y Hy)).
  apply elem_of_map_2, list_elem_of_In, Hy.
Qed.
End sorted_facts.

(** ** The two passes of [normalize_region_stats] *)

Lemma region_key_merge (e x : loc) (h : heap) (y : loc) :
  region_key (merge_region e x h) y = region_key h y.
Proof. apply same_identity_region_key, same_identity_merge_region. Qed.

Lemma code_of_merge (e x : loc) (h : heap) (y : loc) :
  code_of (merge_surface e x h) y = code_of h y.
Proof. reflexivity. Qed.

(** The first pass keeps the first region of every key and respects
    identities. *)
Lemma group_regions_spec (rs : list loc) (h : heap) :
  exists h1,
    group_regions rs [] h =
      (keyed (region_key h) (first_occurrences (region_key h) [] rs), h1) /\
    same_identity h h1.
Proof.
  destruct (group_loop_inv region_key merge_region region_key_merge h rs
              (fun _ cur => same_identity h cur)) as (h1 & Hrun & HI & _).
  - apply same_identity_refl.
  - intros; assumption.
  - intros pre x post e cur _ HI _ _ _.
    eapply same_identity_trans; [exact HI | apply same_identity_merge_region].
  - exists h1. rewrite group_regions_loop. auto.
Qed.

(** The inner loop of the second pass only writes impression ranges. *)
Lemma merge_surfaces_spec (l : list loc) (h : heap) :
  exists h1,
    merge_surfaces l [] h =
      (keyed (code_of h) (first_occurrences (code_of h) [] l), h1) /\
    regs h1 = regs h /\ surfs h1 = surfs h /\ next h1 = next h.
Proof.
  destruct (group_loop_inv code_of merge_surface code_of_merge h l
              (fun _ cur => regs cur = regs h /\ surfs cur = surfs h /\ next cur = next h))
    as (h1 & Hrun & HI & _).
  - auto.
  - intros; assumption.
  - intros pre x post e cur _ HI _ _ _. exact HI.
  - exists h1. rewrite merge_surfaces_loop. auto.
Qed.

Lemma regs_set_surfaces (r : loc) (l : list loc) (h : heap) (x : loc) :
  regs (set_surface_serving_stats r l h) x =
    if decide (x = r) then with_surfaces (regs h r) l else regs h x.
Proof.
  unfold set_surface_serving_stats, set_reg, with_surfaces; cbn [regs].
  destruct (decide (x = r)) as [->|Hne].
  - apply fn_lookup_insert.
  - apply fn_lookup_insert_ne. congruence.
Qed.

Lemma first_occurrences_ext {A K} `{EqDecision K} (f g : A -> K) (seen : list K) (l : list A) :
  (forall x, f x = g x) -> first_occurrences f seen l = first_occurrences g seen l.
Proof.
  intros Hfg. revert seen. induction l as [|x l IH]; intros seen; simpl; [reflexivity|].
  rewrite Hfg. destruct (decide (g x ∈ seen)); [apply IH | f_equal; apply IH].
Qed.

(** The second pass: every region of the list gets the first surface of
    every code, the other regions are left alone. *)
Lemma merge_region_surfaces_spec (cs : list loc) :
  forall h, NoDup cs ->
    same_identity h (merge_region_surfaces cs h) /\
    forall x, regs (merge_region_surfaces cs h) x =
      if decide (x ∈ cs) then with_surfaces (regs h x) (merged_surfaces h x) else regs h x.
Proof.
  induction cs as [|c cs IH]; intros h Hnd.
  - split; [apply same_identity_refl|]. intros x. simpl.
    destruct (decide (x ∈ [])) as [Hin|_]; [inversion Hin | reflexivity].
  - apply NoDup_cons in Hnd as [Hc Hnd]. cbn [merge_region_surfaces].
    destruct (merge_surfaces_spec (surface_serving_stats (regs h c)) h)
      as (h1 & Hrun & Hregs & Hsurfs & Hnext).
    rewrite Hrun, od_values_keyed.
    set (h2 := set_surface_serving_stats c _ h1).
    assert (Hid : same_identity h h2).
    { apply same_identity_trans with h1; [|apply same_identity_set_surfaces].
      split; [assumption|]. split; [assumption|]. rewrite Hregs. auto. }
    destruct (IH h2 Hnd) as [Hid2 Hregs2]. split.
    + eapply same_identity_trans; eassumption.
    + assert (Hx2 : forall x, x <> c -> regs h2 x = regs h x).
      { intros x Hne. unfold h2. rewrite regs_set_surfaces, Hregs.
        destruct (decide (x = c)); [contradiction | reflexivity]. }
      assert (Hc2 : regs h2 c = with_surfaces (regs h c) (merged_surfaces h c)).
      { unfold h2. rewrite regs_set_surfaces, Hregs.
        destruct (decide (c = c)); [reflexivity | contradiction]. }
      assert (Hm : forall x, x <> c -> merged_surfaces h2 x = merged_surfaces h x).
      { intros x Hne. unfold merged_surfaces, surfaces_of. rewrite (Hx2 x Hne).
        apply first_occurrences_ext. intros s0.
        apply (same_identity_code_of h h2 s0 Hid). }
      intros x. rewrite Hregs2.
      destruct (decide (x = c)) as [->|Hne].
      * destruct (decide (c ∈ cs)) as [?|_]; [contradiction|].
        destruct (decide (c ∈ c :: cs)) as [_|Hn]; [exact Hc2|].
        destruct Hn. apply elem_of_cons; auto.
      * rewrite (Hx2 x Hne), (Hm x Hne).
        destruct (decide (x ∈ cs)) as [Hin|Hnin];
          destruct (decide (x ∈ c :: cs)) as [Hin'|Hnin']; try reflexivity.
        -- destruct Hnin'. apply elem_of_cons; auto.
        -- apply elem_of_cons in Hin' as [?|?]; contradiction.
Qed.

(** The second pass changes no object when no region lists a code twice. *)
Lemma merge_region_surfaces_id (cs : list loc) :
  forall h,
    Forall (fun c => NoDup (map (code_of h) (surfaces_of h c))) cs ->
    heap_eq (merge_region_surfaces cs h) h.
Proof.
  induction cs as [|c cs IH]; intros h Hall.
  - repeat split.
  - apply Forall_cons in Hall as [Hc Hall]. cbn [merge_region_surfaces].
    rewrite merge_surfaces_loop, (group_loop_NoDup code_of merge_surface code_of_merge) by exact Hc.
    rewrite od_values_keyed.
    set (h2 := set_surface_serving_stats c _ h).
    assert (Heq : heap_eq h2 h).
    { split; [reflexivity|]. split; [reflexivity|]. split; [|reflexivity].
      intros x. unfold h2. rewrite regs_set_surfaces.
      destruct (decide (x = c)) as [->|_]; [|reflexivity].
      unfold with_surfaces. destruct (regs h c); reflexivity. }
    assert (Hall2 : Forall (fun c => NoDup (map (code_of h2) (surfaces_of h2 c))) cs).
    { eapply Forall_impl; [exact Hall|]. intros x Hx. simpl in Hx.
      destruct Heq as (_ & _ & Hr & _). unfold surfaces_of. rewrite Hr. exact Hx. }
    specialize (IH h2 Hall2).
    destruct IH as (H1 & H2 & H3 & H4), Heq as (H1' & H2' & H3' & H4').
    repeat split; intros; congruence.
Qed.

(** ** [normalize_region_stats]: shape of the result *)

Lemma sorted_by_ext {A K} (ltb : K -> K -> bool) (f g : A -> K) (l : list A) :
  (forall x, f x = g x) -> sorted_by ltb f l = sorted_by ltb g l.
Proof.
  intros Hfg. induction l as [|x l IH]; simpl; [reflexivity|]. rewrite IH.
  generalize (sorted_by ltb g l). intros l'.
  induction l' as [|y l' IH']; simpl; [reflexivity|].
  rewrite !Hfg, IH'. reflexivity.
Qed.

Lemma map_ext_eq {A B} (f g : A -> B) (l : list A) :
  (forall x, f x = g x) -> map f l = map g l.
Proof. intros H. apply map_ext. exact H. Qed.

(** The result of [normalize_region_stats], pass by pass. *)
Lemma normalize_spec (rs : list loc) (h : heap) :
  let cs := first_occurrences (region_key h) [] rs in
  exists h1 h2,
    group_regions rs [] h = (keyed (region_key h) cs, h1) /\
    same_identity h h1 /\
    h2 = merge_region_surfaces cs h1 /\
    same_identity h1 h2 /\
    (forall x, regs h2 x =
       if decide (x ∈ cs) then with_surfaces (regs h1 x) (merged_surfaces h1 x)
       else regs h1 x) /\
    normalize_region_stats rs h = (sorted_by pair_ltb (region_key h) cs, h2).
Proof.
  intros cs. destruct (group_regions_spec rs h) as (h1 & Hrun & Hid1).
  assert (Hnd : NoDup cs).
  { apply (NoDup_map_NoDup (region_key h)), first_occurrences_NoDup. }
  destruct (merge_region_surfaces_spec cs h1 Hnd) as [Hid2 Hregs].
  exists h1, (merge_region_surfaces cs h1).
  repeat (split; [solve [auto]|]).
  unfold normalize_region_stats. rewrite Hrun, od_values_keyed. fold cs.
  f_equal. apply sorted_by_ext. intros x.
  apply same_identity_region_key. eapply same_identity_trans; eassumption.
Qed.

(** No key occurs twice in the result. *)
Lemma normalize_keys_NoDup (rs : list loc) (h : heap) :
  NoDup (map (region_key (normalize_region_stats rs h).2) (normalize_region_stats rs h).1).
Proof.
  destruct (normalize_spec rs h) as (h1 & h2 & _ & Hid1 & _ & Hid2 & _ & ->). simpl.
  rewrite (map_ext_eq (region_key h2) (region_key h)).
  - rewrite (Permutation_map _ (sorted_by_Permutation _ _ _)).
    apply first_occurrences_NoDup.
  - intros x. apply same_identity_region_key. eapply same_identity_trans; eassumption.
Qed.

(** No region of the result lists a surface code twice. *)
Lemma normalize_codes_NoDup (rs : list loc) (h : heap) :
  Forall (fun c => NoDup (map (code_of (normalize_region_stats rs h).2)
                            (surfaces_of (normalize_region_stats rs h).2 c)))
    (normalize_region_stats rs h).1.
Proof.
  destruct (normalize_spec rs h) as (h1 & h2 & _ & _ & _ & Hid2 & Hregs & ->). simpl.
  apply Forall_forall. intros c Hc.
  rewrite (sorted_by_Permutation pair_ltb (region_key h) _) in Hc.
  unfold surfaces_of. rewrite Hregs.
  destruct (decide _) as [_|?]; [|contradiction].
  cbn [with_surfaces surface_serving_stats]. unfold merged_surfaces.
  rewrite (map_ext_eq (code_of h2) (code_of h1))
    by (intros s; apply same_identity_code_of, Hid2).
  apply first_occurrences_NoDup.
Qed.

(** The result is in order for the key it was sorted by. *)
Lemma normalize_Sorted (rs : list loc) (h : heap) :
  Sorted (not_after pair_ltb (region_key (normalize_region_stats rs h).2))
    (normalize_region_stats rs h).1.
Proof.
  destruct (normalize_spec rs h) as (h1 & h2 & _ & Hid1 & _ & Hid2 & _ & ->). simpl.
  rewrite (sorted_by_ext pair_ltb (region_key h) (region_key h2)).
  - apply sorted_by_Sorted; [exact pair_ltb_trans | exact pair_ltb_irrefl].
  - intros x. symmetry. apply same_identity_region_key.
    eapply same_identity_trans; eassumption.
Qed.

(** C6: the regions [normalize_region_stats] returns are in strictly
    increasing order of [(region_code, region_name)], so no key occurs
    twice; no returned region lists a surface code twice; an empty input
    gives an empty output and leaves the store alone. *)
Theorem C6_normalized_invariant (rs : list loc) (h : heap) :
  let '(out, h') := normalize_region_stats rs h in
  StronglySorted (fun a b => pair_ltb a b = true) (map (region_key h') out) /\
  NoDup (map (region_key h') out) /\
  Forall (fun c => NoDup (map (code_of h') (surfaces_of h' c))) out /\
  normalize_region_stats [] h = ([], h).
Proof.
  pose proof (normalize_keys_NoDup rs h) as Hkeys.
  pose proof (normalize_codes_NoDup rs h) as Hcodes.
  destruct (normalize_spec rs h) as (h1 & h2 & _ & Hid1 & _ & Hid2 & _ & Hn).
  rewrite Hn in *. simpl in Hkeys, Hcodes.
  split; [|split; [exact Hkeys | split; [exact Hcodes | reflexivity]]].
  assert (Hkey : forall x, region_key h2 x = region_key h x).
  { intros x. apply same_identity_region_key. eapply same_identity_trans; eassumption. }
  rewrite (map_ext_eq _ _ _ Hkey).
  apply sorted_by_strict;
    [exact pair_ltb_trans | exact pair_ltb_irrefl | exact pair_ltb_total |].
  apply first_occurrences_NoDup.
Qed.

(** Nothing to merge: the regions are returned in order and every object
    keeps its state. *)
Lemma normalize_no_duplicates (rs : list loc) (h : heap) :
  NoDup (map (region_key h) rs) ->
  Forall (fun r => NoDup (map (code_of h) (surfaces_of h r))) rs ->
  exists h', normalize_region_stats rs h = (sorted_by pair_ltb (region_key h) rs, h') /\
             heap_eq h' h.
Proof.
  intros Hk Hs. unfold normalize_region_stats.
  rewrite group_regions_loop, (group_loop_NoDup region_key merge_region region_key_merge) by exact Hk.
  rewrite od_values_keyed.
  pose proof (merge_region_surfaces_id rs h Hs) as Heq.
  eexists. split; [|exact Heq]. f_equal.
  apply sorted_by_ext. intros x. unfold region_key.
  destruct Heq as (_ & _ & Hr & _). rewrite Hr. reflexivity.
Qed.

(** C7: a second run of [normalize_region_stats] on the result of a first
    run returns the same list and leaves every object in the state the first
    run gave it. *)
Theorem C7_normalize_idempotent (rs : list loc) (h : heap) :
  let '(out, h1) := normalize_region_stats rs h in
  let '(out', h2) := normalize_region_stats out h1 in
  out' = out /\ heap_eq h2 h1.
Proof.
  pose proof (normalize_keys_NoDup rs h) as Hnd.
  pose proof (normalize_codes_NoDup rs h) as Hcodes.
  pose proof (normalize_Sorted rs h) as Hsorted.
  destruct (normalize_region_stats rs h) as [out h1]. simpl in Hnd, Hcodes, Hsorted.
  destruct (normalize_no_duplicates out h1 Hnd Hcodes) as (h2 & Hrun & Heq).
  rewrite Hrun. split; [|exact Heq].
  apply sorted_by_id, Hsorted.
Qed.

(** ** [AdRecord.to_flat_dicts] *)

Lemma extends_refl (h : heap) : extends h h.
Proof. split; [lia | auto]. Qed.

Lemma extends_trans (h1 h2 h3 : heap) : extends h1 h2 -> extends h2 h3 -> extends h1 h3.
Proof.
  intros [Hn1 H1] [Hn2 H2]. split; [lia|]. intros l Hl.
  destruct (H1 l Hl) as (? & ? & ?), (H2 l ltac:(lia)) as (? & ? & ?).
  repeat split; congruence.
Qed.

Lemma extends_new_imp (v : ImpressionRange) (h : heap) : extends h (new_imp v h).2.
Proof.
  split; [simpl; lia|]. intros l Hl. simpl.
  rewrite fn_lookup_insert_ne by lia. auto.
Qed.

Lemma extends_new_surf (v : SurfaceServingStat) (h : heap) : extends h (new_surf v h).2.
Proof.
  split; [simpl; lia|]. intros l Hl. simpl.
  rewrite fn_lookup_insert_ne by lia. auto.
Qed.

Lemma extends_new_reg (v : RegionStat) (h : heap) : extends h (new_reg v h).2.
Proof.
  split; [simpl; lia|]. intros l Hl. simpl.
  rewrite fn_lookup_insert_ne by lia. auto.
Qed.

Lemma surfaces_or_default_extends (h : heap) (r : loc) :
  extends h (surfaces_or_default h r).2 /\ regs (surfaces_or_default h r).2 = regs h.
Proof.
  unfold surfaces_or_default. destruct (surface_serving_stats (regs h r)).
  - split; [|reflexivity].
    eapply extends_trans; [apply extends_new_imp | apply extends_new_surf].
  - split; [apply extends_refl | reflexivity].
Qed.

Lemma surfaces_or_default_length (h : heap) (r : loc) :
  length (surfaces_or_default h r).1 = Nat.max 1 (length (surfaces_of h r)).
Proof.
  unfold surfaces_or_default, surfaces_of.
  destruct (surface_serving_stats (regs h r)); reflexivity.
Qed.

Lemma for_variations_app (base rd sd td : row) (vs : list AdVariation) (rows : list row) :
  for_variations base rd sd td vs rows =
    rows ++ map (fun v => make_row base rd sd td (variation_dict v)) vs.
Proof.
  unfold for_variations. revert rows.
  induction vs as [|v vs IH]; intros rows; simpl; [symmetry; apply app_nil_r|].
  rewrite IH, <- app_assoc. reflexivity.
Qed.

Lemma for_surfaces_app (h : heap) (base rd td : row) (vs : list AdVariation)
    (ss : list loc) (rows : list row) :
  for_surfaces h base rd td vs ss rows =
    rows ++ concat (map (fun s => map (fun v => make_row base rd (surface_dict h s) td
                                                 (variation_dict v)) vs) ss).
Proof.
  unfold for_surfaces. revert rows.
  induction ss as [|s ss IH]; intros rows; simpl; [symmetry; apply app_nil_r|].
  rewrite IH, for_variations_app, <- app_assoc. reflexivity.
Qed.

Lemma for_surfaces_length (h : heap) (base rd td : row) (vs : list AdVariation)
    (ss : list loc) (rows : list row) :
  length (for_surfaces h base rd td vs ss rows) = (length rows + length ss * length vs)%nat.
Proof.
  rewrite for_surfaces_app, length_app. f_equal.
  induction ss as [|s ss IH]; simpl; [reflexivity|].
  rewrite length_app, length_map, IH. reflexivity.
Qed.

Lemma for_regions_length (base td : row) (vs : list AdVariation) (regions : list loc) :
  forall rows h,
    length (for_regions base td vs regions rows h).1 =
      (length rows + sum_list (map (rows_of_region h (length vs)) regions))%nat.
Proof.
  induction regions as [|r regions IH]; intros rows h; simpl; [lia|].
  destruct (surfaces_or_default h r) as [ss h1] eqn:Hs.
  pose proof (surfaces_or_default_length h r) as Hlen.
  pose proof (surfaces_or_default_extends h r) as [_ Hregs].
  rewrite Hs in Hlen, Hregs. simpl in Hlen, Hregs.
  rewrite IH, for_surfaces_length, Hlen.
  unfold rows_of_region at 2.
  assert (Hsame : map (rows_of_region h1 (length vs)) regions =
                  map (rows_of_region h (length vs)) regions).
  { apply map_ext. intros x. unfold rows_of_region, surfaces_of. rewrite Hregs. reflexivity. }
  rewrite Hsame. lia.
Qed.

Lemma variations_or_default_length (self : AdRecord) :
  length (variations_or_default self) = Nat.max 1 (length (variations self)).
Proof. unfold variations_or_default. destruct (variations self); reflexivity. Qed.

(** C1: [to_flat_dicts] returns exactly the number of rows the row count
    law gives; a record without regions (hence without surfaces) and without
    variations gives exactly one row. *)
Theorem C1_row_count :
  (forall (self : AdRecord) (h : heap),
     length (to_flat_dicts self h).1 = row_count self h) /\
  (forall a b c d e f g p s tg (h : heap),
     length (to_flat_dicts (mkAdRecord a b c d e f g p s [] tg []) h).1 = 1%nat).
Proof.
  assert (Hcount : forall self h, length (to_flat_dicts self h).1 = row_count self h).
  { intros self h. unfold to_flat_dicts, row_count, regions_or_default.
    destruct (region_stats self) as [|r rs] eqn:Hrs.
    - unfold new_imp, new_reg. cbv beta iota zeta.
      rewrite for_regions_length, variations_or_default_length.
      unfold rows_of_region, surfaces_of. cbn [map regs sum_list sum_list_with length].
      rewrite fn_lookup_insert. cbn [surface_serving_stats length]. unfold id.
      change (Nat.max 1 0) with 1%nat. lia.
    - rewrite for_regions_length, variations_or_default_length. reflexivity. }
  split; [exact Hcount|]. intros. rewrite Hcount. reflexivity.
Qed.

Lemma for_regions_extends (base td : row) (vs : list AdVariation) (regions : list loc) :
  forall rows h,
    extends h (for_regions base td vs regions rows h).2 /\
    regs (for_regions base td vs regions rows h).2 = regs h.
Proof.
  induction regions as [|r regions IH]; intros rows h; simpl.
  - split; [apply extends_refl | reflexivity].
  - destruct (surfaces_or_default h r) as [ss h1] eqn:Hs.
    pose proof (surfaces_or_default_extends h r) as [Hext Hregs].
    rewrite Hs in Hext, Hregs. simpl in Hext, Hregs.
    destruct (IH (for_surfaces h1 base (region_dict h r) td vs ss rows) h1) as [Hext' Hregs'].
    split; [eapply extends_trans; eassumption | congruence].
Qed.

Lemma to_flat_dicts_extends (self : AdRecord) (h : heap) :
  extends h (to_flat_dicts self h).2.
Proof.
  unfold to_flat_dicts, regions_or_default.
  destruct (region_stats self) as [|r rs].
  - cbv beta iota zeta.
    eapply extends_trans; [apply extends_new_imp|].
    eapply extends_trans; [apply extends_new_reg|].
    apply for_regions_extends.
  - apply for_regions_extends.
Qed.

(** Every row comes from a region of the list, one of its surfaces (or the
    placeholder) and a variation. *)
Lemma for_regions_rows (base td : row) (vs : list AdVariation) (regions : list loc) :
  forall rows h (x : row),
    x ∈ (for_regions base td vs regions rows h).1 ->
    x ∈ rows \/
    exists r h' s v,
      r ∈ regions /\ regs h' = regs h /\ extends h h' /\
      s ∈ (surfaces_or_default h' r).1 /\ v ∈ vs /\
      x = make_row base (region_dict h' r)
            (surface_dict (surfaces_or_default h' r).2 s) td (variation_dict v).
Proof.
  induction regions as [|r regions IH]; intros rows h x; simpl; [auto|].
  destruct (surfaces_or_default h r) as [ss h1] eqn:Hs.
  pose proof (surfaces_or_default_extends h r) as [Hext Hregs].
  rewrite Hs in Hext, Hregs. simpl in Hext, Hregs.
  intros Hx. apply IH in Hx as [Hx | (r' & h' & s & v & Hr & Hregs' & Hext' & Hsin & Hv & ->)].
  - rewrite for_surfaces_app in Hx. apply elem_of_app in Hx as [Hx|Hx]; [auto|].
    right. apply list_elem_of_In, in_concat in Hx as (l & Hl & Hx).
    apply in_map_iff in Hl as (s & <- & Hsin).
    apply in_map_iff in Hx as (v & <- & Hv).
    exists r, h, s, v. rewrite Hs. simpl.
    split_and!; try (apply list_elem_of_In; assumption); try reflexivity.
    + apply elem_of_cons; auto.
    + apply extends_refl.
  - right. exists r', h', s, v.
    split_and!; try assumption; try reflexivity.
    + apply elem_of_cons; auto.
    + congruence.
    + eapply extends_trans; eassumption.
Qed.

Lemma make_row_keys (self : AdRecord) (h h' : heap) (r s : loc) (v : AdVariation) :
  od_keys (make_row (base_dict self) (region_dict h r) (surface_dict h' s)
             (targeting_dict self) (variation_dict v)) =
    metadata_keys ++ region_keys ++ surface_keys ++ od_keys (targeting_dict self) ++ variation_keys.
Proof. unfold targeting_dict. destruct (targeting self); reflexivity. Qed.

Lemma make_row_region (self : AdRecord) (h h' : heap) (r s : loc) (v : AdVariation) :
  let x := make_row (base_dict self) (region_dict h r) (surface_dict h' s)
             (targeting_dict self) (variation_dict v) in
  let o := regs h r in
  od_get "regionCode" x = Some (PStr (region_code o)) /\
  od_get "regionName" x = Some (PStr (region_name o)) /\
  od_get "regionFirstShown" x = Some (PStr (first_shown o)) /\
  od_get "regionLastShown" x = Some (PStr (last_shown o)) /\
  od_get "regionImpressionsLower" x = Some (PInt (lower_bound (imps h (impressions o)))) /\
  od_get "regionImpressionsUpper" x = Some (PInt (upper_bound (imps h (impressions o)))).
Proof. unfold targeting_dict. destruct (targeting self); repeat split. Qed.

Lemma make_row_surface (self : AdRecord) (h h' : heap) (r s : loc) (v : AdVariation) :
  let x := make_row (base_dict self) (region_dict h r) (surface_dict h' s)
             (targeting_dict self) (variation_dict v) in
  let o := surfs h' s in
  od_get "surfaceCode" x = Some (PStr (surface_code o)) /\
  od_get "surfaceName" x = Some (PStr (surface_name o)) /\
  od_get "surfaceImpressionsLower" x = Some (PInt (lower_bound (imps h' (s_impressions o)))) /\
  od_get "surfaceImpressionsUpper" x = Some (PInt (upper_bound (imps h' (s_impressions o)))).
Proof. unfold targeting_dict. destruct (targeting self); repeat split. Qed.

Lemma make_row_variation (self : AdRecord) (h h' : heap) (r s : loc) (v : AdVariation) :
  let x := make_row (base_dict self) (region_dict h r) (surface_dict h' s)
             (targeting_dict self) (variation_dict v) in
  od_get "variationClickUrl" x = Some (click_url v) /\
  od_get "variationCta" x = Some (cta v) /\
  od_get "variationDescription" x = Some (description v) /\
  od_get "variationImageUrl" x = Some (image_url v).
Proof. unfold targeting_dict. destruct (targeting self); repeat split. Qed.

Lemma make_row_metadata (self : AdRecord) (h h' : heap) (r s : loc) (v : AdVariation) :
  Forall (fun k =>
      od_get k (make_row (base_dict self) (region_dict h r) (surface_dict h' s)
                  (targeting_dict self) (variation_dict v)) =
      od_get k (base_dict self)) metadata_keys.
Proof. unfold targeting_dict. destruct (targeting self); repeat constructor. Qed.

Lemma make_row_targeting (self : AdRecord) (h h' : heap) (r s : loc) (v : AdVariation)
    (t : TargetingInfo) :
  targeting self = Some t ->
  targeting_summary t
    (make_row (base_dict self) (region_dict h r) (surface_dict h' s)
       (targeting_dict self) (variation_dict v)).
Proof. intros Ht. unfold targeting_summary, targeting_dict. rewrite Ht. repeat split. Qed.

(** The placeholder surface of a region without surfaces. *)
Lemma surfaces_or_default_blank (h : heap) (r s : loc) :
  surfaces_of h r = [] ->
  s ∈ (surfaces_or_default h r).1 ->
  let h' := (surfaces_or_default h r).2 in
  surfs h' s = mkSurfaceServingStat "" "" (next h) /\
  imps h' (next h) = mkImpressionRange 0 0.
Proof.
  unfold surfaces_of, surfaces_or_default. intros ->. simpl.
  intros Hs. apply list_elem_of_singleton in Hs as ->.
  rewrite !fn_lookup_insert. auto.
Qed.

(** The rows of a record, with the regions already chosen. *)
Lemma to_flat_dicts_rows (self : AdRecord) (h : heap) (x : row) :
  x ∈ (to_flat_dicts self h).1 ->
  exists r h' s v,
    r ∈ (regions_or_default self h).1 /\
    regs h' = regs (regions_or_default self h).2 /\
    extends (regions_or_default self h).2 h' /\
    s ∈ (surfaces_or_default h' r).1 /\ v ∈ variations_or_default self /\
    x = make_row (base_dict self) (region_dict h' r)
          (surface_dict (surfaces_or_default h' r).2 s) (targeting_dict self)
          (variation_dict v).
Proof.
  unfold to_flat_dicts. destruct (regions_or_default self h) as [regions h1].
  intros Hx. apply for_regions_rows in Hx as [Hx|Hx]; [inversion Hx | exact Hx].
Qed.

(** C2 (as the code has it): every row has exactly the ad metadata keys,
    the region keys, the surface keys and the variation keys, in this
    order, with the four targeting keys between the surface and the
    variation keys when the record has a [TargetingInfo] and without them
    when it has none; the metadata fields are the fields of the record and
    the targeting fields the sorted, comma-joined active codes.  Without
    regions the region and the surface fields are the empty string and 0.
    With regions the row belongs to one of them: its region fields are the
    fields of that region; when that region has no surfaces its surface
    fields are the empty string and 0, and otherwise they are the fields of
    one of the surfaces of that region.  Without variations the variation
    fields are [None], and otherwise they are the fields of one of the
    variations.  (An impression range, or a surface, is read as it is in
    the store [h] when it is an object of [h].) *)
Theorem C2_row_keys (self : AdRecord) (h : heap) :
  Forall (fun x : row =>
      od_keys x = match targeting self with
                  | Some _ => full_key_set
                  | None => plain_key_set
                  end /\
      Forall (fun k => od_get k x = od_get k (base_dict self)) metadata_keys /\
      (forall t, targeting self = Some t -> targeting_summary t x) /\
      (region_stats self = [] -> region_blank x /\ surface_blank x) /\
      (region_stats self <> [] ->
       exists r, r ∈ region_stats self /\
         region_text h r x /\
         ((imp_of h r < next h)%nat -> region_impressions h r x) /\
         (surfaces_of h r = [] -> surface_blank x) /\
         (surfaces_of h r <> [] ->
          exists s, s ∈ surfaces_of h r /\
            ((s < next h)%nat ->
             surface_text h s x /\
             ((simp_of h s < next h)%nat -> surface_impressions h s x)))) /\
      (Forall (fun r => surfaces_of h r = []) (region_stats self) -> surface_blank x) /\
      (variations self = [] -> variation_none x) /\
      (variations self <> [] -> exists v, v ∈ variations self /\ variation_fields v x))
    (to_flat_dicts self h).1.
Proof.
  apply Forall_forall. intros x Hx.
  apply to_flat_dicts_rows in Hx as (r & h' & s & v & Hr & Hregs & Hext & Hs & Hv & ->).
  assert (Hblank_region : region_stats self = [] ->
            region_blank (make_row (base_dict self) (region_dict h' r)
                            (surface_dict (surfaces_or_default h' r).2 s)
                            (targeting_dict self) (variation_dict v))).
  { intros Hnil. unfold regions_or_default in Hr, Hregs, Hext. rewrite Hnil in Hr, Hregs, Hext.
    cbn in Hr, Hregs, Hext. apply list_elem_of_singleton in Hr as ->.
    destruct Hext as [_ Hext]. destruct (Hext (next h) ltac:(simpl; lia)) as (Himp & _ & _).
    cbn in Himp. rewrite fn_lookup_insert in Himp.
    pose proof (make_row_region self h' (surfaces_or_default h' (S (next h))).2
                  (S (next h)) s v) as Hrow.
    cbv zeta in Hrow. rewrite Hregs, fn_lookup_insert in Hrow. cbn in Hrow.
    rewrite Himp in Hrow. exact Hrow. }
  assert (Hblank_surface : surfaces_of h' r = [] ->
            surface_blank (make_row (base_dict self) (region_dict h' r)
                             (surface_dict (surfaces_or_default h' r).2 s)
                             (targeting_dict self) (variation_dict v))).
  { intros Hnone. destruct (surfaces_or_default_blank h' r s Hnone Hs) as [Hsurf Himp].
    pose proof (make_row_surface self h' (surfaces_or_default h' r).2 r s v) as Hrow.
    cbv zeta in Hrow. rewrite Hsurf in Hrow. cbn in Hrow. rewrite Himp in Hrow. exact Hrow. }
  assert (Hplaceholder : region_stats self = [] -> surfaces_of h' r = []).
  { intros Hnil. unfold surfaces_of. rewrite Hregs. unfold regions_or_default in *.
    rewrite Hnil in *. cbn in Hr |- *. apply list_elem_of_singleton in Hr as ->.
    rewrite fn_lookup_insert. reflexivity. }
  split; [|split; [|split; [|split; [|split; [|split; [|split]]]]]].
  - rewrite make_row_keys. unfold targeting_dict. destruct (targeting self); reflexivity.
  - apply make_row_metadata.
  - intros t Ht. apply make_row_targeting, Ht.
  - intros Hnil. split; [apply Hblank_region, Hnil | apply Hblank_surface, Hplaceholder, Hnil].
  - intros Hne. unfold regions_or_default in Hr, Hregs, Hext.
    destruct (region_stats self) as [|r0 rs] eqn:Hrs; [contradiction|].
    cbn [fst snd] in Hr, Hregs, Hext. exists r. split; [exact Hr|].
    destruct Hext as [_ Hobj].
    pose proof (make_row_region self h' (surfaces_or_default h' r).2 r s v) as Hrow.
    cbv zeta in Hrow. rewrite Hregs in Hrow.
    destruct Hrow as (H1 & H2 & H3 & H4 & H5 & H6).
    split; [repeat split; assumption|]. split; [|split].
    + intros Hlt. destruct (Hobj _ Hlt) as (Himp & _ & _).
      unfold region_impressions, imp_of in *. rewrite <- Himp. split; assumption.
    + intros Hnone. apply Hblank_surface. unfold surfaces_of in *. rewrite Hregs. exact Hnone.
    + intros Hsome.
      assert (Hlist : surfaces_or_default h' r = (surfaces_of h r, h')).
      { unfold surfaces_or_default, surfaces_of in *. rewrite Hregs.
        destruct (surface_serving_stats (regs h r)); [contradiction | reflexivity]. }
      rewrite Hlist in Hs |- *. cbn [fst snd] in Hs |- *.
      exists s. split; [exact Hs|]. intros Hlt.
      destruct (Hobj _ Hlt) as (_ & Hsurf & _).
      pose proof (make_row_surface self h' h' r s v) as Hsrow.
      cbv zeta in Hsrow. rewrite Hsurf in Hsrow.
      destruct Hsrow as (S1 & S2 & S3 & S4).
      split; [split; assumption|]. intros Hlt'.
      destruct (Hobj _ Hlt') as (Himp & _ & _).
      unfold surface_impressions, simp_of in *. rewrite <- Himp. split; assumption.
  - intros Hall. apply Hblank_surface.
    destruct (region_stats self) as [|r0 rs] eqn:Hrs; [apply Hplaceholder; reflexivity|].
    unfold surfaces_of. rewrite Hregs. unfold regions_or_default in *. rewrite Hrs in *.
    cbn in Hr |- *. rewrite Forall_forall in Hall. apply (Hall r Hr).
  - intros Hnil. unfold variations_or_default in Hv. rewrite Hnil in Hv.
    apply list_elem_of_singleton in Hv as ->.
    apply (make_row_variation self h' (surfaces_or_default h' r).2 r s).
  - intros Hne. unfold variations_or_default in Hv.
    destruct (variations self) as [|v0 vs] eqn:Hvs; [contradiction|].
    exists v. split; [exact Hv|].
    apply (make_row_variation self h' (surfaces_or_default h' r).2 r s).
Qed.

Lemma C2_row_keys_witness :
  Forall (fun x : row =>
      od_keys x = plain_key_set /\ variation_none x /\
      exists r, r ∈ [1%nat; 2%nat] /\
        region_text example_heap r x /\ region_impressions example_heap r x /\
        (r = 2%nat -> surface_blank x) /\
        (r = 1%nat ->
         exists s, s ∈ [1%nat; 2%nat] /\
           surface_text example_heap s x /\ surface_impressions example_heap s x))
    (to_flat_dicts mixed_ad example_heap).1.
Proof.
  eapply Forall_impl; [apply (C2_row_keys mixed_ad example_heap)|].
  intros x (Hk & _ & _ & _ & Hr & _ & Hv & _).
  split; [exact Hk|]. split; [apply Hv; reflexivity|].
  destruct (Hr ltac:(discriminate)) as (r & Hin & Htext & Himp & Hnone & Hsome).
  exists r. split; [exact Hin|]. split; [exact Htext|].
  cbn [region_stats mixed_ad] in Hin.
  apply elem_of_cons in Hin as [->|Hin]; [|apply list_elem_of_singleton in Hin as ->].
  - split; [apply Himp; cbn; lia|]. split; [discriminate|]. intros _.
    destruct (Hsome ltac:(discriminate)) as (s & Hs & Hsurf).
    exists s. split; [exact Hs|]. cbn [surfaces_of example_heap regs surface_serving_stats] in Hs.
    apply elem_of_cons in Hs as [->|Hs]; [|apply list_elem_of_singleton in Hs as ->].
    + destruct (Hsurf ltac:(cbn; lia)) as [Ht Hi]. split; [exact Ht | apply Hi; cbn; lia].
    + destruct (Hsurf ltac:(cbn; lia)) as [Ht Hi]. split; [exact Ht | apply Hi; cbn; lia].
  - split; [apply Himp; cbn; lia|]. split; [|discriminate].
    intros _. apply Hnone. reflexivity.
Defined.

(** C2 as stated fails: the only row of a blank record without targeting
    has none of the four targeting keys, and its variation fields are [None],
    not the empty string or 0. *)
Lemma C2_counterexample :
  exists x : row,
    (to_flat_dicts blank_ad empty_heap).1 = [x] /\
    od_get "targetingDemographicsTrue" x = None /\
    od_get "targetingGeographyTrue" x = None /\
    od_get "targetingContextualTrue" x = None /\
    od_get "targetingAdvertiserListTrue" x = None /\
    od_get "variationCta" x = Some PNone.
Proof. eexists. split; [reflexivity|]. repeat split. Qed.

(** The targeting summary of [targeted_ad]: the active codes, sorted and
    joined. *)
Example targeted_ad_summary :
  Forall (fun x : row => od_get "targetingDemographicsTrue" x = Some (PStr "a,b"))
    (to_flat_dicts targeted_ad empty_heap).1.
Proof. repeat constructor. Qed.

(** The row count example of the specification: two regions, one with two
    surfaces and one with one, and a single variation give three rows. *)
Example row_count_example :
  length (to_flat_dicts
            (mkAdRecord "url" "AR1" "Acme" "CR1" "IMAGE" "" "" PNone PNone
               [1%nat; 0%nat] None [mkAdVariation (PStr "click") PNone PNone PNone])
            example_heap).1 = 3%nat.
Proof. reflexivity. Qed.

(** ** In-place effects *)

Lemma normalize_same_identity (rs : list loc) (h : heap) :
  same_identity h (normalize_region_stats rs h).2.
Proof.
  destruct (normalize_spec rs h) as (h1 & h2 & _ & Hid1 & _ & Hid2 & _ & ->).
  simpl. eapply same_identity_trans; eassumption.
Qed.

(** ** Sums of impression ranges *)

Lemma range_add_zero (v : ImpressionRange) : range_add (mkImpressionRange 0 0) v = v.
Proof. destruct v. reflexivity. Qed.

Lemma range_sum_snoc (l : list ImpressionRange) (v : ImpressionRange) :
  range_sum (l ++ [v]) = range_add (range_sum l) v.
Proof. unfold range_sum. rewrite fold_left_app. reflexivity. Qed.

Lemma range_sum_singleton (v : ImpressionRange) : range_sum [v] = v.
Proof. apply range_add_zero. Qed.

Section keyed_more.
Context {A K : Type} `{EqDecision K} (key : A -> K).

Lemma first_occurrences_snoc_hit (l : list A) (x : A) :
  key x ∈ map key l ->
  first_occurrences key [] (l ++ [x]) = first_occurrences key [] l.
Proof.
  intros Hin. rewrite first_occurrences_snoc. cbn [app].
  destruct (decide _); [apply app_nil_r | contradiction].
Qed.

Lemma first_occurrences_snoc_miss (l : list A) (x : A) :
  key x ∉ map key l ->
  first_occurrences key [] (l ++ [x]) = first_occurrences key [] l ++ [x].
Proof.
  intros Hin. rewrite first_occurrences_snoc. cbn [app].
  destruct (decide _); [contradiction | reflexivity].
Qed.

Lemma first_occurrences_subset (l : list A) (x : A) :
  x ∈ first_occurrences key [] l -> x ∈ l.
Proof. intros Hx. apply elem_of_first_occurrences in Hx. tauto. Qed.

Lemma first_occurrences_inj (l : list A) (x y : A) :
  x ∈ first_occurrences key [] l -> y ∈ first_occurrences key [] l ->
  key x = key y -> x = y.
Proof. apply NoDup_map_inj, first_occurrences_NoDup. Qed.

Lemma members_nil (k : K) (l : list A) : k ∉ map key l -> members key k l = [].
Proof.
  induction l as [|y l IH]; simpl; intros Hn; [reflexivity|].
  apply not_elem_of_cons in Hn as [Hne Hn]. unfold members.
  rewrite filter_cons_False by congruence. apply IH, Hn.
Qed.

Lemma members_snoc_hit (l : list A) (x : A) :
  members key (key x) (l ++ [x]) = members key (key x) l ++ [x].
Proof. rewrite members_snoc. destruct (decide _); [reflexivity | contradiction]. Qed.

Lemma members_snoc_miss (k : K) (l : list A) (x : A) :
  key x <> k -> members key k (l ++ [x]) = members key k l.
Proof.
  intros Hne. rewrite members_snoc. destruct (decide _); [contradiction | apply app_nil_r].
Qed.

(** Every key of the list is the key of a first occurrence. *)
Lemma first_occurrences_covers (l : list A) (x : A) :
  x ∈ l -> exists c, c ∈ first_occurrences key [] l /\ key c = key x.
Proof.
  intros Hx.
  assert (Hk : key x ∈ map key (first_occurrences key [] l)).
  { apply first_occurrences_keys. split; [apply elem_of_map_2, Hx | apply not_elem_of_nil]. }
  apply elem_of_map in Hk as (c & Hkc & Hc). eauto.
Qed.
End keyed_more.

(** A merging loop whose hits add the range [ref x] into the range [ref e]:
    when the ranges of the elements are distinct objects, the range of every
    first occurrence ends up with the sum over the members of its key, and
    the other ranges are unchanged. *)
Section group_loop_sums.
Context {K : Type} `{EqDecision K}.
Variable key : heap -> loc -> K.
Variable merge : loc -> loc -> heap -> heap.
Variable ref : loc -> loc.
Variable P : heap -> Prop.
Hypothesis key_merge : forall e x h y, key (merge e x h) y = key h y.
Hypothesis P_merge : forall e x cur, P cur -> P (merge e x cur).
Hypothesis imps_merge : forall e x cur,
  P cur -> imps (merge e x cur) = imps (add_impressions (ref e) (ref x) cur).

Lemma group_loop_sums (h : heap) (xs : list loc) :
  P h -> NoDup (map ref xs) ->
  exists h',
    group_loop key merge xs [] h = (keyed (key h) (first_occurrences (key h) [] xs), h') /\
    P h' /\
    (forall i, i ∉ map ref (first_occurrences (key h) [] xs) -> imps h' i = imps h i) /\
    (forall c, c ∈ first_occurrences (key h) [] xs ->
       imps h' (ref c) =
         range_sum (map (fun x => imps h (ref x)) (members (key h) (key h c) xs))).
Proof.
  intros HP Hnd.
  destruct (group_loop_inv key merge key_merge h xs
    (fun pre cur =>
       P cur /\
       (forall i, i ∉ map ref (first_occurrences (key h) [] pre) -> imps cur i = imps h i) /\
       (forall c, c ∈ first_occurrences (key h) [] pre ->
          imps cur (ref c) =
            range_sum (map (fun x => imps h (ref x)) (members (key h) (key h c) pre)))))
    as (h' & Hrun & (HP' & Hframe & Hsum) & _).
  - split; [exact HP|]. split; [auto|]. intros c Hc. inversion Hc.
  - (* miss *)
    intros pre x post cur Hxs (HPc & Hfr & Hsm) _ Hmiss.
    rewrite (first_occurrences_snoc_miss _ _ _ Hmiss).
    split; [exact HPc|]. split.
    + intros i Hi. apply Hfr. intros Hin. apply Hi.
      rewrite map_app. apply elem_of_app; auto.
    + intros c Hc. apply elem_of_app in Hc as [Hc|Hc].
      * rewrite members_snoc_miss; [apply Hsm, Hc|].
        intros Heq. apply Hmiss. rewrite Heq.
        apply elem_of_map_2, (first_occurrences_subset (key h)), Hc.
      * apply list_elem_of_singleton in Hc as ->.
        rewrite members_snoc_hit, (members_nil _ _ _ Hmiss). cbn [app map].
        rewrite range_sum_singleton. apply Hfr.
        intros Hin. apply elem_of_map in Hin as (c & Hrc & Hc).
        apply (first_occurrences_subset (key h)) in Hc.
        assert (x = c); [|subst c].
        { apply (NoDup_map_inj ref xs); [exact Hnd | | | exact Hrc]; subst xs.
          - apply elem_of_app; right; apply elem_of_cons; auto.
          - apply elem_of_app; auto. }
        subst xs. rewrite map_app in Hnd. apply NoDup_app in Hnd as (_ & Hd & _).
        apply (Hd (ref x)); [apply elem_of_map_2, Hc | simpl; apply elem_of_cons; auto].
  - (* hit *)
    intros pre x post e cur Hxs (HPc & Hfr & Hsm) _ He Hke.
    assert (Hepre : e ∈ pre) by (eapply first_occurrences_subset; exact He).
    assert (Hhit : key h x ∈ map (key h) pre).
    { rewrite <- Hke. apply elem_of_map_2, Hepre. }
    rewrite (first_occurrences_snoc_hit _ _ _ Hhit).
    assert (Hrx : ref x ∉ map ref pre).
    { subst xs. rewrite map_app in Hnd. apply NoDup_app in Hnd as (_ & Hd & _).
      intros Hin. apply (Hd _ Hin). simpl. apply elem_of_cons; auto. }
    assert (Hx : imps cur (ref x) = imps h (ref x)).
    { apply Hfr. intros Hin. apply Hrx.
      apply elem_of_map in Hin as (c & -> & Hc).
      apply elem_of_map_2, (first_occurrences_subset (key h)), Hc. }
    split; [apply P_merge, HPc|]. split.
    + intros i Hi. rewrite imps_merge by exact HPc.
      rewrite add_impressions_other; [apply Hfr, Hi|].
      intros ->. apply Hi, elem_of_map_2, He.
    + intros c Hc. rewrite imps_merge by exact HPc.
      destruct (decide (c = e)) as [->|Hne].
      * rewrite add_impressions_self, Hx, (Hsm e He), Hke.
        rewrite members_snoc_hit, map_app. cbn [map]. rewrite range_sum_snoc. reflexivity.
      * rewrite add_impressions_other.
        -- rewrite members_snoc_miss; [apply Hsm, Hc|].
           intros Heq. apply Hne.
           apply (first_occurrences_inj (key h) pre); [exact Hc | exact He | congruence].
        -- intros Heq. apply Hne.
           apply (NoDup_map_inj ref xs); [exact Hnd | | | exact Heq]; subst xs;
             apply elem_of_app; left;
             eapply first_occurrences_subset; eassumption.
  - exists h'. auto.
Qed.
End group_loop_sums.

(** ** Widening of the date range *)

Lemma nonempty_false (s : string) : nonempty s = false <-> s = "".
Proof. destruct s; simpl; split; congruence. Qed.

Lemma nonempty_true (s : string) : nonempty s = true <-> s <> "".
Proof. destruct s; simpl; split; congruence. Qed.

Section extreme.
Variable lt : string -> string -> bool.
Hypothesis lt_irrefl : forall a, lt a a = false.
Hypothesis lt_trans : forall a b c, lt a b = true -> lt b c = true -> lt a c = true.

#[local] Abbreviation merge_with := (merge_with lt).

Lemma merge_with_idem (m : string) : merge_with m m = m.
Proof. unfold merge_with. destruct (_ && _); reflexivity. Qed.

Lemma extreme_singleton (v : string) : extreme_nonempty lt [v] v.
Proof.
  destruct (nonempty v) eqn:Hv.
  - right. apply nonempty_true in Hv. split; [exact Hv|]. split.
    + apply list_elem_of_singleton. reflexivity.
    + apply Forall_singleton. right. apply lt_irrefl.
  - left. apply nonempty_false in Hv. split; [exact Hv|]. apply Forall_singleton. exact Hv.
Qed.

Lemma extreme_snoc (vals : list string) (m v : string) :
  extreme_nonempty lt vals m -> extreme_nonempty lt (vals ++ [v]) (merge_with m v).
Proof.
  unfold merge_with. intros [[-> Hall]|(Hm & Hin & Hall)].
  - cbn [nonempty negb orb]. rewrite andb_true_r.
    destruct (nonempty v) eqn:Hv.
    + right. apply nonempty_true in Hv. split; [exact Hv|]. split.
      * apply elem_of_app. right. apply list_elem_of_singleton. reflexivity.
      * apply Forall_app. split.
        -- eapply Forall_impl; [exact Hall|]. intros; auto.
        -- apply Forall_singleton. right. apply lt_irrefl.
    + left. apply nonempty_false in Hv. split; [reflexivity|].
      apply Forall_app. split; [exact Hall | apply Forall_singleton; exact Hv].
  - apply nonempty_true in Hm as Hm'. rewrite Hm'. cbn [negb orb].
    destruct (nonempty v) eqn:Hv; cbn [andb].
    + destruct (lt v m) eqn:Hlt.
      * right. apply nonempty_true in Hv. split; [exact Hv|]. split.
        -- apply elem_of_app. right. apply list_elem_of_singleton. reflexivity.
        -- apply Forall_app. split.
           ++ eapply Forall_impl; [exact Hall|]. intros w [->|Hw]; [auto|]. right.
              destruct (lt w v) eqn:Hwv; [|reflexivity].
              rewrite (lt_trans _ _ _ Hwv Hlt) in Hw. discriminate.
           ++ apply Forall_singleton. right. apply lt_irrefl.
      * right. split; [exact Hm|]. split.
        -- apply elem_of_app. auto.
        -- apply Forall_app. split; [exact Hall|]. apply Forall_singleton. auto.
    + right. apply nonempty_false in Hv. split; [exact Hm|]. split.
      * apply elem_of_app. auto.
      * apply Forall_app. split; [exact Hall|]. apply Forall_singleton. auto.
Qed.

(** An element that is already taken into account changes nothing. *)
Lemma extreme_dup (vals : list string) (m v : string) :
  extreme_nonempty lt vals m -> v ∈ vals -> extreme_nonempty lt (vals ++ [v]) m.
Proof.
  intros [[-> Hall]|(Hm & Hin & Hall)] Hv.
  - left. split; [reflexivity|]. apply Forall_app. split; [exact Hall|].
    apply Forall_singleton. rewrite Forall_forall in Hall. auto.
  - right. split; [exact Hm|]. split; [apply elem_of_app; auto|].
    apply Forall_app. split; [exact Hall|]. apply Forall_singleton.
    rewrite Forall_forall in Hall. auto.
Qed.
End extreme.

Lemma merge_first_with (m v : string) : merge_first m v = merge_with str_ltb m v.
Proof. reflexivity. Qed.

Lemma merge_last_with (m v : string) :
  merge_last m v = merge_with (fun a b => str_ltb b a) m v.
Proof. reflexivity. Qed.

(** The dates of the canonical regions after the first pass. *)
Lemma group_regions_dates (rs : list loc) (h : heap) :
  exists h1,
    group_regions rs [] h =
      (keyed (region_key h) (first_occurrences (region_key h) [] rs), h1) /\
    forall c, c ∈ first_occurrences (region_key h) [] rs ->
      smallest_nonempty (map (fun r => first_shown (regs h r)) (region_group h rs c))
        (first_shown (regs h1 c)) /\
      largest_nonempty (map (fun r => last_shown (regs h r)) (region_group h rs c))
        (last_shown (regs h1 c)).
Proof.
  set (key := region_key h).
  destruct (group_loop_inv region_key merge_region region_key_merge h rs
    (fun pre cur =>
       (forall y, y ∉ first_occurrences key [] pre -> regs cur y = regs h y) /\
       (forall c, c ∈ first_occurrences key [] pre ->
          smallest_nonempty (map (fun r => first_shown (regs h r)) (members key (key c) pre))
            (first_shown (regs cur c)) /\
          largest_nonempty (map (fun r => last_shown (regs h r)) (members key (key c) pre))
            (last_shown (regs cur c)))))
    as (h1 & Hrun & (_ & Hdates) & _).
  - split; [reflexivity|]. intros c Hc. inversion Hc.
  - (* miss *)
    intros pre x post cur _ (Hfr & Hd) _ Hmiss. fold key in Hmiss.
    rewrite (first_occurrences_snoc_miss _ _ _ Hmiss). split.
    + intros y Hy. apply Hfr. intros Hin. apply Hy, elem_of_app. auto.
    + intros c Hc. apply elem_of_app in Hc as [Hc|Hc].
      * rewrite members_snoc_miss; [apply Hd, Hc|].
        intros Heq. apply Hmiss. rewrite Heq.
        apply elem_of_map_2, (first_occurrences_subset key), Hc.
      * apply list_elem_of_singleton in Hc as ->.
        rewrite members_snoc_hit, (members_nil _ _ _ Hmiss). cbn [app map].
        rewrite Hfr.
        -- split; apply extreme_singleton; intros; apply str_ltb_irrefl.
        -- intros Hin. apply Hmiss.
           apply elem_of_map_2, (first_occurrences_subset key), Hin.
  - (* hit *)
    intros pre x post e cur _ (Hfr & Hd) _ He Hke. fold key in He, Hke.
    assert (Hepre : e ∈ pre) by (eapply first_occurrences_subset; exact He).
    assert (Hhit : key x ∈ map key pre).
    { rewrite <- Hke. apply elem_of_map_2, Hepre. }
    rewrite (first_occurrences_snoc_hit _ _ _ Hhit). split.
    + intros y Hy. rewrite merge_region_regs_other; [apply Hfr, Hy|].
      intros ->. contradiction.
    + intros c Hc. destruct (decide (c = e)) as [->|Hne].
      * rewrite merge_region_regs_self. cbn [first_shown last_shown].
        rewrite Hke, members_snoc_hit, !map_app. cbn [map].
        rewrite <- Hke. destruct (Hd e He) as [Hs Hl].
        destruct (decide (x ∈ first_occurrences key [] pre)) as [Hx|Hx].
        -- assert (x = e) by
             (apply (first_occurrences_inj key pre); [exact Hx | exact He | congruence]).
           subst x. rewrite merge_first_with, merge_last_with, !merge_with_idem.
           assert (Hmem : e ∈ members key (key e) pre).
           { apply elem_of_members. auto. }
           split; apply extreme_dup; try assumption.
           ++ apply (elem_of_map_2 (fun r => first_shown (regs h r))), Hmem.
           ++ apply (elem_of_map_2 (fun r => last_shown (regs h r))), Hmem.
        -- rewrite (Hfr x Hx), merge_first_with, merge_last_with.
           split; apply extreme_snoc; try assumption.
           ++ apply str_ltb_irrefl.
           ++ apply str_ltb_trans.
           ++ intros; apply str_ltb_irrefl.
           ++ intros a b c0 H1 H2. eapply str_ltb_trans; eassumption.
      * rewrite merge_region_regs_other by exact Hne.
        rewrite members_snoc_miss; [apply Hd, Hc|].
        intros Heq. apply Hne.
        apply (first_occurrences_inj key pre); [exact Hc | exact He | congruence].
  - exists h1. rewrite group_regions_loop. split; [exact Hrun | exact Hdates].
Qed.

(** The regions of the result are the first regions of the keys. *)
Lemma normalize_out (rs : list loc) (h : heap) (c : loc) :
  c ∈ (normalize_region_stats rs h).1 <-> c ∈ first_occurrences (region_key h) [] rs.
Proof.
  destruct (normalize_spec rs h) as (h1 & h2 & _ & _ & _ & _ & _ & ->). simpl.
  rewrite (sorted_by_Permutation pair_ltb (region_key h) _). reflexivity.
Qed.

(** Every region of the input is represented in the result. *)
Lemma normalize_covers (rs : list loc) (h : heap) :
  Forall (fun r => Exists (fun c => region_key h c = region_key h r)
                     (normalize_region_stats rs h).1) rs.
Proof.
  apply Forall_forall. intros r Hr. apply Exists_exists.
  destruct (first_occurrences_covers (region_key h) rs r Hr) as (c & Hc & Hk).
  exists c. split; [apply normalize_out, Hc | exact Hk].
Qed.

(** C5: in the result of [normalize_region_stats], the [first_shown] of a
    region is the lexicographically smallest non-empty [first_shown] of the
    input regions that share its key, and its [last_shown] the largest
    non-empty [last_shown]; each is empty when all of them are.  Every input
    region has its key in the result. *)
Theorem C5_date_range_widening (rs : list loc) (h : heap) :
  let '(out, h') := normalize_region_stats rs h in
  Forall (fun r => Exists (fun c => region_key h c = region_key h r) out) rs /\
  Forall (fun c =>
      smallest_nonempty (map (fun r => first_shown (regs h r)) (region_group h rs c))
        (first_shown (regs h' c)) /\
      largest_nonempty (map (fun r => last_shown (regs h r)) (region_group h rs c))
        (last_shown (regs h' c))) out.
Proof.
  pose proof (normalize_covers rs h) as Hcov.
  pose proof (normalize_out rs h) as Hout.
  destruct (normalize_spec rs h) as (h1 & h2 & Hrun & _ & _ & _ & Hregs & Hn).
  rewrite Hn in *. simpl in Hout. split; [exact Hcov|].
  apply Forall_forall. intros c Hc. apply Hout in Hc.
  destruct (group_regions_dates rs h) as (h1' & Hrun' & Hd).
  rewrite Hrun in Hrun'. injection Hrun' as <-.
  rewrite Hregs. destruct (decide _) as [_|?]; [|contradiction].
  cbn [with_surfaces first_shown last_shown]. apply Hd, Hc.
Qed.

(** ** Merged impression ranges *)

Lemma elem_of_concat_map {A B} (g : A -> list B) (l : list A) (b : B) :
  b ∈ concat (map g l) <-> exists a, a ∈ l /\ b ∈ g a.
Proof.
  rewrite list_elem_of_In, in_concat. split.
  - intros (k & Hk & Hb). apply in_map_iff in Hk as (a & <- & Ha).
    exists a. rewrite !list_elem_of_In. auto.
  - intros (a & Ha & Hb). exists (g a). split.
    + apply in_map, list_elem_of_In, Ha.
    + apply list_elem_of_In, Hb.
Qed.

Lemma NoDup_concat_filter {A B} (g : A -> list B) (P : A -> Prop)
    `{forall x, Decision (P x)} (l : list A) :
  NoDup (concat (map g l)) -> NoDup (concat (map g (filter P l))).
Proof.
  induction l as [|a l IH]; simpl; [auto|].
  intros Hnd. apply NoDup_app in Hnd as (Ha & Hd & Hl).
  destruct (decide (P a)).
  - rewrite filter_cons_True by assumption. simpl. apply NoDup_app.
    split; [exact Ha|]. split; [|apply IH, Hl].
    intros b Hb Hin. apply (Hd b Hb).
    apply elem_of_concat_map in Hin as (a' & Ha' & Hb').
    apply elem_of_concat_map. exists a'. split; [|exact Hb'].
    apply list_elem_of_filter in Ha'. tauto.
  - rewrite filter_cons_False by assumption. apply IH, Hl.
Qed.

Lemma NoDup_concat_disjoint {A B} (g : A -> list B) (l : list A) (r r' : A) (b : B) :
  NoDup (concat (map g l)) -> r ∈ l -> r' ∈ l -> r <> r' -> b ∈ g r -> b ∈ g r' -> False.
Proof.
  induction l as [|a l IH]; simpl; intros Hnd Hr Hr' Hne Hb Hb'; [inversion Hr|].
  apply NoDup_app in Hnd as (Ha & Hd & Hl).
  apply elem_of_cons in Hr as [->|Hr]; apply elem_of_cons in Hr' as [->|Hr'].
  - contradiction.
  - apply (Hd b Hb). apply elem_of_concat_map. eauto.
  - apply (Hd b Hb'). apply elem_of_concat_map. eauto.
  - apply IH; assumption.
Qed.

Lemma map_concat_map {A B C} (f : B -> C) (g : A -> list B) (l : list A) :
  map f (concat (map g l)) = concat (map (fun a => map f (g a)) l).
Proof. rewrite concat_map, map_map. reflexivity. Qed.

Lemma map_ext_elem {A B} (f g : A -> B) (l : list A) :
  (forall x, x ∈ l -> f x = g x) -> map f l = map g l.
Proof. intros H. apply map_ext_in. intros x Hx. apply H, list_elem_of_In, Hx. Qed.

Lemma concat_map_snoc {A B} (g : A -> list B) (l : list A) (x : A) :
  concat (map g (l ++ [x])) = concat (map g l) ++ g x.
Proof. rewrite map_app, concat_app. simpl. rewrite app_nil_r. reflexivity. Qed.

(** The impression ranges after the first pass. *)
Lemma group_regions_sums (rs : list loc) (h : heap) :
  NoDup (map (imp_of h) rs) ->
  exists h1,
    group_regions rs [] h =
      (keyed (region_key h) (first_occurrences (region_key h) [] rs), h1) /\
    same_identity h h1 /\
    (forall i, i ∉ map (imp_of h) (first_occurrences (region_key h) [] rs) ->
       imps h1 i = imps h i) /\
    (forall c, c ∈ first_occurrences (region_key h) [] rs ->
       imps h1 (imp_of h c) =
         range_sum (map (fun r => imps h (imp_of h r)) (region_group h rs c))).
Proof.
  intros Hnd. rewrite group_regions_loop.
  apply (group_loop_sums region_key merge_region (imp_of h) (same_identity h)).
  - exact region_key_merge.
  - intros e x cur Hid.
    eapply same_identity_trans; [exact Hid | apply same_identity_merge_region].
  - intros e x cur Hid. rewrite merge_region_imps.
    rewrite !(same_identity_imp_of h cur) by exact Hid. reflexivity.
  - apply same_identity_refl.
  - exact Hnd.
Qed.

(** The surface lists after the first pass: the lists of the regions of a
    key, concatenated. *)
Lemma group_regions_surfaces (rs : list loc) (h : heap) :
  NoDup rs ->
  exists h1,
    group_regions rs [] h =
      (keyed (region_key h) (first_occurrences (region_key h) [] rs), h1) /\
    forall c, c ∈ first_occurrences (region_key h) [] rs ->
      surfaces_of h1 c = group_surfaces h rs c.
Proof.
  intros Hnd. set (key := region_key h).
  destruct (group_loop_inv region_key merge_region region_key_merge h rs
    (fun pre cur =>
       (forall y, y ∉ first_occurrences key [] pre -> regs cur y = regs h y) /\
       (forall c, c ∈ first_occurrences key [] pre ->
          surfaces_of cur c = all_surfaces h (members key (key c) pre))))
    as (h1 & Hrun & (_ & Hs) & _).
  - split; [reflexivity|]. intros c Hc. inversion Hc.
  - (* miss *)
    intros pre x post cur _ (Hfr & Hl) _ Hmiss. fold key in Hmiss.
    rewrite (first_occurrences_snoc_miss _ _ _ Hmiss). split.
    + intros y Hy. apply Hfr. intros Hin. apply Hy, elem_of_app. auto.
    + intros c Hc. apply elem_of_app in Hc as [Hc|Hc].
      * rewrite members_snoc_miss; [apply Hl, Hc|].
        intros Heq. apply Hmiss. rewrite Heq.
        apply elem_of_map_2, (first_occurrences_subset key), Hc.
      * apply list_elem_of_singleton in Hc as ->.
        rewrite members_snoc_hit, (members_nil _ _ _ Hmiss). cbn [app].
        unfold all_surfaces. cbn [map concat]. rewrite app_nil_r.
        unfold surfaces_of. rewrite Hfr; [reflexivity|].
        intros Hin. apply Hmiss.
        apply elem_of_map_2, (first_occurrences_subset key), Hin.
  - (* hit *)
    intros pre x post e cur Hxs (Hfr & Hl) _ He Hke. fold key in He, Hke.
    assert (Hepre : e ∈ pre) by (eapply first_occurrences_subset; exact He).
    assert (Hhit : key x ∈ map key pre).
    { rewrite <- Hke. apply elem_of_map_2, Hepre. }
    assert (Hx : x ∉ first_occurrences key [] pre).
    { intros Hin. apply (first_occurrences_subset key) in Hin.
      subst rs. apply NoDup_app in Hnd as (_ & Hd & _).
      apply (Hd x Hin). apply elem_of_cons; auto. }
    rewrite (first_occurrences_snoc_hit _ _ _ Hhit). split.
    + intros y Hy. rewrite merge_region_regs_other; [apply Hfr, Hy|].
      intros ->. contradiction.
    + intros c Hc. unfold surfaces_of. destruct (decide (c = e)) as [->|Hne].
      * rewrite merge_region_regs_self. cbn [surface_serving_stats].
        rewrite Hke, members_snoc_hit. unfold all_surfaces.
        rewrite concat_map_snoc, <- Hke.
        f_equal; [apply (Hl e He)|]. rewrite (Hfr x Hx). reflexivity.
      * rewrite merge_region_regs_other by exact Hne.
        rewrite members_snoc_miss; [apply Hl, Hc|].
        intros Heq. apply Hne.
        apply (first_occurrences_inj key pre); [exact Hc | exact He | congruence].
  - exists h1. rewrite group_regions_loop. split; [exact Hrun | exact Hs].
Qed.

Lemma same_objects_simp_of (h cur : heap) (s : loc) :
  same_objects h cur -> simp_of cur s = simp_of h s.
Proof. intros [Hs _]. unfold simp_of. rewrite Hs. reflexivity. Qed.

(** The impression ranges after the surface loop. *)
Lemma merge_surfaces_sums (l : list loc) (h : heap) :
  NoDup (map (simp_of h) l) ->
  exists h1,
    merge_surfaces l [] h =
      (keyed (code_of h) (first_occurrences (code_of h) [] l), h1) /\
    same_objects h h1 /\
    (forall i, i ∉ map (simp_of h) (first_occurrences (code_of h) [] l) ->
       imps h1 i = imps h i) /\
    (forall s, s ∈ first_occurrences (code_of h) [] l ->
       imps h1 (simp_of h s) =
         range_sum (map (fun s' => imps h (simp_of h s')) (members (code_of h) (code_of h s) l))).
Proof.
  intros Hnd. rewrite merge_surfaces_loop.
  apply (group_loop_sums code_of merge_surface (simp_of h) (same_objects h)).
  - exact code_of_merge.
  - intros e x cur HP. exact HP.
  - intros e x cur HP. unfold merge_surface.
    rewrite !(same_objects_simp_of h cur) by exact HP. reflexivity.
  - split; reflexivity.
  - exact Hnd.
Qed.

(** The impression ranges after the second pass, when the surfaces of the
    regions own distinct ranges. *)
Lemma merge_region_surfaces_sums (cs : list loc) :
  forall h,
    NoDup cs ->
    (forall c, c ∈ cs -> NoDup (map (simp_of h) (surfaces_of h c))) ->
    (forall c x s s', c ∈ cs -> x ∈ cs -> c <> x ->
       s ∈ surfaces_of h c -> s' ∈ surfaces_of h x -> simp_of h s <> simp_of h s') ->
    (forall i, (forall c s, c ∈ cs -> s ∈ surfaces_of h c -> i <> simp_of h s) ->
       imps (merge_region_surfaces cs h) i = imps h i) /\
    (forall c s, c ∈ cs -> s ∈ merged_surfaces h c ->
       imps (merge_region_surfaces cs h) (simp_of h s) =
         range_sum (map (fun s' => imps h (simp_of h s'))
                      (members (code_of h) (code_of h s) (surfaces_of h c)))).
Proof.
  induction cs as [|c cs IH]; intros h Hnd Hown Hsep.
  - split; [reflexivity|]. intros c s Hc. inversion Hc.
  - apply NoDup_cons in Hnd as [Hc Hnd]. cbn [merge_region_surfaces].
    destruct (merge_surfaces_sums (surfaces_of h c) h) as (h1 & Hrun & [Hs1 Hr1] & Hfr1 & Hsum1).
    { apply Hown, elem_of_cons; auto. }
    unfold surfaces_of in Hrun. rewrite Hrun, od_values_keyed.
    set (h2 := set_surface_serving_stats c _ h1).
    assert (Hsurfs : surfs h2 = surfs h) by exact Hs1.
    assert (Himps : imps h2 = imps h1) by reflexivity.
    assert (Hregs : forall x, x <> c -> regs h2 x = regs h x).
    { intros x Hne. unfold h2. rewrite regs_set_surfaces, Hr1.
      destruct (decide (x = c)); [contradiction | reflexivity]. }
    assert (Hsimp : forall s, simp_of h2 s = simp_of h s).
    { intros s. unfold simp_of. rewrite Hsurfs. reflexivity. }
    assert (Hcode : forall s, code_of h2 s = code_of h s).
    { intros s. unfold code_of. rewrite Hsurfs. reflexivity. }
    assert (Hlist : forall x, x ∈ cs -> surfaces_of h2 x = surfaces_of h x).
    { intros x Hx. unfold surfaces_of. rewrite Hregs; [reflexivity|].
      intros ->. contradiction. }
    assert (Hother : forall x s', x ∈ cs -> s' ∈ surfaces_of h x ->
                       imps h1 (simp_of h s') = imps h (simp_of h s')).
    { intros x s' Hx Hs'. apply Hfr1. intros Hin.
      apply elem_of_map in Hin as (s & Heq & Hs).
      apply (first_occurrences_subset (code_of h)) in Hs.
      apply (Hsep c x s s'); try assumption.
      - apply elem_of_cons; auto.
      - apply elem_of_cons; auto.
      - intros ->. contradiction.
      - congruence. }
    destruct (IH h2 Hnd) as [Hfr2 Hsum2].
    { intros x Hx. rewrite (Hlist x Hx), (map_ext_eq _ _ _ Hsimp).
      apply Hown, elem_of_cons; auto. }
    { intros x y s s' Hx Hy Hne Hs Hs'. rewrite !Hsimp.
      rewrite (Hlist x Hx) in Hs. rewrite (Hlist y Hy) in Hs'.
      apply (Hsep x y); try assumption; apply elem_of_cons; auto. }
    split.
    + intros i Hi. rewrite Hfr2.
      * rewrite Himps. apply Hfr1. intros Hin.
        apply elem_of_map in Hin as (s & -> & Hs).
        apply (first_occurrences_subset (code_of h)) in Hs.
        apply (Hi c s); [apply elem_of_cons; auto | exact Hs | reflexivity].
      * intros x s Hx Hs. rewrite Hsimp. rewrite (Hlist x Hx) in Hs.
        apply (Hi x s); [apply elem_of_cons; auto | exact Hs].
    + intros x s Hx Hs. apply elem_of_cons in Hx as [->|Hx].
      * rewrite Hfr2.
        -- rewrite Himps. apply Hsum1, Hs.
        -- intros y s' Hy Hs'. rewrite Hsimp. rewrite (Hlist y Hy) in Hs'.
           apply (first_occurrences_subset (code_of h)) in Hs.
           apply (Hsep c y); try assumption.
           ++ apply elem_of_cons; auto.
           ++ apply elem_of_cons; auto.
           ++ intros ->. contradiction.
      * assert (Hm : merged_surfaces h2 x = merged_surfaces h x).
        { unfold merged_surfaces. rewrite (Hlist x Hx).
          apply first_occurrences_ext, Hcode. }
        rewrite <- Hm in Hs. specialize (Hsum2 x s Hx Hs).
        rewrite Hsimp in Hsum2. rewrite Hsum2, (Hlist x Hx), Hcode.
        assert (Hmem : members (code_of h2) (code_of h s) (surfaces_of h x) =
                       members (code_of h) (code_of h s) (surfaces_of h x)).
        { unfold members. apply list_filter_iff. intros s'. rewrite Hcode. reflexivity. }
        rewrite Hmem. f_equal. apply map_ext_elem. intros s' Hs'.
        apply elem_of_members in Hs' as [Hs' _].
        rewrite Hsimp, Himps. apply (Hother x s' Hx Hs').
Qed.

Lemma elem_of_group_surfaces (h : heap) (rs : list loc) (c s : loc) :
  s ∈ group_surfaces h rs c ->
  exists r, r ∈ rs /\ region_key h r = region_key h c /\ s ∈ surfaces_of h r.
Proof.
  unfold group_surfaces, all_surfaces. intros Hs.
  apply elem_of_concat_map in Hs as (r & Hr & Hs).
  apply elem_of_members in Hr as [Hr Hk]. eauto.
Qed.

Lemma group_surfaces_all (h : heap) (rs : list loc) (c s : loc) :
  s ∈ group_surfaces h rs c -> s ∈ all_surfaces h rs.
Proof.
  intros Hs. apply elem_of_group_surfaces in Hs as (r & Hr & _ & Hs).
  apply elem_of_concat_map. eauto.
Qed.

(** C4: when the regions and surfaces of the input own their impression
    ranges (no range object is shared), every returned region holds the
    bound-wise sum of the ranges of the input regions with its key; its
    surface list is the first surface of every code among the surfaces of
    those regions, taken in input order; each such surface keeps its own
    fields (its name in particular) and holds the bound-wise sum of the
    ranges of the surfaces with its code.  Every input region has its key in
    the result. *)
Theorem C4_merged_sums (rs : list loc) (h : heap) :
  NoDup (impression_objects h rs) ->
  let '(out, h') := normalize_region_stats rs h in
  Forall (fun r => Exists (fun c => region_key h c = region_key h r) out) rs /\
  Forall (fun c =>
      imps h' (imp_of h' c) =
        range_sum (map (fun r => imps h (imp_of h r)) (region_group h rs c)) /\
      surfaces_of h' c = first_occurrences (code_of h) [] (group_surfaces h rs c) /\
      Forall (fun s =>
          surfs h' s = surfs h s /\
          imps h' (simp_of h' s) =
            range_sum (map (fun s' => imps h (simp_of h s'))
                         (members (code_of h) (code_of h s) (group_surfaces h rs c))))
        (surfaces_of h' c)) out.
Proof.
  intros Hown. unfold impression_objects in Hown.
  apply NoDup_app in Hown as (Himp & Hdisj & Hsurf).
  assert (Hnd : NoDup rs) by (eapply NoDup_map_NoDup; exact Himp).
  pose proof (normalize_covers rs h) as Hcov.
  pose proof (normalize_out rs h) as Hout.
  destruct (normalize_spec rs h) as (h1 & h2 & Hrun & Hid1 & Hh2 & Hid2 & Hregs & Hn).
  rewrite Hn in *. simpl in Hout. split; [exact Hcov|].
  set (cs := first_occurrences (region_key h) [] rs) in *.
  destruct (group_regions_sums rs h Himp) as (h1' & Hrun' & _ & Hfr1 & Hsum1).
  rewrite Hrun in Hrun'. injection Hrun' as <-.
  destruct (group_regions_surfaces rs h Hnd) as (h1' & Hrun' & Hlists).
  rewrite Hrun in Hrun'. injection Hrun' as <-. fold cs in Hlists.
  assert (Hid : same_identity h h2) by (eapply same_identity_trans; eassumption).
  assert (Hsimp1 : forall s, simp_of h1 s = simp_of h s)
    by (intros; apply same_identity_simp_of, Hid1).
  assert (Hcode1 : forall s, code_of h1 s = code_of h s)
    by (intros; apply same_identity_code_of, Hid1).
  assert (Hcs : NoDup cs).
  { apply (NoDup_map_NoDup (region_key h)), first_occurrences_NoDup. }
  (* the surfaces keep the ranges they had before the first pass *)
  assert (Hkeep : forall s, s ∈ all_surfaces h rs -> imps h1 (simp_of h s) = imps h (simp_of h s)).
  { intros s Hs. apply Hfr1. intros Hin.
    apply elem_of_map in Hin as (c & Heq & Hc).
    apply (Hdisj (imp_of h c)).
    - apply elem_of_map_2, (first_occurrences_subset (region_key h)), Hc.
    - rewrite <- Heq. apply elem_of_map_2, Hs. }
  destruct (merge_region_surfaces_sums cs h1 Hcs) as [Hfr2 Hsum2].
  { intros c Hc. rewrite (Hlists c Hc), (map_ext_eq _ _ _ Hsimp1).
    unfold group_surfaces, all_surfaces, region_group, members.
    rewrite map_concat_map. apply NoDup_concat_filter.
    rewrite <- map_concat_map. exact Hsurf. }
  { intros c x s s' Hc Hx Hne Hs Hs' Heq. rewrite !Hsimp1 in Heq.
    rewrite (Hlists c Hc) in Hs. rewrite (Hlists x Hx) in Hs'.
    apply elem_of_group_surfaces in Hs as (r & Hr & Hkr & Hs).
    apply elem_of_group_surfaces in Hs' as (r' & Hr' & Hkr' & Hs').
    unfold all_surfaces in Hsurf. rewrite map_concat_map in Hsurf.
    apply (NoDup_concat_disjoint _ rs r r' (simp_of h s) Hsurf Hr Hr').
    - intros ->. apply Hne.
      apply (first_occurrences_inj (region_key h) rs); [exact Hc | exact Hx | congruence].
    - apply elem_of_map_2, Hs.
    - rewrite Heq. apply elem_of_map_2, Hs'. }
  rewrite <- Hh2 in Hfr2, Hsum2.
  apply Forall_forall. intros c Hc. apply Hout in Hc. fold cs in Hc.
  assert (Hlist2 : surfaces_of h2 c = first_occurrences (code_of h) [] (group_surfaces h rs c)).
  { unfold surfaces_of. rewrite Hregs. destruct (decide _) as [_|?]; [|contradiction].
    cbn [with_surfaces surface_serving_stats]. unfold merged_surfaces.
    rewrite (Hlists c Hc). apply first_occurrences_ext, Hcode1. }
  split; [|split].
  - rewrite (same_identity_imp_of h h2 c Hid), Hfr2; [apply Hsum1, Hc|].
    intros x s Hx Hs Heq. rewrite (Hlists x Hx) in Hs. rewrite Hsimp1 in Heq.
    apply (Hdisj (imp_of h c)).
    + apply elem_of_map_2, (first_occurrences_subset (region_key h)), Hc.
    + rewrite Heq. apply elem_of_map_2, (group_surfaces_all h rs x), Hs.
  - exact Hlist2.
  - rewrite Hlist2. apply Forall_forall. intros s Hs.
    destruct Hid as (Hs2 & _). split; [rewrite Hs2; reflexivity|].
    assert (Hm : s ∈ merged_surfaces h1 c).
    { unfold merged_surfaces. rewrite (Hlists c Hc).
      rewrite (first_occurrences_ext (code_of h1) (code_of h)) by exact Hcode1. exact Hs. }
    specialize (Hsum2 c s Hc Hm).
    replace (simp_of h2 s) with (simp_of h1 s)
      by (unfold simp_of; rewrite Hs2; destruct Hid1 as (-> & _); reflexivity).
    rewrite Hsum2, (Hlists c Hc), Hcode1.
    assert (Hmem : members (code_of h1) (code_of h s) (group_surfaces h rs c) =
                   members (code_of h) (code_of h s) (group_surfaces h rs c)).
    { unfold members. apply list_filter_iff. intros s'. rewrite Hcode1. reflexivity. }
    rewrite Hmem. f_equal. apply map_ext_elem. intros s' Hs'.
    apply elem_of_members in Hs' as [Hs' _].
    rewrite Hsimp1. apply Hkeep, (group_surfaces_all h rs c), Hs'.
Qed.

Lemma C4_merged_sums_witness :
  let '(out, h') := normalize_region_stats [0%nat; 1%nat; 2%nat] example_heap in
  Forall (fun r => Exists (fun c => region_key example_heap c = region_key example_heap r) out)
    [0%nat; 1%nat; 2%nat] /\
  Forall (fun c =>
      imps h' (imp_of h' c) =
        range_sum (map (fun r => imps example_heap (imp_of example_heap r))
                     (region_group example_heap [0%nat; 1%nat; 2%nat] c)) /\
      surfaces_of h' c =
        first_occurrences (code_of example_heap) []
          (group_surfaces example_heap [0%nat; 1%nat; 2%nat] c) /\
      Forall (fun s =>
          surfs h' s = surfs example_heap s /\
          imps h' (simp_of h' s) =
            range_sum (map (fun s' => imps example_heap (simp_of example_heap s'))
                         (members (code_of example_heap) (code_of example_heap s)
                            (group_surfaces example_heap [0%nat; 1%nat; 2%nat] c))))
        (surfaces_of h' c)) out.
Proof.
  apply (C4_merged_sums [0%nat; 1%nat; 2%nat] example_heap).
  apply (bool_decide_unpack _). vm_compute. exact I.
Defined.

(** C4 as stated ("for every input list") fails when a range object is
    shared.  With two entries: in [shared_heap] the surface of region 0
    shares its range with region 0; merging region 1 into region 0 changes
    the range of that surface to [(150, 275)], although it is the only
    surface with its code and had [(100, 200)].  With three entries: the
    same region object of [example_heap] three times ends with [(400, 800)],
    not with three times [(100, 200)]. *)
Lemma C4_counterexample :
  (let h' := (normalize_region_stats [0%nat; 1%nat] shared_heap).2 in
   ((normalize_region_stats [0%nat; 1%nat] shared_heap).1 = [0%nat]) /\
   (surfaces_of h' 0%nat = [0%nat]) /\
   (members (code_of shared_heap) (code_of shared_heap 0%nat)
      (group_surfaces shared_heap [0%nat; 1%nat] 0%nat) = [0%nat]) /\
   (range_sum (map (fun s' => imps shared_heap (simp_of shared_heap s'))
                 (members (code_of shared_heap) (code_of shared_heap 0%nat)
                    (group_surfaces shared_heap [0%nat; 1%nat] 0%nat))) =
      mkImpressionRange 100 200) /\
   (imps h' (simp_of h' 0%nat) = mkImpressionRange 150 275)) /\
  (let h' := (normalize_region_stats [0%nat; 0%nat; 0%nat] example_heap).2 in
   ((normalize_region_stats [0%nat; 0%nat; 0%nat] example_heap).1 = [0%nat]) /\
   (range_sum (map (fun r => imps example_heap (imp_of example_heap r))
                 (region_group example_heap [0%nat; 0%nat; 0%nat] 0%nat)) =
      mkImpressionRange 300 600) /\
   (imps h' (imp_of h' 0%nat) = mkImpressionRange 400 800)).
Proof. vm_compute. repeat split. Qed.

(** The end-to-end example of the specification: two entries for [("US",
    "United States")] with ranges [(100, 200)] and [(50, 75)] give one region
    with [(150, 275)]; its surfaces with code ["S"] are merged into the
    first one, which keeps its name and gets [(1 + 10, 2 + 20)]. *)
Example normalize_example :
  let '(out, h') := normalize_region_stats [0%nat; 1%nat] example_heap in
  out = [0%nat] /\
  imps h' (imp_of h' 0%nat) = mkImpressionRange 150 275 /\
  surfaces_of h' 0%nat = [0%nat; 2%nat] /\
  surface_name (surfs h' 0%nat) = "Search" /\
  imps h' (simp_of h' 0%nat) = mkImpressionRange 11 22.
Proof. repeat split. Qed.

(** Sharing breaks the sum: the same region object three times gives four
    times its range, not three times. *)
Example normalize_shared_object :
  let '(out, h') := normalize_region_stats [0%nat; 0%nat; 0%nat] example_heap in
  out = [0%nat] /\ imps h' (imp_of h' 0%nat) = mkImpressionRange 400 800.
Proof. repeat split. Qed.

(** ** What [_parse_region_stats] hands to [normalize_region_stats] *)

Lemma bindM_Ok {A B} (m : M A) (k : A -> M B) (h h' : heap) (b : B) :
  bindM m k h = (Ok b, h') -> exists a h1, m h = (Ok a, h1) /\ k a h1 = (Ok b, h').
Proof.
  unfold bindM. destruct (m h) as [[a|e] h1]; [eauto | discriminate].
Qed.

Lemma lift_Ok {A} (r : result A) (h h' : heap) (a : A) :
  lift r h = (Ok a, h') -> r = Ok a /\ h' = h.
Proof. unfold lift. intros [= -> ->]. auto. Qed.

Lemma parse_impression_range_Ok (raw : pyval) (h h' : heap) (i : loc) :
  _parse_impression_range raw h = (Ok i, h') ->
  i = next h /\ next h' = S (next h) /\ surfs h' = surfs h /\ regs h' = regs h /\
  extends h h'.
Proof.
  unfold _parse_impression_range. intros Hrun.
  apply bindM_Ok in Hrun as (b & h1 & Hb & Hrun). apply lift_Ok in Hb as [_ ->].
  unfold run in Hrun. cbn in Hrun. injection Hrun as <- <-.
  split_and!; try reflexivity. apply (extends_new_imp _ h).
Qed.

Lemma owned_surfaces_extends (lo : loc) (h h' : heap) (l : list loc) :
  owned_surfaces lo h l -> extends h h' -> owned_surfaces lo h' l.
Proof.
  intros [Hnd Hall] [Hn Hext].
  assert (Hsimp : forall s, s ∈ l -> simp_of h' s = simp_of h s).
  { intros s Hs. rewrite Forall_forall in Hall. destruct (Hall s Hs) as [Hlt _].
    unfold simp_of. destruct (Hext s Hlt) as (_ & -> & _). reflexivity. }
  split.
  - rewrite (map_ext_elem _ _ _ Hsimp). exact Hnd.
  - apply Forall_forall. intros s Hs. rewrite (Hsimp s Hs).
    rewrite Forall_forall in Hall. destruct (Hall s Hs). lia.
Qed.

Lemma owned_surfaces_snoc (lo : loc) (h : heap) (l : list loc) (s : loc) :
  owned_surfaces lo h l -> (s < next h)%nat -> (lo <= simp_of h s < next h)%nat ->
  (forall s', s' ∈ l -> simp_of h s' <> simp_of h s) ->
  owned_surfaces lo h (l ++ [s]).
Proof.
  intros [Hnd Hall] Hs Hi Hne. split.
  - rewrite map_app. apply NoDup_app. split; [exact Hnd|]. split.
    + intros i Hin Hin'. simpl in Hin'. apply list_elem_of_singleton in Hin' as ->.
      apply elem_of_map in Hin as (s' & Heq & Hs'). apply (Hne s' Hs'). congruence.
    + simpl. apply NoDup_singleton.
  - apply Forall_app. split; [exact Hall|]. apply Forall_singleton. auto.
Qed.

Section ownership.
Variable repr : pyval -> string.

Lemma surface_items_owned (lo : loc) (items : list pyval) :
  forall acc h out h',
    owned_surfaces lo h acc -> (lo <= next h)%nat ->
    surface_items repr items acc h = (Ok out, h') ->
    extends h h' /\ regs h' = regs h /\ owned_surfaces lo h' out.
Proof.
  induction items as [|item items IH]; intros acc h out h' Hacc Hlo Hrun.
  - cbn in Hrun. injection Hrun as <- <-. split; [apply extends_refl | auto].
  - cbn [surface_items] in Hrun.
    apply bindM_Ok in Hrun as (raw & h0 & Hg & Hrun). apply lift_Ok in Hg as [_ ->].
    apply bindM_Ok in Hrun as (code & h0 & Hg & Hrun). apply lift_Ok in Hg as [_ ->].
    apply bindM_Ok in Hrun as (name & h0 & Hg & Hrun). apply lift_Ok in Hg as [_ ->].
    apply bindM_Ok in Hrun as (i & h1 & Hi & Hrun).
    apply parse_impression_range_Ok in Hi as (-> & Hn1 & Hs1 & Hr1 & Hext1).
    apply bindM_Ok in Hrun as (s & h2 & Hs & Hrun).
    unfold run in Hs. cbn in Hs. injection Hs as <- <-.
    set (h2 := mkHeap _ _ _ _) in Hrun.
    assert (Hext2 : extends h1 h2) by apply (extends_new_surf _ h1).
    assert (Hext : extends h h2) by (eapply extends_trans; eassumption).
    assert (Hnew : surfs h2 (next h1) =
                   mkSurfaceServingStat (py_str repr code) (py_str repr name) (next h)).
    { unfold h2. cbn. apply fn_lookup_insert. }
    assert (Hn2 : next h2 = S (next h1)) by reflexivity.
    assert (Hacc2 : owned_surfaces lo h2 (acc ++ [next h1])).
    { apply owned_surfaces_snoc.
      - eapply owned_surfaces_extends; eassumption.
      - lia.
      - unfold simp_of. rewrite Hnew. cbn. lia.
      - intros s' Hs'. unfold simp_of at 2. rewrite Hnew. cbn.
        destruct (owned_surfaces_extends lo h h2 acc Hacc Hext) as [_ Hall].
        destruct Hacc as [_ Hall0]. rewrite Forall_forall in Hall0.
        destruct (Hall0 s' Hs') as [Hlt Hrange].
        destruct Hext as [_ Hobj]. destruct (Hobj s' Hlt) as (_ & Hsame & _).
        unfold simp_of in *. rewrite Hsame. lia. }
    destruct (IH _ _ _ _ Hacc2 ltac:(lia) Hrun) as (Hext3 & Hr3 & Hout).
    split; [eapply extends_trans; eassumption|]. split; [|exact Hout].
    rewrite Hr3. unfold h2. cbn. exact Hr1.
Qed.

Lemma parse_surface_stats_owned (raw : pyval) (h h' : heap) (out : list loc) :
  _parse_surface_stats repr raw h = (Ok out, h') ->
  extends h h' /\ regs h' = regs h /\ owned_surfaces (next h) h' out.
Proof.
  unfold _parse_surface_stats. destruct (negb (truthy raw)).
  - intros [= <- <-]. split; [apply extends_refl|]. split; [reflexivity|].
    split; [constructor | constructor].
  - intros Hrun. apply bindM_Ok in Hrun as (items & h0 & Hg & Hrun).
    apply lift_Ok in Hg as [_ ->].
    apply (surface_items_owned (next h) items [] h out h'); [|lia|exact Hrun].
    split; constructor.
Qed.
End ownership.

Lemma all_surfaces_frame (h h' : heap) (rs : list loc) :
  (forall x, x ∈ rs -> regs h' x = regs h x) ->
  all_surfaces h' rs = all_surfaces h rs.
Proof.
  intros Hregs. unfold all_surfaces. f_equal. apply map_ext_elem.
  intros x Hx. unfold surfaces_of. rewrite (Hregs x Hx). reflexivity.
Qed.

Lemma impression_objects_frame (h h' : heap) (rs : list loc) :
  (forall x, x ∈ rs -> regs h' x = regs h x) ->
  (forall s, s ∈ all_surfaces h rs -> surfs h' s = surfs h s) ->
  impression_objects h' rs = impression_objects h rs.
Proof.
  intros Hregs Hsurfs. unfold impression_objects.
  rewrite (all_surfaces_frame h h' rs Hregs). f_equal.
  - apply map_ext_elem. intros x Hx. unfold imp_of. rewrite (Hregs x Hx). reflexivity.
  - apply map_ext_elem. intros s Hs. unfold simp_of. rewrite (Hsurfs s Hs). reflexivity.
Qed.

Lemma all_surfaces_snoc (h : heap) (rs : list loc) (r : loc) :
  all_surfaces h (rs ++ [r]) = all_surfaces h rs ++ surfaces_of h r.
Proof. apply concat_map_snoc. Qed.

(** Old objects sit below [n], the new region range is [n], the new surface
    ranges sit above [n]. *)
Lemma NoDup_windows (a b c : list loc) (n : loc) :
  NoDup (a ++ b) -> Forall (fun i => (i < n)%nat) (a ++ b) ->
  NoDup c -> Forall (fun i => (n < i)%nat) c ->
  NoDup ((a ++ [n]) ++ (b ++ c)).
Proof.
  intros Hab Hlt Hc Hgt.
  apply Forall_app in Hlt as [Ha Hb]. rewrite Forall_forall in Ha, Hb, Hgt.
  apply NoDup_app in Hab as (Hna & Hdab & Hnb).
  apply NoDup_app. split; [|split].
  - apply NoDup_app. split; [exact Hna|]. split; [|apply NoDup_singleton].
    intros i Hi Hin. apply list_elem_of_singleton in Hin as ->. specialize (Ha _ Hi). lia.
  - intros i Hi Hin. apply elem_of_app in Hi as [Hi|Hi]; apply elem_of_app in Hin as [Hin|Hin].
    + apply (Hdab i Hi Hin).
    + specialize (Ha _ Hi). specialize (Hgt _ Hin). lia.
    + apply list_elem_of_singleton in Hi as ->. specialize (Hb _ Hin). lia.
    + apply list_elem_of_singleton in Hi as ->. specialize (Hgt _ Hin). lia.
  - apply NoDup_app. split; [exact Hnb|]. split; [|exact Hc].
    intros i Hi Hin. specialize (Hb _ Hi). specialize (Hgt _ Hin). lia.
Qed.

Section region_ownership.
Variable repr : pyval -> string.

(** Every region object [region_items] appends owns a fresh range, and so
    do its surfaces. *)
Lemma region_items_owned (items : list pyval) :
  forall stats h out h',
    owned h stats ->
    region_items repr items stats h = (Ok out, h') ->
    owned h' out.
Proof.
  induction items as [|item items IH]; intros stats h out h' Hown Hrun.
  - cbn in Hrun. injection Hrun as <- <-. exact Hown.
  - cbn [region_items] in Hrun.
    apply bindM_Ok in Hrun as (raw & h0 & Hg & Hrun). apply lift_Ok in Hg as [_ ->].
    apply bindM_Ok in Hrun as (sraw & h0 & Hg & Hrun). apply lift_Ok in Hg as [_ ->].
    apply bindM_Ok in Hrun as (code & h0 & Hg & Hrun). apply lift_Ok in Hg as [_ ->].
    apply bindM_Ok in Hrun as (name & h0 & Hg & Hrun). apply lift_Ok in Hg as [_ ->].
    apply bindM_Ok in Hrun as (first & h0 & Hg & Hrun). apply lift_Ok in Hg as [_ ->].
    apply bindM_Ok in Hrun as (last & h0 & Hg & Hrun). apply lift_Ok in Hg as [_ ->].
    apply bindM_Ok in Hrun as (i & h1 & Hi & Hrun).
    apply parse_impression_range_Ok in Hi as (-> & Hn1 & Hs1 & Hr1 & Hext1).
    apply bindM_Ok in Hrun as (ss & h2 & Hss & Hrun).
    apply parse_surface_stats_owned in Hss as (Hext2 & Hr2 & Hnd2 & Hall2).
    apply bindM_Ok in Hrun as (r & h3 & Hr & Hrun).
    unfold run in Hr. cbn in Hr. injection Hr as <- <-.
    set (h3 := mkHeap _ _ _ _) in Hrun.
    apply (IH _ _ _ _) in Hrun; [exact Hrun|]. clear Hrun IH.
    destruct Hown as (Hnd & Hlt & Hrs & Hsf).
    assert (Hext : extends h h2) by (eapply extends_trans; eassumption).
    destruct Hext as [Hn02 Hobj]. destruct Hext2 as [Hn12 _].
    rewrite Forall_forall in Hrs, Hsf, Hall2.
    assert (Hregs3 : forall x, x ∈ stats -> regs h3 x = regs h x).
    { intros x Hx. specialize (Hrs x Hx). unfold h3. cbn.
      rewrite fn_lookup_insert_ne by lia. rewrite Hr2, Hr1. reflexivity. }
    assert (Hsurfs3 : forall s, s ∈ all_surfaces h stats -> surfs h3 s = surfs h s).
    { intros s Hs. specialize (Hsf s Hs). destruct (Hobj s Hsf) as (_ & Hsame & _).
      exact Hsame. }
    assert (Hnew : regs h3 (next h2) =
                   mkRegionStat (py_str repr code) (py_str repr name) (py_str repr first)
                     (py_str repr last) (next h) ss).
    { unfold h3. cbn. apply fn_lookup_insert. }
    assert (Hall : all_surfaces h3 (stats ++ [next h2]) = all_surfaces h stats ++ ss).
    { rewrite all_surfaces_snoc, (all_surfaces_frame h h3 stats Hregs3).
      unfold surfaces_of. rewrite Hnew. reflexivity. }
    assert (Hobjs : impression_objects h3 (stats ++ [next h2]) =
                    (map (imp_of h) stats ++ [next h]) ++
                    (map (simp_of h) (all_surfaces h stats) ++ map (simp_of h2) ss)).
    { unfold impression_objects. rewrite Hall, !map_app. f_equal.
      - f_equal.
        + apply map_ext_elem. intros x Hx. unfold imp_of. rewrite (Hregs3 x Hx). reflexivity.
        + cbn. unfold imp_of. rewrite Hnew. reflexivity.
      - f_equal. apply map_ext_elem. intros s Hs. unfold simp_of.
        rewrite (Hsurfs3 s Hs). reflexivity. }
    assert (Hss_gt : Forall (fun i => (next h < i)%nat) (map (simp_of h2) ss)).
    { apply Forall_forall. intros i Hi. apply elem_of_map in Hi as (s & -> & Hs).
      destruct (Hall2 s Hs). lia. }
    split; [|split; [|split]].
    + rewrite Hobjs. apply NoDup_windows; assumption.
    + rewrite Hobjs. unfold impression_objects in Hlt.
      apply Forall_app in Hlt as [Hlt1 Hlt2].
      assert (Hn3 : next h3 = S (next h2)) by reflexivity.
      rewrite Hn3. repeat (apply Forall_app; split).
      * eapply Forall_impl; [exact Hlt1|]. intros; simpl in *; lia.
      * apply Forall_singleton. lia.
      * eapply Forall_impl; [exact Hlt2|]. intros; simpl in *; lia.
      * apply Forall_forall. intros i Hi. apply elem_of_map in Hi as (s & -> & Hs).
        destruct (Hall2 s Hs). lia.
    + apply Forall_app. split.
      * apply Forall_forall. intros x Hx. specialize (Hrs x Hx). cbn. lia.
      * apply Forall_singleton. cbn. lia.
    + rewrite Hall. apply Forall_app. split.
      * apply Forall_forall. intros s Hs. specialize (Hsf s Hs). cbn. lia.
      * apply Forall_forall. intros s Hs. destruct (Hall2 s Hs). cbn. lia.
Qed.

(** The list [_parse_region_stats] passes to [normalize_region_stats] owns
    its impression ranges: no range object is shared. *)
Lemma parse_region_stats_owned (items : list pyval) (h h1 : heap) (stats : list loc) :
  region_items repr items [] h = (Ok stats, h1) ->
  NoDup (impression_objects h1 stats).
Proof.
  intros Hrun. apply region_items_owned in Hrun; [apply Hrun|].
  split; [constructor|]. split; [constructor|]. split; constructor.
Qed.
End region_ownership.

(** ** [helpers.safe_get] *)

(** X1: following a path of keys and then a second path is following their
    concatenation: when the first path leads to a value, [safe_get]
    continues from it, and when it breaks (a missing key, or a value that is
    no mapping) the result is the default.  In particular [safe_get] returns
    the stored value, even [None], whenever the whole path exists. *)
Theorem safe_get_path (d : pyval) (ks1 ks2 : list string) (dflt : pyval) :
  safe_get d (ks1 ++ ks2) dflt =
    match path_value d ks1 with
    | Some v => safe_get v ks2 dflt
    | None => dflt
    end /\
  safe_get d ks1 dflt = default dflt (path_value d ks1).
Proof.
  assert (Hgen : forall ks d, safe_get d (ks ++ ks2) dflt =
            match path_value d ks with
            | Some v => safe_get v ks2 dflt
            | None => dflt
            end).
  { induction ks as [|k ks IH]; intros d0; simpl; [reflexivity|].
    destruct d0; try reflexivity.
    destruct (dict_lookup k kvs); simpl; [apply IH | reflexivity]. }
  split; [apply Hgen|].
  revert d. induction ks1 as [|k ks IH]; intros d; simpl; [reflexivity|].
  destruct d; try reflexivity.
  destruct (dict_lookup k kvs); simpl; [apply IH | reflexivity].
Qed.

(** ** [main.normalize_input_payload] *)

Lemma check_advertisers_Ok (items : list pyval) :
  forall acc out,
    check_advertisers items acc = Ok out ->
    out = acc ++ items /\ Forall is_mapping items.
Proof.
  induction items as [|item items IH]; intros acc out; simpl.
  - intros [= <-]. rewrite app_nil_r. auto.
  - destruct item; try discriminate. intros Hrun.
    destruct (IH _ _ Hrun) as [-> Hall]. rewrite <- app_assoc. split; [reflexivity|].
    constructor; [exact I | exact Hall].
Qed.

Lemma check_advertisers_mappings (items : list pyval) :
  forall acc, Forall is_mapping items -> check_advertisers items acc = Ok (acc ++ items).
Proof.
  induction items as [|item items IH]; intros acc Hall; simpl.
  - rewrite app_nil_r. reflexivity.
  - apply Forall_cons in Hall as [Hitem Hall]. destruct item; try contradiction.
    rewrite (IH _ Hall), <- app_assoc. reflexivity.
Qed.

(** X2: whenever [normalize_input_payload] returns, every descriptor it
    returns is a mapping, a list payload is returned as it is, and
    normalizing the returned list again returns it unchanged. *)
Theorem normalize_input_payload_mappings (payload : pyval) (out : list pyval) :
  normalize_input_payload payload = Ok out ->
  Forall is_mapping out /\
  (forall xs, payload = PList xs -> out = xs) /\
  normalize_input_payload (PList out) = Ok out.
Proof.
  unfold normalize_input_payload. intros Hrun.
  assert (Hall : Forall is_mapping out /\
                 forall xs, payload = PList xs -> out = xs).
  { destruct (py_iter _) as [items|e] eqn:Hiter; [|discriminate].
    cbn [mbind result_bind] in Hrun.
    apply check_advertisers_Ok in Hrun as [-> Hall]. split; [exact Hall|].
    intros xs ->. cbn in Hiter. injection Hiter as <-. reflexivity. }
  destruct Hall as [Hall Hlist]. split; [exact Hall|]. split; [exact Hlist|].
  cbn [py_iter mbind result_bind]. apply (check_advertisers_mappings out [] Hall).
Qed.

Lemma normalize_input_payload_mappings_witness :
  Forall is_mapping [PDict [(PStr "advertiserId", PStr "AR1")]; PDict []] /\
  (forall xs, PDict [(PStr "advertisers",
                      PList [PDict [(PStr "advertiserId", PStr "AR1")]; PDict []])] = PList xs ->
     [PDict [(PStr "advertiserId", PStr "AR1")]; PDict []] = xs) /\
  normalize_input_payload (PList [PDict [(PStr "advertiserId", PStr "AR1")]; PDict []]) =
    Ok [PDict [(PStr "advertiserId", PStr "AR1")]; PDict []].
Proof.
  apply (normalize_input_payload_mappings
           (PDict [(PStr "advertisers",
                    PList [PDict [(PStr "advertiserId", PStr "AR1")]; PDict []])])).
  reflexivity.
Defined.

(** ** [helpers.http_get] *)




Lemma total_sleep_snoc (l : list Z) (z : Z) : total_sleep (l ++ [z]) = total_sleep l + z.
Proof. unfold total_sleep. induction l as [|a l IH]; simpl; [lia | rewrite IH; lia]. Qed.

Lemma http_loop_bounds (env : nat -> helpers.outcome) (remaining : nat) :
  forall attempt last slept,
    total_sleep slept <= 2 ^ Z.of_nat attempt - 1 ->
    (length slept <= attempt)%nat ->
    let r := helpers.http_loop remaining attempt env last slept in
    (helpers.calls r <= attempt + remaining)%nat /\
    (length (helpers.sleeps r) <= attempt + Nat.pred remaining)%nat /\
    total_sleep (helpers.sleeps r) <= 2 ^ Z.of_nat (attempt + Nat.pred remaining) - 1.
Proof.
  induction remaining as [|remaining IH]; intros attempt last slept Hsum Hlen.
  - cbn. replace (attempt + 0)%nat with attempt by lia.
    destruct last; cbn; split_and!; try lia; exact Hsum.
  - cbn [helpers.http_loop Nat.pred].
    assert (Hpow : 2 ^ Z.of_nat attempt <= 2 ^ Z.of_nat (attempt + remaining)).
    { apply Z.pow_le_mono_r; lia. }
    assert (Hdouble : 2 ^ Z.of_nat (S attempt) = 2 * 2 ^ Z.of_nat attempt).
    { rewrite Nat2Z.inj_succ, Z.pow_succ_r by lia. reflexivity. }
    assert (Hcont : forall last' slept',
      total_sleep slept' <= 2 ^ Z.of_nat (S attempt) - 1 ->
      (length slept' <= S attempt)%nat ->
      let r := helpers.http_loop remaining (S attempt) env last' slept' in
      remaining <> 0%nat ->
      (helpers.calls r <= attempt + S remaining)%nat /\
      (length (helpers.sleeps r) <= attempt + remaining)%nat /\
      total_sleep (helpers.sleeps r) <= 2 ^ Z.of_nat (attempt + remaining) - 1).
    { intros last' slept' Hs Hl r Hne. subst r.
      destruct (IH (S attempt) last' slept' Hs Hl) as (Hc & Hn & Ht).
      replace (S attempt + Nat.pred remaining)%nat with (attempt + remaining)%nat in * by lia.
      repeat split; [lia | exact Hn | exact Ht]. }
    assert (Hlast : forall last' : option helpers.http_exn,
      remaining = 0%nat ->
      let r := helpers.http_loop remaining (S attempt) env last' slept in
      (helpers.calls r <= attempt + S remaining)%nat /\
      (length (helpers.sleeps r) <= attempt + remaining)%nat /\
      total_sleep (helpers.sleeps r) <= 2 ^ Z.of_nat (attempt + remaining) - 1).
    { intros last' -> r. subst r. cbn. replace (attempt + 0)%nat with attempt by lia.
      destruct last'; cbn; split_and!; try lia; exact Hsum. }
    assert (Hhandler : forall exc : helpers.http_exn,
      let r := helpers.http_loop remaining (S attempt) env (Some exc)
                 match remaining with
                 | O => slept
                 | S _ => slept ++ [2 ^ (Z.of_nat (S attempt) - 1)]
                 end in
      (helpers.calls r <= attempt + S remaining)%nat /\
      (length (helpers.sleeps r) <= attempt + remaining)%nat /\
      total_sleep (helpers.sleeps r) <= 2 ^ Z.of_nat (attempt + remaining) - 1).
    { intros exc. destruct remaining as [|remaining'] eqn:Hrem.
      - apply (Hlast (Some exc) eq_refl).
      - apply Hcont; [| |discriminate].
        + rewrite total_sleep_snoc.
          replace (Z.of_nat (S attempt) - 1) with (Z.of_nat attempt) by lia. lia.
        + rewrite length_app. simpl. lia. }
    destruct (env (S attempt)) as [status|e].
    + destruct (helpers.is_success status).
      * cbn [helpers.calls helpers.sleeps]. split_and!; lia.
      * destruct (helpers.raises_for_status status); [apply Hhandler|].
        destruct remaining as [|remaining'] eqn:Hrem.
        -- apply (Hlast last eq_refl).
        -- apply Hcont; [lia | lia | discriminate].
    + apply Hhandler.
Qed.

(** X4: [http_get] calls [sess.get] at most [retries] times, sleeps at most
    [retries - 1] times (never after the last attempt) and, in units of
    [backoff_factor], sleeps no longer than [2 ^ (retries - 1) - 1] in
    total. *)
Theorem http_get_bounds (retries : Z) (env : nat -> helpers.outcome) :
  let r := helpers.http_get retries env in
  (helpers.calls r <= Z.to_nat retries)%nat /\
  (length (helpers.sleeps r) <= Nat.pred (Z.to_nat retries))%nat /\
  total_sleep (helpers.sleeps r) <= 2 ^ Z.of_nat (Nat.pred (Z.to_nat retries)) - 1.
Proof.
  apply (http_loop_bounds env (Z.to_nat retries) 0 None []); cbn; lia.
Qed.




Lemma http_loop_no_exception (env : nat -> helpers.outcome) (remaining : nat) :
  forall attempt last slept,
    (forall j, (j < remaining)%nat -> ~ succeeds env (attempt + S j) /\ ~ fails env (attempt + S j)) ->
    helpers.http_loop remaining attempt env last slept =
      helpers.mkRun (helpers.Raised (default helpers.AssertionError last)) slept
        (attempt + remaining).
Proof.
  induction remaining as [|remaining IH]; intros attempt last slept Hneither.
  - cbn. replace (attempt + 0)%nat with attempt by lia. destruct last; reflexivity.
  - cbn [helpers.http_loop].
    destruct (Hneither 0%nat ltac:(lia)) as [Hs Hf].
    replace (attempt + 1)%nat with (S attempt) in * by lia.
    unfold succeeds, fails in Hs, Hf. destruct (env (S attempt)) as [status|e].
    + destruct (helpers.is_success status); [destruct Hs; reflexivity|].
      destruct (helpers.raises_for_status status); [destruct Hf; auto|].
      rewrite IH.
      * replace (S attempt + remaining)%nat with (attempt + S remaining)%nat by lia.
        reflexivity.
      * intros j Hj. replace (S attempt + S j)%nat with (attempt + S (S j))%nat by lia.
        apply Hneither. lia.
    + destruct Hf. exact I.
Qed.

(** X6: when every call answers with a status that is neither 2xx nor 4xx
    or 5xx (a redirect that was not followed, say), and also when [retries]
    is not positive, [http_get] returns no response and raises no HTTP
    error: the [assert] fails, without any sleep. *)
Theorem http_get_assertion (retries : Z) (env : nat -> helpers.outcome) :
  (forall n, (1 <= n <= Z.to_nat retries)%nat -> ~ succeeds env n /\ ~ fails env n) ->
  helpers.http_get retries env =
    helpers.mkRun (helpers.Raised helpers.AssertionError) [] (Z.to_nat retries).
Proof.
  intros Hneither. unfold helpers.http_get.
  rewrite http_loop_no_exception; [reflexivity|].
  intros j Hj. apply Hneither. simpl. lia.
Qed.

Lemma http_get_assertion_witness :
  helpers.http_get 2 (fun _ => helpers.Responds 304) =
    helpers.mkRun (helpers.Raised helpers.AssertionError) [] 2.
Proof.
  refine (http_get_assertion 2 (fun _ => helpers.Responds 304) _).
  intros n _. split.
  - unfold succeeds. simpl. discriminate.
  - unfold fails. simpl. intros [_ H]. discriminate H.
Defined.

(** ** More on [utils_region.normalize_region_stats] *)

Section first_of_key.
Context {A K : Type} `{EqDecision K} (key : A -> K).

Lemma first_occurrences_first (l : list A) :
  forall seen c,
    c ∈ first_occurrences key seen l ->
    exists pre post, l = pre ++ c :: post /\ forall r, r ∈ pre -> key r <> key c.
Proof.
  induction l as [|x l IH]; intros seen c Hc; simpl in Hc.
  - inversion Hc.
  - destruct (decide (key x ∈ seen)) as [Hseen|Hseen].
    + pose proof (elem_of_first_occurrences key seen l c Hc) as [_ Hnot].
      destruct (IH _ _ Hc) as (pre & post & -> & Hpre).
      exists (x :: pre), post. split; [reflexivity|].
      intros r Hr. apply elem_of_cons in Hr as [->|Hr]; [|apply Hpre, Hr].
      intros Heq. apply Hnot. rewrite <- Heq. exact Hseen.
    + apply elem_of_cons in Hc as [->|Hc].
      * exists [], l. split; [reflexivity|]. intros r Hr. inversion Hr.
      * pose proof (elem_of_first_occurrences key _ l c Hc) as [_ Hnot].
        destruct (IH _ _ Hc) as (pre & post & -> & Hpre).
        exists (x :: pre), post. split; [reflexivity|].
        intros r Hr. apply elem_of_cons in Hr as [->|Hr]; [|apply Hpre, Hr].
        intros Heq. apply Hnot. rewrite <- Heq. left.
Qed.

Lemma first_occurrences_length (l : list A) :
  forall seen, (length (first_occurrences key seen l) <= length l)%nat.
Proof.
  induction l as [|x l IH]; intros seen; simpl; [lia|].
  destruct (decide _); simpl; [specialize (IH seen) | specialize (IH (key x :: seen))]; lia.
Qed.
End first_of_key.

(** X7: [normalize_region_stats] creates no region object: it returns, in
    sorted order, exactly the first input object of every identity key (the
    object that is the first in the input with its key), so never more
    objects than it was given. *)
Theorem normalize_representatives (rs : list loc) (h : heap) :
  let out := (normalize_region_stats rs h).1 in
  Permutation out (first_occurrences (region_key h) [] rs) /\
  (length out <= length rs)%nat /\
  forall c, c ∈ out ->
    exists pre post, rs = pre ++ c :: post /\
      forall r, r ∈ pre -> region_key h r <> region_key h c.
Proof.
  destruct (normalize_spec rs h) as (h1 & h2 & _ & _ & _ & _ & _ & Hn).
  rewrite Hn. cbn [fst].
  pose proof (sorted_by_Permutation pair_ltb (region_key h)
                (first_occurrences (region_key h) [] rs)) as Hperm.
  split; [exact Hperm|]. split.
  - rewrite (Permutation_length Hperm). apply first_occurrences_length.
  - intros c Hc. rewrite Hperm in Hc.
    apply (first_occurrences_first (region_key h) rs [] c Hc).
Qed.

Lemma elem_of_all_surfaces (h : heap) (rs : list loc) (s : loc) :
  s ∈ all_surfaces h rs <-> exists r, r ∈ rs /\ s ∈ surfaces_of h r.
Proof. apply elem_of_concat_map. Qed.

(** The first pass writes the region objects of its input and their
    impression ranges, nothing else. *)
Lemma group_regions_footprint (rs : list loc) (h : heap) :
  exists h1,
    group_regions rs [] h =
      (keyed (region_key h) (first_occurrences (region_key h) [] rs), h1) /\
    same_identity h h1 /\
    (forall x, x ∉ rs -> regs h1 x = regs h x) /\
    (forall i, i ∉ map (imp_of h) rs -> imps h1 i = imps h i) /\
    (forall c s, c ∈ rs -> s ∈ surfaces_of h1 c -> s ∈ all_surfaces h rs).
Proof.
  destruct (group_loop_inv region_key merge_region region_key_merge h rs
    (fun _ cur =>
       same_identity h cur /\
       (forall x, x ∉ rs -> regs cur x = regs h x) /\
       (forall i, i ∉ map (imp_of h) rs -> imps cur i = imps h i) /\
       (forall c s, c ∈ rs -> s ∈ surfaces_of cur c -> s ∈ all_surfaces h rs)))
    as (h1 & Hrun & HI & _).
  - split; [apply same_identity_refl|]. split; [reflexivity|]. split; [reflexivity|].
    intros c s Hc Hs. apply elem_of_all_surfaces. eauto.
  - intros; assumption.
  - intros pre x post e cur Hxs (Hid & Hregs & Himps & Hsurf) _ He _.
    assert (Hx : x ∈ rs) by (rewrite Hxs; apply elem_of_app; right; left).
    assert (Hein : e ∈ rs).
    { rewrite Hxs. apply elem_of_app. left.
      eapply first_occurrences_subset. exact He. }
    split; [|split; [|split]].
    + eapply same_identity_trans; [exact Hid | apply same_identity_merge_region].
    + intros y Hy. rewrite merge_region_regs_other; [apply Hregs, Hy|].
      intros ->. contradiction.
    + intros i Hi. rewrite merge_region_imps, add_impressions_other; [apply Himps, Hi|].
      intros ->. apply Hi. rewrite (same_identity_imp_of h cur e Hid).
      apply elem_of_map_2, Hein.
    + intros c s Hc Hs. unfold surfaces_of in Hs.
      destruct (decide (c = e)) as [->|Hne].
      * rewrite merge_region_regs_self in Hs. cbn [surface_serving_stats] in Hs.
        apply elem_of_app in Hs as [Hs|Hs]; [apply (Hsurf e) | apply (Hsurf x)]; assumption.
      * rewrite merge_region_regs_other in Hs by exact Hne. apply (Hsurf c); assumption.
  - exists h1. rewrite group_regions_loop. auto.
Qed.

(** The surface loop writes the impression ranges of its surfaces only. *)
Lemma merge_surfaces_footprint (l : list loc) (h : heap) :
  exists h1,
    merge_surfaces l [] h =
      (keyed (code_of h) (first_occurrences (code_of h) [] l), h1) /\
    same_objects h h1 /\ next h1 = next h /\
    (forall i, i ∉ map (simp_of h) l -> imps h1 i = imps h i).
Proof.
  destruct (group_loop_inv code_of merge_surface code_of_merge h l
    (fun _ cur =>
       same_objects h cur /\ next cur = next h /\
       (forall i, i ∉ map (simp_of h) l -> imps cur i = imps h i)))
    as (h1 & Hrun & HI & _).
  - split; [split; reflexivity|]. auto.
  - intros; assumption.
  - intros pre x post e cur Hxs (Hobj & Hnext & Himps) _ He _.
    assert (Hein : e ∈ l).
    { rewrite Hxs. apply elem_of_app. left.
      eapply first_occurrences_subset. exact He. }
    unfold merge_surface.
    destruct (add_impressions_rest (simp_of cur e) (simp_of cur x) cur) as (Hs & Hr & Hn).
    destruct Hobj as [Hos Hor].
    split; [split; congruence|]. split; [congruence|].
    intros i Hi. rewrite add_impressions_other; [apply Himps, Hi|].
    intros ->. apply Hi. unfold simp_of. rewrite Hos. apply (elem_of_map_2 (simp_of h)), Hein.
  - exists h1. rewrite merge_surfaces_loop. auto.
Qed.

(** The second pass shrinks the surface lists of its regions and writes the
    impression ranges of their surfaces, nothing else. *)
Lemma merge_region_surfaces_footprint (cs : list loc) :
  forall h,
    same_identity h (merge_region_surfaces cs h) /\
    (forall x, x ∉ cs -> regs (merge_region_surfaces cs h) x = regs h x) /\
    (forall c s, s ∈ surfaces_of (merge_region_surfaces cs h) c -> s ∈ surfaces_of h c) /\
    (forall i, (forall c s, c ∈ cs -> s ∈ surfaces_of h c -> i <> simp_of h s) ->
       imps (merge_region_surfaces cs h) i = imps h i).
Proof.
  induction cs as [|c cs IH]; intros h.
  - cbn. split; [apply same_identity_refl|]. auto.
  - cbn [merge_region_surfaces].
    destruct (merge_surfaces_footprint (surfaces_of h c) h)
      as (h1 & Hrun & [Hos Hor] & Hnext & Himps).
    unfold surfaces_of in Hrun at 1. rewrite Hrun, od_values_keyed.
    set (l := first_occurrences (code_of h) [] (surfaces_of h c)).
    set (h2 := set_surface_serving_stats c l h1).
    assert (Hid1 : same_identity h h1).
    { split; [exact Hos|]. split; [exact Hnext|]. intros r. rewrite Hor. auto. }
    assert (Hid2 : same_identity h h2).
    { eapply same_identity_trans; [exact Hid1 | apply same_identity_set_surfaces]. }
    assert (Hsub : forall x s, s ∈ surfaces_of h2 x -> s ∈ surfaces_of h x).
    { intros x s. unfold surfaces_of, h2. rewrite regs_set_surfaces, Hor.
      destruct (decide (x = c)) as [->|_]; [|auto].
      cbn [with_surfaces surface_serving_stats]. apply first_occurrences_subset. }
    destruct (IH h2) as (Hid & Hregs & Hsurf & Hfr).
    split; [eapply same_identity_trans; eassumption|]. split; [|split].
    + intros x Hx. rewrite Hregs by (intros Hin; apply Hx; right; exact Hin).
      unfold h2. rewrite regs_set_surfaces, Hor.
      destruct (decide (x = c)) as [->|_]; [|reflexivity]. destruct Hx. left.
    + intros x s Hs. apply Hsub, Hsurf, Hs.
    + intros i Hi. rewrite Hfr.
      * unfold h2, set_surface_serving_stats, set_reg. cbn [imps]. apply Himps.
        intros Hin. apply elem_of_map in Hin as (s & -> & Hs).
        apply (Hi c s); [left | exact Hs | reflexivity].
      * intros x s Hx Hs. rewrite (same_identity_simp_of h h2 s Hid2).
        apply (Hi x s); [right; exact Hx | apply Hsub, Hs].
Qed.

(** The two passes together: what normalization leaves alone. *)
Lemma normalize_frame (rs : list loc) (h : heap) :
  let h' := (normalize_region_stats rs h).2 in
  surfs h' = surfs h /\ next h' = next h /\
  (forall x, x ∉ rs -> regs h' x = regs h x) /\
  (forall i, i ∉ impression_objects h rs -> imps h' i = imps h i).
Proof.
  destruct (normalize_spec rs h) as (h1 & h2 & Hrun & _ & Hh2 & _ & _ & Hn).
  rewrite Hn. cbn [snd]. clear Hn.
  destruct (group_regions_footprint rs h) as (h1' & Hrun' & Hid1 & Hregs1 & Himps1 & Hsurf1).
  rewrite Hrun in Hrun'. injection Hrun' as <-.
  set (cs := first_occurrences (region_key h) [] rs) in *.
  destruct (merge_region_surfaces_footprint cs h1) as (Hid2 & Hregs2 & _ & Himps2).
  rewrite <- Hh2 in Hid2, Hregs2, Himps2.
  assert (Hsub : forall c, c ∈ cs -> c ∈ rs)
    by (intros c; apply first_occurrences_subset).
  destruct (same_identity_trans _ _ _ Hid1 Hid2) as (Hs & Hnext & _).
  split; [exact Hs|]. split; [exact Hnext|]. split.
  - intros x Hx. rewrite Hregs2; [apply Hregs1, Hx|]. intros Hin. apply Hx, Hsub, Hin.
  - intros i Hi. unfold impression_objects in Hi. rewrite Himps2.
    + apply Himps1. intros Hin. apply Hi, elem_of_app. auto.
    + intros c s Hc Hsin ->. apply Hi, elem_of_app. right.
      rewrite (same_identity_simp_of h h1 s Hid1).
      apply elem_of_map_2, (Hsurf1 c s); [apply Hsub, Hc | exact Hsin].
Qed.

(** X8: [normalize_region_stats] allocates nothing and writes nothing it was
    not given: the surface objects are untouched, a region object outside
    the input list is untouched, an impression range that belongs to no
    input region and to no surface of one is untouched, and the surfaces an
    input region ends up with are surfaces of the input. *)
Theorem normalize_footprint (rs : list loc) (h : heap) :
  let h' := (normalize_region_stats rs h).2 in
  surfs h' = surfs h /\ next h' = next h /\
  (forall x, x ∉ rs -> regs h' x = regs h x) /\
  (forall i, i ∉ impression_objects h rs -> imps h' i = imps h i) /\
  (forall c s, c ∈ rs -> s ∈ surfaces_of h' c -> s ∈ all_surfaces h rs).
Proof.
  destruct (normalize_frame rs h) as (Hs & Hnext & Hregs & Himps).
  split; [exact Hs|]. split; [exact Hnext|]. split; [exact Hregs|]. split; [exact Himps|].
  destruct (normalize_spec rs h) as (h1 & h2 & Hrun & _ & Hh2 & _ & _ & Hn).
  rewrite Hn. cbn [snd].
  destruct (group_regions_footprint rs h) as (h1' & Hrun' & _ & _ & _ & Hsurf1).
  rewrite Hrun in Hrun'. injection Hrun' as <-.
  destruct (merge_region_surfaces_footprint (first_occurrences (region_key h) [] rs) h1)
    as (_ & _ & Hsurf2 & _).
  rewrite <- Hh2 in Hsurf2.
  intros c s Hc Hsin. apply (Hsurf1 c s Hc), Hsurf2, Hsin.
Qed.

(** ** Totals are conserved by [normalize_region_stats] *)

Lemma range_add_assoc (a b c : ImpressionRange) :
  range_add (range_add a b) c = range_add a (range_add b c).
Proof. unfold range_add. cbn. f_equal; lia. Qed.

Lemma range_add_comm (a b : ImpressionRange) : range_add a b = range_add b a.
Proof. unfold range_add. f_equal; lia. Qed.

Lemma fold_range_add (l : list ImpressionRange) :
  forall a, fold_left range_add l a = range_add a (range_sum l).
Proof.
  unfold range_sum. induction l as [|x l IH]; intros a; cbn [fold_left].
  - destruct a. unfold range_add. cbn. f_equal; lia.
  - rewrite IH, (IH (range_add _ x)), range_add_zero, range_add_assoc. reflexivity.
Qed.

Lemma range_sum_app (l1 l2 : list ImpressionRange) :
  range_sum (l1 ++ l2) = range_add (range_sum l1) (range_sum l2).
Proof. unfold range_sum at 1. rewrite fold_left_app. apply fold_range_add. Qed.

Lemma range_sum_cons (x : ImpressionRange) (l : list ImpressionRange) :
  range_sum (x :: l) = range_add x (range_sum l).
Proof. change (x :: l) with ([x] ++ l). rewrite range_sum_app, range_sum_singleton. reflexivity. Qed.

Lemma range_sum_Permutation (l1 l2 : list ImpressionRange) :
  Permutation l1 l2 -> range_sum l1 = range_sum l2.
Proof.
  induction 1 as [|x l1 l2 _ IH|x y l|l1 l2 l3 _ IH1 _ IH2].
  - reflexivity.
  - rewrite !range_sum_cons, IH. reflexivity.
  - rewrite !range_sum_cons, <- !range_add_assoc, (range_add_comm y x). reflexivity.
  - congruence.
Qed.

Lemma range_sum_concat {A B} (f : B -> ImpressionRange) (g : A -> list B) (l : list A) :
  range_sum (map (fun a => range_sum (map f (g a))) l) =
    range_sum (map f (concat (map g l))).
Proof.
  induction l as [|a l IH]; cbn [map concat]; [reflexivity|].
  rewrite range_sum_cons, map_app, range_sum_app, IH. reflexivity.
Qed.

Lemma concat_map_Permutation {A B} (g : A -> list B) (l1 l2 : list A) :
  Permutation l1 l2 -> Permutation (concat (map g l1)) (concat (map g l2)).
Proof.
  induction 1 as [|x l1 l2 _ IH|x y l|l1 l2 l3 _ IH1 _ IH2]; cbn [map concat].
  - reflexivity.
  - rewrite IH. reflexivity.
  - rewrite !app_assoc. apply Permutation_app_tail, Permutation_app_comm.
  - etransitivity; eassumption.
Qed.

Lemma concat_map_concat {A B C} (f : B -> list C) (g : A -> list B) (l : list A) :
  concat (map f (concat (map g l))) = concat (map (fun a => concat (map f (g a))) l).
Proof.
  induction l as [|a l IH]; cbn [map concat]; [reflexivity|].
  rewrite map_app, concat_app, IH. reflexivity.
Qed.

Section partition.
Context {A K : Type} `{EqDecision K} (key : A -> K).

Lemma groups_snoc_miss (l : list A) (x : A) (cs : list A) :
  key x ∉ map key cs ->
  map (fun c => members key (key c) (l ++ [x])) cs = map (fun c => members key (key c) l) cs.
Proof.
  intros Hmiss. apply map_ext_elem. intros c Hc. apply members_snoc_miss.
  intros Heq. apply Hmiss. rewrite Heq. apply elem_of_map_2, Hc.
Qed.

Lemma groups_snoc_hit (l : list A) (x : A) (cs : list A) :
  NoDup (map key cs) -> key x ∈ map key cs ->
  Permutation (concat (map (fun c => members key (key c) (l ++ [x])) cs))
    (concat (map (fun c => members key (key c) l) cs) ++ [x]).
Proof.
  induction cs as [|c cs IH]; intros Hnd Hin; cbn [map concat] in *.
  - inversion Hin.
  - apply NoDup_cons in Hnd as [Hc Hnd].
    destruct (decide (key x = key c)) as [Heq|Hne].
    + rewrite groups_snoc_miss by (rewrite Heq; exact Hc).
      rewrite <- Heq, members_snoc_hit, <- !app_assoc.
      apply Permutation_app_head, Permutation_app_comm.
    + rewrite members_snoc_miss by exact Hne.
      apply elem_of_cons in Hin as [Hin|Hin]; [contradiction|].
      rewrite (IH Hnd Hin), app_assoc. reflexivity.
Qed.

(** The groups of the first occurrences partition the list. *)
Lemma members_partition (l : list A) :
  Permutation
    (concat (map (fun c => members key (key c) l) (first_occurrences key [] l))) l.
Proof.
  induction l as [|x l IH] using rev_ind; [reflexivity|].
  destruct (decide (key x ∈ map key l)) as [Hhit|Hmiss].
  - rewrite (first_occurrences_snoc_hit key l x Hhit).
    rewrite groups_snoc_hit, IH; [reflexivity | apply first_occurrences_NoDup |].
    apply first_occurrences_keys. split; [exact Hhit | apply not_elem_of_nil].
  - rewrite (first_occurrences_snoc_miss key l x Hmiss), map_app, concat_app.
    rewrite groups_snoc_miss.
    + cbn [map concat]. rewrite members_snoc_hit, (members_nil key _ _ Hmiss), app_nil_r.
      rewrite IH. reflexivity.
    + intros Hin. apply Hmiss. apply first_occurrences_keys in Hin as [Hin _]. exact Hin.
Qed.
End partition.

(** Under ownership, every range of the result is the sum over the group
    it stands for. *)
Lemma normalize_sums (rs : list loc) (h : heap) :
  NoDup (impression_objects h rs) ->
  let '(out, h') := normalize_region_stats rs h in
  Forall (fun c =>
      imps h' (imp_of h' c) =
        range_sum (map (fun r => imps h (imp_of h r)) (region_group h rs c)) /\
      surfaces_of h' c = first_occurrences (code_of h) [] (group_surfaces h rs c) /\
      Forall (fun s =>
          surfs h' s = surfs h s /\
          imps h' (simp_of h' s) =
            range_sum (map (fun s' => imps h (simp_of h s'))
                         (members (code_of h) (code_of h s) (group_surfaces h rs c))))
        (surfaces_of h' c)) out.
Proof.
  intros Hown. unfold impression_objects in Hown.
  apply NoDup_app in Hown as (Himp & Hdisj & Hsurf).
  assert (Hnd : NoDup rs) by (eapply NoDup_map_NoDup; exact Himp).
  pose proof (normalize_out rs h) as Hout.
  destruct (normalize_spec rs h) as (h1 & h2 & Hrun & Hid1 & Hh2 & Hid2 & Hregs & Hn).
  rewrite Hn in *. simpl in Hout.
  set (cs := first_occurrences (region_key h) [] rs) in *.
  destruct (group_regions_sums rs h Himp) as (h1' & Hrun' & _ & Hfr1 & Hsum1).
  rewrite Hrun in Hrun'. injection Hrun' as <-.
  destruct (group_regions_surfaces rs h Hnd) as (h1' & Hrun' & Hlists).
  rewrite Hrun in Hrun'. injection Hrun' as <-. fold cs in Hlists.
  assert (Hid : same_identity h h2) by (eapply same_identity_trans; eassumption).
  assert (Hsimp1 : forall s, simp_of h1 s = simp_of h s)
    by (intros; apply same_identity_simp_of, Hid1).
  assert (Hcode1 : forall s, code_of h1 s = code_of h s)
    by (intros; apply same_identity_code_of, Hid1).
  assert (Hcs : NoDup cs).
  { apply (NoDup_map_NoDup (region_key h)), first_occurrences_NoDup. }
  (* the surfaces keep the ranges they had before the first pass *)
  assert (Hkeep : forall s, s ∈ all_surfaces h rs -> imps h1 (simp_of h s) = imps h (simp_of h s)).
  { intros s Hs. apply Hfr1. intros Hin.
    apply elem_of_map in Hin as (c & Heq & Hc).
    apply (Hdisj (imp_of h c)).
    - apply elem_of_map_2, (first_occurrences_subset (region_key h)), Hc.
    - rewrite <- Heq. apply elem_of_map_2, Hs. }
  destruct (merge_region_surfaces_sums cs h1 Hcs) as [Hfr2 Hsum2].
  { intros c Hc. rewrite (Hlists c Hc), (map_ext_eq _ _ _ Hsimp1).
    unfold group_surfaces, all_surfaces, region_group, members.
    rewrite map_concat_map. apply NoDup_concat_filter.
    rewrite <- map_concat_map. exact Hsurf. }
  { intros c x s s' Hc Hx Hne Hs Hs' Heq. rewrite !Hsimp1 in Heq.
    rewrite (Hlists c Hc) in Hs. rewrite (Hlists x Hx) in Hs'.
    apply elem_of_group_surfaces in Hs as (r & Hr & Hkr & Hs).
    apply elem_of_group_surfaces in Hs' as (r' & Hr' & Hkr' & Hs').
    unfold all_surfaces in Hsurf. rewrite map_concat_map in Hsurf.
    apply (NoDup_concat_disjoint _ rs r r' (simp_of h s) Hsurf Hr Hr').
    - intros ->. apply Hne.
      apply (first_occurrences_inj (region_key h) rs); [exact Hc | exact Hx | congruence].
    - apply elem_of_map_2, Hs.
    - rewrite Heq. apply elem_of_map_2, Hs'. }
  rewrite <- Hh2 in Hfr2, Hsum2.
  apply Forall_forall. intros c Hc. apply Hout in Hc. fold cs in Hc.
  assert (Hlist2 : surfaces_of h2 c = first_occurrences (code_of h) [] (group_surfaces h rs c)).
  { unfold surfaces_of. rewrite Hregs. destruct (decide _) as [_|?]; [|contradiction].
    cbn [with_surfaces surface_serving_stats]. unfold merged_surfaces.
    rewrite (Hlists c Hc). apply first_occurrences_ext, Hcode1. }
  split; [|split].
  - rewrite (same_identity_imp_of h h2 c Hid), Hfr2; [apply Hsum1, Hc|].
    intros x s Hx Hs Heq. rewrite (Hlists x Hx) in Hs. rewrite Hsimp1 in Heq.
    apply (Hdisj (imp_of h c)).
    + apply elem_of_map_2, (first_occurrences_subset (region_key h)), Hc.
    + rewrite Heq. apply elem_of_map_2, (group_surfaces_all h rs x), Hs.
  - exact Hlist2.
  - rewrite Hlist2. apply Forall_forall. intros s Hs.
    destruct Hid as (Hs2 & _). split; [rewrite Hs2; reflexivity|].
    assert (Hm : s ∈ merged_surfaces h1 c).
    { unfold merged_surfaces. rewrite (Hlists c Hc).
      rewrite (first_occurrences_ext (code_of h1) (code_of h)) by exact Hcode1. exact Hs. }
    specialize (Hsum2 c s Hc Hm).
    replace (simp_of h2 s) with (simp_of h1 s)
      by (unfold simp_of; rewrite Hs2; destruct Hid1 as (-> & _); reflexivity).
    rewrite Hsum2, (Hlists c Hc), Hcode1.
    assert (Hmem : members (code_of h1) (code_of h s) (group_surfaces h rs c) =
                   members (code_of h) (code_of h s) (group_surfaces h rs c)).
    { unfold members. apply list_filter_iff. intros s'. rewrite Hcode1. reflexivity. }
    rewrite Hmem. f_equal. apply map_ext_elem. intros s' Hs'.
    apply elem_of_members in Hs' as [Hs' _].
    rewrite Hsimp1. apply Hkeep, (group_surfaces_all h rs c), Hs'.
Qed.

(** The groups of the returned regions partition the input. *)
Lemma normalize_groups (rs : list loc) (h : heap) :
  Permutation (concat (map (region_group h rs) (normalize_region_stats rs h).1)) rs.
Proof.
  destruct (normalize_spec rs h) as (h1 & h2 & _ & _ & _ & _ & _ & ->). cbn [fst].
  rewrite (concat_map_Permutation _ _ _ (sorted_by_Permutation _ _ _)).
  apply members_partition.
Qed.

(** The ranges of the returned regions add up to those of the input. *)
Lemma normalize_region_totals (rs : list loc) (h : heap) :
  NoDup (impression_objects h rs) ->
  let '(out, h') := normalize_region_stats rs h in
  range_sum (map (fun c => imps h' (imp_of h' c)) out) =
    range_sum (map (fun r => imps h (imp_of h r)) rs).
Proof.
  intros Hown. pose proof (normalize_sums rs h Hown) as Hsums.
  pose proof (normalize_groups rs h) as Hgroups.
  destruct (normalize_region_stats rs h) as [out h']. cbn [fst] in Hgroups.
  rewrite Forall_forall in Hsums.
  rewrite (map_ext_elem _ (fun c => range_sum (map (fun r => imps h (imp_of h r))
                                                 (region_group h rs c))) out)
    by (intros c Hc; apply (Hsums c Hc)).
  rewrite range_sum_concat. apply range_sum_Permutation, Permutation_map, Hgroups.
Qed.

(** X9: when no impression range is shared, normalization conserves the
    totals: the ranges of the returned regions add up to what the ranges of
    the input regions add up to, and likewise for all the surfaces. *)
Theorem normalize_conserves_totals (rs : list loc) (h : heap) :
  NoDup (impression_objects h rs) ->
  let '(out, h') := normalize_region_stats rs h in
  range_sum (map (fun c => imps h' (imp_of h' c)) out) =
    range_sum (map (fun r => imps h (imp_of h r)) rs) /\
  range_sum (map (fun s => imps h' (simp_of h' s)) (all_surfaces h' out)) =
    range_sum (map (fun s => imps h (simp_of h s)) (all_surfaces h rs)).
Proof.
  intros Hown. pose proof (normalize_sums rs h Hown) as Hsums.
  pose proof (normalize_region_totals rs h Hown) as Hregions.
  pose proof (normalize_groups rs h) as Hgroups.
  destruct (normalize_region_stats rs h) as [out h']. cbn [fst] in Hgroups.
  rewrite Forall_forall in Hsums.
  split; [exact Hregions|].
  unfold all_surfaces at 1. rewrite <- range_sum_concat.
  rewrite (map_ext_elem _ (fun c => range_sum (map (fun s => imps h (simp_of h s))
                                                 (group_surfaces h rs c))) out).
  - rewrite range_sum_concat. apply range_sum_Permutation, Permutation_map.
    unfold group_surfaces, all_surfaces.
    rewrite <- (concat_map_concat (surfaces_of h) (region_group h rs) out).
    apply concat_map_Permutation, Hgroups.
  - intros c Hc. destruct (Hsums c Hc) as (_ & Hlist & Hall).
    rewrite Forall_forall in Hall.
    rewrite (map_ext_elem _ (fun s => range_sum (map (fun s' => imps h (simp_of h s'))
               (members (code_of h) (code_of h s) (group_surfaces h rs c))))
               (surfaces_of h' c)) by (intros s Hs; apply (Hall s Hs)).
    rewrite Hlist, range_sum_concat.
    apply range_sum_Permutation, Permutation_map, members_partition.
Qed.

Lemma normalize_conserves_totals_witness :
  let '(out, h') := normalize_region_stats [0%nat; 1%nat; 2%nat] example_heap in
  range_sum (map (fun c => imps h' (imp_of h' c)) out) =
    range_sum (map (fun r => imps example_heap (imp_of example_heap r))
                 [0%nat; 1%nat; 2%nat]) /\
  range_sum (map (fun s => imps h' (simp_of h' s)) (all_surfaces h' out)) =
    range_sum (map (fun s => imps example_heap (simp_of example_heap s))
                 (all_surfaces example_heap [0%nat; 1%nat; 2%nat])).
Proof.
  apply (normalize_conserves_totals [0%nat; 1%nat; 2%nat] example_heap).
  apply (bool_decide_unpack _). vm_compute. exact I.
Defined.

(** ** The parsers of [ads_parser] and the store *)

Lemma bindM_extends {A B} (m : M A) (k : A -> M B) :
  (forall h, extends h (m h).2) -> (forall a h, extends h (k a h).2) ->
  forall h, extends h (bindM m k h).2.
Proof.
  intros Hm Hk h. unfold bindM. specialize (Hm h).
  destruct (m h) as [[a|e] h1]; cbn in *; [|exact Hm].
  eapply extends_trans; [exact Hm | apply Hk].
Qed.

Lemma lift_extends {A} (r : result A) (h : heap) : extends h (lift r h).2.
Proof. apply extends_refl. Qed.

Lemma try_exceptM_extends {A} (body : M A) (classes : exn -> bool) (handler : M A) :
  (forall h, extends h (body h).2) -> (forall h, extends h (handler h).2) ->
  forall h, extends h (try_exceptM body classes handler h).2.
Proof.
  intros Hb Hh h. unfold try_exceptM. specialize (Hb h).
  destruct (body h) as [[a|e] h1]; cbn in *; [exact Hb|].
  destruct (classes e); cbn; [|exact Hb].
  eapply extends_trans; [exact Hb | apply Hh].
Qed.

Lemma parse_impression_range_extends (raw : pyval) (h : heap) :
  extends h (_parse_impression_range raw h).2.
Proof.
  revert h. apply bindM_extends; [intros; apply lift_extends|].
  intros b h. apply (extends_new_imp _ h).
Qed.

Section parse_extends.
Variable repr : pyval -> string.

Lemma surface_items_extends (items : list pyval) :
  forall acc h, extends h (surface_items repr items acc h).2.
Proof.
  induction items as [|item items IH]; intros acc; cbn [surface_items].
  - intros h. apply extends_refl.
  - apply bindM_extends; [intros; apply lift_extends|]. intros raw.
    apply bindM_extends; [intros; apply lift_extends|]. intros code.
    apply bindM_extends; [intros; apply lift_extends|]. intros name.
    apply bindM_extends; [apply parse_impression_range_extends|]. intros i.
    apply bindM_extends; [intros h; apply (extends_new_surf _ h)|]. intros s.
    apply IH.
Qed.

Lemma parse_surface_stats_extends (raw : pyval) (h : heap) :
  extends h (_parse_surface_stats repr raw h).2.
Proof.
  unfold _parse_surface_stats. destruct (negb (truthy raw)); [apply extends_refl|].
  revert h. apply bindM_extends; [intros; apply lift_extends|].
  intros items. apply surface_items_extends.
Qed.

Lemma region_items_extends (items : list pyval) :
  forall stats h, extends h (region_items repr items stats h).2.
Proof.
  induction items as [|item items IH]; intros stats; cbn [region_items].
  - intros h. apply extends_refl.
  - do 6 (apply bindM_extends; [intros; apply lift_extends|]; intros ?).
    apply bindM_extends; [apply parse_impression_range_extends|]. intros i.
    apply bindM_extends; [apply parse_surface_stats_extends|]. intros ss.
    apply bindM_extends; [intros h; apply (extends_new_reg _ h)|]. intros r.
    apply IH.
Qed.

Lemma region_items_cons (item : pyval) (rest : list pyval) (stats : list loc) (h : heap) :
  region_items repr (item :: rest) stats h =
    bindM (region_items repr [item] stats) (fun mid => region_items repr rest mid) h.
Proof.
  cbn [region_items]. unfold bindM, lift, retM.
  repeat match goal with
         | |- context [match py_get ?a ?b ?c with _ => _ end] => destruct (py_get a b c)
         end; try reflexivity.
  destruct (_parse_impression_range _ h) as [[i|e] h1]; [|reflexivity].
  destruct (_parse_surface_stats repr _ h1) as [[ss|e] h2]; [|reflexivity].
  destruct (run _ h2) as [[r|e] h3]; reflexivity.
Qed.

(** What one raw region entry adds to the store. *)
Lemma region_item_step (item : pyval) (stats : list loc) (h : heap)
    (mid : list loc) (h3 : heap) :
  region_items repr [item] stats h = (Ok mid, h3) ->
  exists r,
    mid = stats ++ [r] /\ (next h < r)%nat /\
    imp_of h3 r = next h /\ imps h3 (next h) = item_range item /\
    Forall (fun s => (next h < simp_of h3 s)%nat) (surfaces_of h3 r).
Proof.
  cbn [region_items]. intros Hrun.
  apply bindM_Ok in Hrun as (raw & h0 & Hraw & Hrun). apply lift_Ok in Hraw as [Hraw ->].
  apply bindM_Ok in Hrun as (sraw & h0 & Hg & Hrun). apply lift_Ok in Hg as [_ ->].
  apply bindM_Ok in Hrun as (code & h0 & Hg & Hrun). apply lift_Ok in Hg as [_ ->].
  apply bindM_Ok in Hrun as (name & h0 & Hg & Hrun). apply lift_Ok in Hg as [_ ->].
  apply bindM_Ok in Hrun as (first & h0 & Hg & Hrun). apply lift_Ok in Hg as [_ ->].
  apply bindM_Ok in Hrun as (last & h0 & Hg & Hrun). apply lift_Ok in Hg as [_ ->].
  apply bindM_Ok in Hrun as (i & h1 & Hi & Hrun).
  assert (Hrange : i = next h /\ next h1 = S (next h) /\ imps h1 (next h) = item_range item).
  { unfold _parse_impression_range in Hi.
    apply bindM_Ok in Hi as (b & h0 & Hb & Hi). apply lift_Ok in Hb as [Hb ->].
    unfold run in Hi. cbn in Hi. injection Hi as <- <-. cbn.
    split; [reflexivity|]. split; [reflexivity|].
    unfold item_range. rewrite Hraw, Hb. apply fn_lookup_insert. }
  destruct Hrange as (-> & Hn1 & Himp).
  apply bindM_Ok in Hrun as (ss & h2 & Hss & Hrun).
  apply parse_surface_stats_owned in Hss as ([Hn12 Hobj] & Hr2 & _ & Hall2).
  apply bindM_Ok in Hrun as (r & h3' & Hr & Hrun).
  unfold run in Hr. cbn in Hr. injection Hr as <- <-.
  cbn in Hrun. injection Hrun as <- <-.
  exists (next h2). split; [reflexivity|]. split; [lia|].
  unfold imp_of, surfaces_of, simp_of. cbn [regs imps surfs]. rewrite fn_lookup_insert. cbn.
  split; [reflexivity|]. split.
  - destruct (Hobj (next h) ltac:(lia)) as (-> & _). exact Himp.
  - eapply Forall_impl; [exact Hall2|]. intros s [_ Hs]. unfold simp_of in Hs. lia.
Qed.
End parse_extends.

Lemma elem_of_impression_objects (h : heap) (rs : list loc) (i : loc) :
  i ∈ impression_objects h rs <->
  exists r, r ∈ rs /\ (i = imp_of h r \/ exists s, s ∈ surfaces_of h r /\ i = simp_of h s).
Proof.
  unfold impression_objects. rewrite elem_of_app, !elem_of_map. split.
  - intros [(r & -> & Hr)|(s & -> & Hs)]; [eauto|].
    apply elem_of_all_surfaces in Hs as (r & Hr & Hs). eauto 6.
  - intros (r & Hr & [->|(s & Hs & ->)]); [eauto|].
    right. exists s. split; [reflexivity|]. apply elem_of_all_surfaces. eauto.
Qed.

Section parsed_regions.
Variable repr : pyval -> string.

(** The regions [region_items] builds are new objects that own new ranges,
    one region per raw entry, in order, with the range of the entry. *)
Lemma region_items_parsed (lo : loc) (items : list pyval) :
  forall stats done h out h',
    owned h stats -> (lo <= next h)%nat -> fresh_since lo h stats ->
    map (fun r => imps h (imp_of h r)) stats = map item_range done ->
    region_items repr items stats h = (Ok out, h') ->
    owned h' out /\ fresh_since lo h' out /\
    map (fun r => imps h' (imp_of h' r)) out = map item_range (done ++ items).
Proof.
  induction items as [|item items IH]; intros stats done h out h' Hown Hlo Hfresh Hmap Hrun.
  - cbn in Hrun. injection Hrun as <- <-. rewrite app_nil_r. auto.
  - rewrite region_items_cons in Hrun.
    apply bindM_Ok in Hrun as (mid & h3 & Hstep & Hrun).
    pose proof (region_items_extends repr [item] stats h) as Hext.
    rewrite Hstep in Hext. cbn [snd] in Hext.
    pose proof (region_items_owned repr [item] stats h mid h3 Hown Hstep) as Hown3.
    apply region_item_step in Hstep as (r & -> & Hr & Himp & Hrange & Hsurf).
    replace (done ++ item :: items) with ((done ++ [item]) ++ items)
      by (rewrite <- app_assoc; reflexivity).
    apply (IH _ (done ++ [item]) _ _ _ Hown3) in Hrun;
      [exact Hrun | destruct Hext; lia | |]; clear IH Hrun.
    + destruct Hown as (_ & Hlt & Hrs & Hsf). destruct Hfresh as [Hfr Hfi].
      destruct Hext as [_ Hobj]. rewrite Forall_forall in Hlt, Hrs, Hsf, Hfr, Hfi.
      split.
      * apply Forall_app. split; [apply Forall_forall, Hfr|]. apply Forall_singleton. lia.
      * apply Forall_forall. intros i Hi.
        apply elem_of_impression_objects in Hi as (x & Hx & Hi).
        apply elem_of_app in Hx as [Hx|Hx].
        -- apply Hfi, elem_of_impression_objects. exists x. split; [exact Hx|].
           destruct (Hobj x (Hrs x Hx)) as (_ & _ & Hregs).
           unfold imp_of, surfaces_of in *. rewrite Hregs in Hi.
           destruct Hi as [->|(s & Hs & ->)]; [left; reflexivity|].
           right. exists s. split; [exact Hs|].
           assert (Hsin : s ∈ all_surfaces h stats) by (apply elem_of_all_surfaces; eauto).
           destruct (Hobj s (Hsf s Hsin)) as (_ & Hsame & _).
           unfold simp_of. rewrite Hsame. reflexivity.
        -- apply list_elem_of_singleton in Hx as ->.
           destruct Hi as [->|(s & Hs & ->)]; [lia|].
           rewrite Forall_forall in Hsurf. specialize (Hsurf s Hs). lia.
    + destruct Hown as (_ & Hlt & Hrs & _). destruct Hext as [_ Hobj].
      rewrite Forall_forall in Hlt, Hrs.
      rewrite !map_app, <- Hmap. cbn [map]. rewrite Himp, Hrange. f_equal.
      apply map_ext_elem. intros x Hx.
      destruct (Hobj x (Hrs x Hx)) as (_ & _ & Hregs).
      unfold imp_of. rewrite Hregs.
      assert (Hi : impressions (regs h x) ∈ impression_objects h stats).
      { apply elem_of_impression_objects. exists x. auto. }
      destruct (Hobj _ (Hlt _ Hi)) as (-> & _). reflexivity.
Qed.

Lemma parse_region_stats_Ok (raw : pyval) (h : heap) (out : list loc) (h' : heap) :
  _parse_region_stats repr raw h = (Ok out, h') ->
  (truthy raw = false /\ out = [] /\ h' = h) \/
  exists items stats h1,
    truthy raw = true /\ py_iter raw = Ok items /\
    region_items repr items [] h = (Ok stats, h1) /\
    normalize_region_stats stats h1 = (out, h').
Proof.
  unfold _parse_region_stats. destruct (truthy raw); cbn [negb].
  - intros Hrun. right.
    apply bindM_Ok in Hrun as (items & h0 & Hit & Hrun). apply lift_Ok in Hit as [Hit ->].
    apply bindM_Ok in Hrun as (stats & h1 & Hstats & Hrun).
    unfold run in Hrun. destruct (normalize_region_stats stats h1) as [out' h2] eqn:Hn.
    injection Hrun as <- <-. exists items, stats, h1. split_and!; auto.
  - intros [= <- <-]. auto.
Qed.

Lemma owned_nil (h : heap) : owned h [].
Proof. split; [constructor|]. split; [constructor|]. split; constructor. Qed.

(** Normalizing freshly built regions leaves the older objects alone. *)
Lemma normalize_fresh_extends (lo : loc) (stats : list loc) (h : heap) :
  fresh_since lo h stats ->
  forall l, (l < lo)%nat ->
    imps (normalize_region_stats stats h).2 l = imps h l /\
    surfs (normalize_region_stats stats h).2 l = surfs h l /\
    regs (normalize_region_stats stats h).2 l = regs h l.
Proof.
  intros [Hfr Hfi] l Hl. rewrite Forall_forall in Hfr, Hfi.
  destruct (normalize_frame stats h) as (Hs & _ & Hregs & Himps).
  split; [|split].
  - apply Himps. intros Hin. specialize (Hfi l Hin). lia.
  - rewrite Hs. reflexivity.
  - apply Hregs. intros Hin. specialize (Hfr l Hin). lia.
Qed.

Lemma parse_region_stats_extends (raw : pyval) (h : heap) :
  extends h (_parse_region_stats repr raw h).2.
Proof.
  unfold _parse_region_stats. destruct (negb (truthy raw)); [apply extends_refl|].
  unfold bindM at 1, lift. destruct (py_iter raw) as [items|e]; [|apply extends_refl].
  unfold bindM. pose proof (region_items_extends repr items [] h) as Hext.
  destruct (region_items repr items [] h) as [[stats|e] h1] eqn:Hrun; cbn [snd] in *;
    [|exact Hext].
  destruct (region_items_parsed (next h) items [] [] h stats h1) as (_ & Hfresh & _);
    [apply owned_nil | lia | split; constructor | reflexivity | exact Hrun |].
  unfold run.
  pose proof (normalize_fresh_extends (next h) stats h1 Hfresh) as Hold.
  destruct (normalize_frame stats h1) as (_ & Hnext & _).
  destruct (normalize_region_stats stats h1) as [out h2]. cbn [snd] in *.
  destruct Hext as [Hn Hobj]. split; [lia|].
  intros l Hl. destruct (Hold l Hl) as (-> & -> & ->). apply Hobj, Hl.
Qed.

Lemma build_ad_extends (raw : pyval) : forall h, extends h (build_ad repr raw h).2.
Proof.
  unfold build_ad.
  do 10 (apply bindM_extends; [intros; apply lift_extends|]; intros ?).
  apply bindM_extends; [apply parse_region_stats_extends|]. intros regions.
  do 4 (apply bindM_extends; [intros; apply lift_extends|]; intros ?).
  intros h. apply extends_refl.
Qed.

Lemma parse_ads_from_extends (raw_ads : list pyval) :
  forall parsed h, extends h (parse_ads_from repr raw_ads parsed h).2.
Proof.
  induction raw_ads as [|raw raw_ads IH]; intros parsed; cbn [parse_ads_from].
  - intros h. apply extends_refl.
  - apply bindM_extends; [|intros; apply IH].
    apply try_exceptM_extends; [|intros; apply extends_refl].
    apply bindM_extends; [apply build_ad_extends|]. intros ad h. apply extends_refl.
Qed.
End parsed_regions.

(** X10: parsing never changes an object that existed before the call:
    [build_ad] and [parse_ads] only allocate, and the merging that
    [normalize_region_stats] does in place is confined to the objects the
    call itself created.  This holds whether or not an entry fails. *)
Theorem parse_ads_preserves_store (repr : pyval -> string) :
  (forall raw h, extends h (build_ad repr raw h).2) /\
  (forall raw_ads h, extends h (parse_ads repr raw_ads h).2).
Proof.
  split.
  - intros raw h. apply build_ad_extends.
  - intros raw_ads h. exact (parse_ads_from_extends repr raw_ads [] h).
Qed.

(** X11: when [_parse_region_stats] returns, the regions it returns are
    objects created by the call, there are at most as many as raw entries,
    and their impression ranges add up to the sum of the ranges of the raw
    entries: merging duplicates loses no impressions. *)
Theorem parse_region_stats_totals (repr : pyval -> string) (raw : pyval)
    (items : list pyval) (h : heap) (out : list loc) (h' : heap) :
  py_iter raw = Ok items ->
  _parse_region_stats repr raw h = (Ok out, h') ->
  Forall (fun c => (next h <= c < next h')%nat) out /\
  (length out <= length items)%nat /\
  range_sum (map (fun c => imps h' (imp_of h' c)) out) = range_sum (map item_range items).
Proof.
  intros Hiter Hrun.
  apply parse_region_stats_Ok in Hrun
    as [(Hfalsy & -> & ->)|(items' & stats & h1 & _ & Hiter' & Hstats & Hnorm)].
  - split; [constructor|]. split; [cbn; lia|]. cbn [map].
    destruct raw; try discriminate; cbn in Hiter; injection Hiter as <-.
    + destruct s; [reflexivity | discriminate].
    + destruct xs; [reflexivity | discriminate].
    + destruct kvs; [reflexivity | discriminate].
  - rewrite Hiter in Hiter'. injection Hiter' as <-.
    destruct (region_items_parsed repr (next h) items [] [] h stats h1)
      as (Hown & [Hfresh _] & Hmap);
      [apply owned_nil | lia | split; constructor | reflexivity | exact Hstats |].
    cbn [app] in Hmap.
    pose proof (normalize_region_totals stats h1 (proj1 Hown)) as Htot.
    pose proof (normalize_frame stats h1) as (_ & Hnext & _).
    assert (Hperm : Permutation (normalize_region_stats stats h1).1
                      (first_occurrences (region_key h1) [] stats)).
    { destruct (normalize_spec stats h1) as (? & ? & _ & _ & _ & _ & _ & ->).
      apply sorted_by_Permutation. }
    rewrite Hnorm in Htot, Hnext, Hperm. cbn [fst snd] in *.
    rewrite Htot, Hmap.
    assert (Hlen : length stats = length items).
    { rewrite <- (length_map (fun r => imps h1 (imp_of h1 r)) stats), Hmap, length_map.
      reflexivity. }
    split; [|split; [|reflexivity]].
    + destruct Hown as (_ & _ & Hrs & _). rewrite Forall_forall in Hfresh, Hrs.
      apply Forall_forall. intros c Hc. rewrite Hperm in Hc.
      apply first_occurrences_subset in Hc.
      specialize (Hfresh c Hc). specialize (Hrs c Hc). lia.
    + rewrite (Permutation_length Hperm), <- Hlen. apply first_occurrences_length.
Qed.

Lemma parse_region_stats_totals_witness :
  let h' := (_parse_region_stats (fun _ => "") (PList raw_regions) empty_heap).2 in
  Forall (fun c => (next empty_heap <= c < next h')%nat) [5%nat; 1%nat] /\
  (length [5%nat; 1%nat] <= length raw_regions)%nat /\
  range_sum (map (fun c => imps h' (imp_of h' c)) [5%nat; 1%nat]) =
    range_sum (map item_range raw_regions).
Proof.
  apply (parse_region_stats_totals (fun _ => "") (PList raw_regions) raw_regions empty_heap);
    [reflexivity|].
  vm_compute. reflexivity.
Defined.

(** ** [ads_parser._parse_variations] *)

Lemma variation_items_mappings (items : list pyval) :
  forall acc,
    Forall is_mapping items ->
    variation_items items acc = Ok (acc ++ map variation_of items).
Proof.
  induction items as [|item items IH]; intros acc Hall; cbn [variation_items map].
  - rewrite app_nil_r. reflexivity.
  - apply Forall_cons in Hall as [Hitem Hall]. destruct item; try contradiction.
    cbn. rewrite (IH _ Hall), <- app_assoc. reflexivity.
Qed.

Lemma variation_items_other (items : list pyval) :
  forall acc,
    ~ Forall is_mapping items ->
    variation_items items acc = Raise AttributeError.
Proof.
  induction items as [|item items IH]; intros acc Hnot; cbn [variation_items].
  - destruct Hnot. constructor.
  - destruct item; try reflexivity. cbn. apply IH.
    intros Hall. apply Hnot. constructor; [exact I | exact Hall].
Qed.

(** X12: on a list, [_parse_variations] returns one variation per entry, in
    order, each holding the four looked-up values ([None] for a missing
    key), provided every entry is a mapping; as soon as one entry is not a
    mapping the call raises [AttributeError], whatever the other entries
    are.  The values are not converted: a variation field holds whatever
    the raw entry held. *)
Theorem parse_variations_list (items : list pyval) :
  (Forall is_mapping items ->
   _parse_variations (PList items) = Ok (map variation_of items)) /\
  (~ Forall is_mapping items ->
   _parse_variations (PList items) = Raise AttributeError) /\
  (forall vs, _parse_variations (PList items) = Ok vs -> length vs = length items).
Proof.
  assert (Hyes : Forall is_mapping items ->
                 _parse_variations (PList items) = Ok (map variation_of items)).
  { intros Hall. unfold _parse_variations. destruct items as [|item items]; [reflexivity|].
    cbn [truthy negb py_iter mbind result_bind].
    apply (variation_items_mappings (item :: items) [] Hall). }
  assert (Hno : ~ Forall is_mapping items ->
                _parse_variations (PList items) = Raise AttributeError).
  { intros Hnot. unfold _parse_variations. destruct items as [|item items].
    - destruct Hnot. constructor.
    - cbn [truthy negb py_iter mbind result_bind].
      apply (variation_items_other (item :: items) [] Hnot). }
  split; [exact Hyes|]. split; [exact Hno|].
  intros vs Hrun.
  assert (Hdec : Forall is_mapping items \/ ~ Forall is_mapping items).
  { clear. induction items as [|item items [IH|IH]].
    - left. constructor.
    - destruct item;
        try solve [right; intros Hall; apply Forall_cons in Hall as [[] _]].
      left. constructor; [exact I | exact IH].
    - right. intros Hall. apply Forall_cons in Hall as [_ Hall]. contradiction. }
  destruct Hdec as [Hall|Hnot].
  - rewrite (Hyes Hall) in Hrun. injection Hrun as <-. apply length_map.
  - rewrite (Hno Hnot) in Hrun. discriminate.
Qed.

(** ** More on [AdRecord.to_flat_dicts] *)

Lemma for_regions_product (self : AdRecord) (h : heap) (regions : list loc) :
  forall rows,
    Forall (fun r => surfaces_of h r <> []) regions ->
    for_regions (base_dict self) (targeting_dict self) (variations_or_default self)
      regions rows h = (rows ++ product_rows self h regions, h).
Proof.
  induction regions as [|r regions IH]; intros rows Hall; cbn [for_regions].
  - unfold product_rows. cbn. rewrite app_nil_r. reflexivity.
  - apply Forall_cons in Hall as [Hr Hall].
    assert (Hs : surfaces_or_default h r = (surfaces_of h r, h)).
    { unfold surfaces_or_default, surfaces_of in *.
      destruct (surface_serving_stats (regs h r)); [contradiction | reflexivity]. }
    rewrite Hs, (IH _ Hall), for_surfaces_app, <- app_assoc. reflexivity.
Qed.

(** X13: a record that has regions, each of which has surfaces, is flattened
    without any allocation, and its rows are exactly the combinations
    region by region, within a region surface by surface, within a surface
    variation by variation (with the one placeholder variation when the
    record has none). *)
Theorem to_flat_dicts_product (self : AdRecord) (h : heap) :
  region_stats self <> [] ->
  Forall (fun r => surfaces_of h r <> []) (region_stats self) ->
  to_flat_dicts self h = (product_rows self h (region_stats self), h).
Proof.
  intros Hne Hall. unfold to_flat_dicts.
  assert (Hr : regions_or_default self h = (region_stats self, h)).
  { unfold regions_or_default. destruct (region_stats self); [contradiction | reflexivity]. }
  rewrite Hr. apply (for_regions_product self h (region_stats self) [] Hall).
Qed.

Lemma to_flat_dicts_product_witness :
  to_flat_dicts example_ad example_heap =
    (product_rows example_ad example_heap [1%nat; 0%nat], example_heap).
Proof.
  apply (to_flat_dicts_product example_ad example_heap).
  - discriminate.
  - repeat constructor; discriminate.
Defined.

(** ** [export_manager]: the rows and the CSV file *)

Lemma to_flat_dicts_length (self : AdRecord) (h : heap) :
  length (to_flat_dicts self h).1 = row_count self h.
Proof.
  unfold to_flat_dicts, row_count, regions_or_default.
  destruct (region_stats self) as [|r rs] eqn:Hrs.
  - unfold new_imp, new_reg. cbv beta iota zeta.
    rewrite for_regions_length, variations_or_default_length.
    unfold rows_of_region, surfaces_of. cbn [map regs sum_list sum_list_with length].
    rewrite fn_lookup_insert. cbn [surface_serving_stats length]. unfold id.
    change (Nat.max 1 0) with 1%nat. lia.
  - rewrite for_regions_length, variations_or_default_length. reflexivity.
Qed.

Lemma row_count_pos (self : AdRecord) (h : heap) : (1 <= row_count self h)%nat.
Proof.
  unfold row_count. destruct (region_stats self) as [|r rs]; [lia|].
  cbn [map sum_list sum_list_with]. unfold rows_of_region at 1. unfold id. nia.
Qed.

Lemma row_count_extends (self : AdRecord) (h h' : heap) :
  allocated h self -> extends h h' -> row_count self h' = row_count self h.
Proof.
  intros Hall [_ Hobj]. unfold row_count. destruct (region_stats self) as [|r rs] eqn:Hrs;
    [reflexivity|].
  f_equal. apply map_ext_elem. intros x Hx.
  unfold allocated in Hall. rewrite Hrs, Forall_forall in Hall.
  destruct (Hobj x (Hall x Hx)) as (_ & _ & Hregs).
  unfold rows_of_region, surfaces_of. rewrite Hregs. reflexivity.
Qed.

Lemma allocated_extends (self : AdRecord) (h h' : heap) :
  allocated h self -> extends h h' -> allocated h' self.
Proof.
  intros Hall [Hn _]. unfold allocated in *.
  eapply Forall_impl; [exact Hall|]. intros r Hr. simpl in *. lia.
Qed.

Lemma to_flat_dicts_keys (self : AdRecord) (h : heap) :
  Forall (fun x : row => od_keys x = row_keys self) (to_flat_dicts self h).1.
Proof.
  apply Forall_forall. intros x Hx.
  apply to_flat_dicts_rows in Hx as (r & h' & s & v & _ & _ & _ & _ & _ & ->).
  apply make_row_keys.
Qed.

Lemma rows_from_app (ads : list AdRecord) :
  forall rows h,
    export_manager.rows_from ads rows h =
      (rows ++ (export_manager.rows_from ads [] h).1, (export_manager.rows_from ads [] h).2).
Proof.
  induction ads as [|ad ads IH]; intros rows h; cbn [export_manager.rows_from].
  - cbn. rewrite app_nil_r. reflexivity.
  - destruct (to_flat_dicts ad h) as [flat h1].
    rewrite (IH (rows ++ flat)), (IH ([] ++ flat)). cbn [fst snd app].
    rewrite app_assoc. reflexivity.
Qed.

Lemma rows_cons (ad : AdRecord) (ads : list AdRecord) (h : heap) :
  export_manager._rows (ad :: ads) h =
    ((to_flat_dicts ad h).1 ++ (export_manager._rows ads (to_flat_dicts ad h).2).1,
     (export_manager._rows ads (to_flat_dicts ad h).2).2).
Proof.
  unfold export_manager._rows. cbn [export_manager.rows_from].
  destruct (to_flat_dicts ad h) as [flat h1]. apply rows_from_app.
Qed.

Lemma rows_extends (ads : list AdRecord) :
  forall h, extends h (export_manager._rows ads h).2.
Proof.
  induction ads as [|ad ads IH]; intros h.
  - apply extends_refl.
  - rewrite rows_cons. cbn [snd].
    eapply extends_trans; [apply to_flat_dicts_extends | apply IH].
Qed.


Lemma to_flat_dicts_first (ad : AdRecord) (h : heap) :
  exists x xs, (to_flat_dicts ad h).1 = x :: xs /\ od_keys x = row_keys ad.
Proof.
  pose proof (to_flat_dicts_length ad h) as Hlen.
  pose proof (row_count_pos ad h) as Hpos.
  pose proof (to_flat_dicts_keys ad h) as Hk.
  destruct (to_flat_dicts ad h).1 as [|x xs]; [cbn in Hlen; lia|].
  apply Forall_cons in Hk as [Hk _]. eauto.
Qed.

Lemma rows_covers (ads : list AdRecord) :
  forall h ad,
    ad ∈ ads -> exists x, x ∈ (export_manager._rows ads h).1 /\ od_keys x = row_keys ad.
Proof.
  induction ads as [|a ads IH]; intros h ad Hin.
  - inversion Hin.
  - rewrite rows_cons. cbn [fst]. apply elem_of_cons in Hin as [->|Hin].
    + destruct (to_flat_dicts_first a h) as (x & xs & Heq & Hk).
      exists x. split; [|exact Hk]. rewrite Heq. left.
    + destruct (IH (to_flat_dicts a h).2 ad Hin) as (x & Hx & Hk).
      exists x. split; [|exact Hk]. apply elem_of_app. right. exact Hx.
Qed.

(** X14: [_rows] only allocates, and when the regions of the records are
    objects of the store it returns, for every record in turn, as many rows
    as the row count law gives it: at least one row per record. *)
Theorem rows_count (ads : list AdRecord) (h : heap) :
  Forall (allocated h) ads ->
  length (export_manager._rows ads h).1 = sum_list (map (fun ad => row_count ad h) ads) /\
  (length ads <= length (export_manager._rows ads h).1)%nat /\
  extends h (export_manager._rows ads h).2.
Proof.
  intros Hall.
  assert (Hlen : length (export_manager._rows ads h).1 =
                 sum_list (map (fun ad => row_count ad h) ads)).
  { revert h Hall. induction ads as [|ad ads IH]; intros h Hall; [reflexivity|].
    apply Forall_cons in Hall as [Had Hall].
    pose proof (to_flat_dicts_extends ad h) as Hext.
    rewrite rows_cons. cbn [fst map sum_list sum_list_with].
    rewrite length_app, to_flat_dicts_length, IH.
    - f_equal. f_equal. apply map_ext_elem. intros a Ha.
      rewrite Forall_forall in Hall. apply row_count_extends; [apply Hall, Ha | exact Hext].
    - eapply Forall_impl; [exact Hall|]. intros a Ha. eapply allocated_extends; eassumption. }
  split; [exact Hlen|]. split; [|apply rows_extends].
  rewrite Hlen. clear. induction ads as [|ad ads IH]; cbn [map sum_list sum_list_with length];
    [lia|].
  pose proof (row_count_pos ad h) as Hpos. unfold id in *. lia.
Qed.

Lemma rows_count_witness :
  length (export_manager._rows [example_ad; targeted_ad] example_heap).1 =
    sum_list (map (fun ad => row_count ad example_heap) [example_ad; targeted_ad]) /\
  (length [example_ad; targeted_ad] <=
     length (export_manager._rows [example_ad; targeted_ad] example_heap).1)%nat /\
  extends example_heap (export_manager._rows [example_ad; targeted_ad] example_heap).2.
Proof.
  apply (rows_count [example_ad; targeted_ad] example_heap).
  repeat constructor; cbn; lia.
Defined.

Lemma dict_to_list_Ok (fieldnames : list string) (rowdict : row) :
  (forall k, k ∈ od_keys rowdict -> k ∈ fieldnames) ->
  _dict_to_list fieldnames rowdict = Ok (csv_line fieldnames rowdict).
Proof.
  intros Hsub. unfold _dict_to_list.
  assert (Hall : forallb (fun k => bool_decide (k ∈ fieldnames)) (od_keys rowdict) = true).
  { induction (od_keys rowdict) as [|k ks IH]; [reflexivity|]. cbn [forallb].
    rewrite bool_decide_eq_true_2 by (apply Hsub; left).
    apply IH. intros k' Hk'. apply Hsub. right. exact Hk'. }
  rewrite Hall. reflexivity.
Qed.

Lemma dict_to_list_Raise (fieldnames : list string) (rowdict : row) (k : string) :
  k ∈ od_keys rowdict -> k ∉ fieldnames ->
  _dict_to_list fieldnames rowdict = Raise ValueError.
Proof.
  intros Hin Hnot. unfold _dict_to_list.
  assert (Hall : forallb (fun k => bool_decide (k ∈ fieldnames)) (od_keys rowdict) = false).
  { induction (od_keys rowdict) as [|k' ks IH]; [inversion Hin|]. cbn [forallb].
    apply elem_of_cons in Hin as [<-|Hin].
    - rewrite bool_decide_eq_false_2 by exact Hnot. reflexivity.
    - rewrite (IH Hin). apply andb_false_r. }
  rewrite Hall. reflexivity.
Qed.

Lemma writerows_Ok (fieldnames : list string) (rowdicts : list row) :
  forall file,
    Forall (fun r : row => forall k, k ∈ od_keys r -> k ∈ fieldnames) rowdicts ->
    writerows fieldnames rowdicts file = (Ok tt, file ++ map (csv_line fieldnames) rowdicts).
Proof.
  induction rowdicts as [|r rowdicts IH]; intros file Hall; cbn [writerows map].
  - rewrite app_nil_r. reflexivity.
  - apply Forall_cons in Hall as [Hr Hall].
    rewrite (dict_to_list_Ok _ _ Hr), (IH _ Hall), <- app_assoc. reflexivity.
Qed.

Lemma writerows_Raise (fieldnames : list string) (rowdicts : list row) :
  forall file,
    Exists (fun r : row => exists k, k ∈ od_keys r /\ k ∉ fieldnames) rowdicts ->
    (writerows fieldnames rowdicts file).1 = Raise ValueError.
Proof.
  induction rowdicts as [|r rowdicts IH]; intros file Hex; cbn [writerows].
  - inversion Hex.
  - destruct (_dict_to_list fieldnames r) as [line|e] eqn:Hline.
    + apply IH. apply Exists_cons in Hex as [(k & Hin & Hnot)|Hex]; [|exact Hex].
      rewrite (dict_to_list_Raise _ _ k Hin Hnot) in Hline. discriminate.
    + unfold _dict_to_list in Hline. destruct (forallb _ _); [discriminate|].
      injection Hline as <-. reflexivity.
Qed.

Lemma row_keys_cases (self : AdRecord) :
  (targeting self <> None /\ row_keys self = full_key_set) \/
  (targeting self = None /\ row_keys self = plain_key_set).
Proof.
  unfold row_keys, targeting_dict. destruct (targeting self); [left | right].
  - split; [discriminate | reflexivity].
  - split; reflexivity.
Qed.


Lemma targeting_key_not_plain : "targetingDemographicsTrue" ∉ plain_key_set.
Proof. apply (bool_decide_unpack _). vm_compute. exact I. Qed.

Lemma targeting_key_full : "targetingDemographicsTrue" ∈ full_key_set.
Proof. apply (bool_decide_unpack _). vm_compute. exact I. Qed.

Lemma export_csv_unfold (ad : AdRecord) (rest : list AdRecord) (h : heap) :
  (export_manager.export_csv (ad :: rest) h).1 =
    writerows (row_keys ad) (export_manager._rows (ad :: rest) h).1
      (writeheader (row_keys ad)).
Proof.
  unfold export_manager.export_csv.
  destruct (to_flat_dicts_first ad h) as (x & xs & Heq & Hk).
  pose proof (rows_cons ad rest h) as Hrows. rewrite Heq in Hrows.
  destruct (export_manager._rows (ad :: rest) h) as [rows h1].
  injection Hrows as -> _. cbn [app fst]. rewrite Hk. reflexivity.
Qed.


(** X16: when the first record has no targeting and a later one has,
    [export_csv] raises [ValueError]: the header is taken from the first
    row, and [DictWriter] rejects the targeting keys of the later rows. *)
Theorem export_csv_raises (ad : AdRecord) (rest : list AdRecord) (h : heap) :
  targeting ad = None ->
  Exists (fun a => targeting a <> None) rest ->
  (export_manager.export_csv (ad :: rest) h).1.1 = Raise ValueError.
Proof.
  intros Hnone Hex. rewrite export_csv_unfold.
  destruct (row_keys_cases ad) as [[Hsome _]|[_ ->]]; [contradiction|].
  apply writerows_Raise. apply Exists_exists in Hex as (a & Ha & Hsome).
  destruct (rows_covers (ad :: rest) h a) as (x & Hx & Hk); [right; exact Ha|].
  apply Exists_exists. exists x. split; [exact Hx|].
  exists "targetingDemographicsTrue". rewrite Hk.
  destruct (row_keys_cases a) as [[_ ->]|[Hn _]]; [|contradiction].
  split; [apply targeting_key_full | apply targeting_key_not_plain].
Qed.


Lemma export_csv_raises_witness :
  (export_manager.export_csv [blank_ad; targeted_ad] empty_heap).1.1 = Raise ValueError.
Proof.
  apply (export_csv_raises blank_ad [targeted_ad] empty_heap).
  - reflexivity.
  - left. discriminate.
Defined.

(** ** [export_manager.export_html]: the nested [_escape] *)

Lemma replace_char_app (old : ascii) (new a b : string) :
  export_manager.replace_char old new (a ++ b)%string =
    (export_manager.replace_char old new a ++ export_manager.replace_char old new b)%string.
Proof.
  induction a as [|c a IH]; [reflexivity|].
  change (String c a ++ b)%string with (String c (a ++ b)%string).
  cbn [export_manager.replace_char]. rewrite IH.
  destruct (Ascii.eqb c old); [|reflexivity].
  generalize (export_manager.replace_char old new a) (export_manager.replace_char old new b).
  intros x y. clear. induction new as [|d new IHn]; [reflexivity|].
  change (String d new ++ (x ++ y))%string with (String d (new ++ (x ++ y))%string).
  rewrite IHn. reflexivity.
Qed.

(** The four replacements in a row are one pass over the characters: what
    an earlier replacement inserts is not touched by a later one. *)
Lemma escape_one_pass (value : string) :
  export_manager._escape value = escape_all value.
Proof.
  unfold export_manager._escape.
  induction value as [|c value IH]; [reflexivity|].
  cbn [escape_all export_manager.replace_char]. unfold escape_char.
  destruct (Ascii.eqb_spec c "&") as [->|Hamp].
  - rewrite !replace_char_app, IH. reflexivity.
  - cbn [export_manager.replace_char].
    destruct (Ascii.eqb_spec c "<") as [->|Hlt].
    + rewrite !replace_char_app, IH. reflexivity.
    + cbn [export_manager.replace_char].
      destruct (Ascii.eqb_spec c ">") as [->|Hgt].
      * rewrite !replace_char_app, IH. reflexivity.
      * cbn [export_manager.replace_char].
        destruct (Ascii.eqb_spec c "034") as [->|Hq].
        -- rewrite IH. reflexivity.
        -- rewrite IH. reflexivity.
Qed.

Lemma occurs_app (c : ascii) (a b : string) :
  occurs c (a ++ b)%string = occurs c a || occurs c b.
Proof.
  induction a as [|d a IH]; [reflexivity|].
  change (String d a ++ b)%string with (String d (a ++ b)%string).
  cbn [occurs]. rewrite IH, orb_assoc. reflexivity.
Qed.

Lemma escape_all_clean (value : string) :
  occurs "<" (escape_all value) = false /\
  occurs ">" (escape_all value) = false /\
  occurs "034" (escape_all value) = false.
Proof.
  induction value as [|c value (IH1 & IH2 & IH3)]; [auto|].
  cbn [escape_all]. rewrite !occurs_app, IH1, IH2, IH3, !orb_false_r.
  unfold escape_char.
  destruct (Ascii.eqb_spec c "&") as [->|Hamp]; [auto|].
  destruct (Ascii.eqb_spec c "<") as [->|Hlt]; [auto|].
  destruct (Ascii.eqb_spec c ">") as [->|Hgt]; [auto|].
  destruct (Ascii.eqb_spec c "034") as [->|Hq]; [auto|].
  cbn [occurs]. rewrite !orb_false_r.
  split; [|split]; apply Ascii.eqb_neq; congruence.
Qed.

Lemma escape_char_cases (c : ascii) :
  (c = "&"%char /\ escape_char c = "&amp;") \/
  (c = "<"%char /\ escape_char c = "&lt;") \/
  (c = ">"%char /\ escape_char c = "&gt;") \/
  (c = "034"%char /\ escape_char c = "&quot;") \/
  (c <> "&"%char /\ escape_char c = String c "").
Proof.
  unfold escape_char.
  destruct (Ascii.eqb_spec c "&") as [->|Hamp]; [auto|].
  destruct (Ascii.eqb_spec c "<") as [->|Hlt]; [auto|].
  destruct (Ascii.eqb_spec c ">") as [->|Hgt]; [auto|].
  destruct (Ascii.eqb_spec c "034") as [->|Hq]; [auto 6|].
  auto 6.
Qed.

Lemma escape_all_inj (s : string) :
  forall t, escape_all s = escape_all t -> s = t.
Proof.
  induction s as [|c s IH]; intros [|d t] Heq; cbn [escape_all] in Heq.
  - reflexivity.
  - destruct (escape_char_cases d) as [[_ H]|[[_ H]|[[_ H]|[[_ H]|[_ H]]]]];
      rewrite H in Heq; discriminate.
  - destruct (escape_char_cases c) as [[_ H]|[[_ H]|[[_ H]|[[_ H]|[_ H]]]]];
      rewrite H in Heq; discriminate.
  - destruct (escape_char_cases c) as [[-> Hc]|[[-> Hc]|[[-> Hc]|[[-> Hc]|[Hc' Hc]]]]];
      destruct (escape_char_cases d) as [[-> Hd]|[[-> Hd]|[[-> Hd]|[[-> Hd]|[Hd' Hd]]]]];
      rewrite ?Hc, ?Hd in Heq; cbn [String.append] in Heq;
      try discriminate;
      try (injection Heq as Heq; f_equal; apply IH; exact Heq);
      try (injection Heq as Hx Heq; congruence).
    injection Heq as -> Heq. f_equal. apply IH, Heq.
Qed.

(** X17: [_escape] behaves as one pass that replaces every [&], [<], [>] and
    double quote by its entity (the ampersands of the entities it inserts
    are not escaped again); its result contains no [<], no [>] and no
    double quote; and two different strings are never escaped to the same
    text. *)
Theorem escape_spec :
  (forall value, export_manager._escape value = escape_all value) /\
  (forall value,
     occurs "<" (export_manager._escape value) = false /\
     occurs ">" (export_manager._escape value) = false /\
     occurs "034" (export_manager._escape value) = false) /\
  (forall s t, export_manager._escape s = export_manager._escape t -> s = t).
Proof.
  split; [exact escape_one_pass|]. split.
  - intros value. rewrite escape_one_pass. apply escape_all_clean.
  - intros s t. rewrite !escape_one_pass. apply escape_all_inj.
Qed.

(** ** [exporters]: flattening records and the CSV header *)

Section odict_more.
Context {K V : Type} `{EqDecision K}.

Lemma od_set_fresh (k : K) (v : V) (d : list (K * V)) :
  k ∉ od_keys d -> od_set k v d = d ++ [(k, v)].
Proof.
  induction d as [|[k' v'] d IH]; intros Hk; cbn [od_set app]; [reflexivity|].
  destruct (decide (k = k')) as [->|Hne].
  - destruct Hk. left.
  - rewrite IH; [reflexivity|]. intros Hin. apply Hk. right. exact Hin.
Qed.

Lemma od_keys_od_set (k : K) (v : V) (d : list (K * V)) (k' : K) :
  k' ∈ od_keys (od_set k v d) <-> k' = k \/ k' ∈ od_keys d.
Proof.
  unfold od_keys. induction d as [|[k0 v0] d IH]; cbn [od_set map fst].
  - rewrite list_elem_of_singleton. split; [auto|]. intros [?|Hin]; [auto | inversion Hin].
  - destruct (decide (k = k0)) as [->|Hne]; cbn [map fst].
    + rewrite !elem_of_cons. tauto.
    + rewrite !elem_of_cons, IH. tauto.
Qed.
End odict_more.

Section flatten_facts.
Variable json_dumps : pyval -> string.

#[local] Abbreviation flatten := (exporters._flatten_record_for_csv json_dumps).
#[local] Abbreviation flat_step :=
  (fun (flat : row) (kv : string * pyval) =>
     if exporters.is_scalar kv.2 then od_set kv.1 kv.2 flat
     else od_set kv.1 (PStr (json_dumps kv.2)) flat).

Lemma flat_step_set (flat : row) (kv : string * pyval) :
  flat_step flat kv = od_set kv.1 (flat_value json_dumps kv.2) flat.
Proof. unfold flat_value. destruct (exporters.is_scalar kv.2); reflexivity. Qed.

Lemma flat_value_scalar (v : pyval) : exporters.is_scalar (flat_value json_dumps v) = true.
Proof. unfold flat_value. destruct v; reflexivity. Qed.

Lemma flat_value_idem (v : pyval) :
  flat_value json_dumps (flat_value json_dumps v) = flat_value json_dumps v.
Proof. unfold flat_value at 1. rewrite flat_value_scalar. reflexivity. Qed.

Lemma flatten_fold (record : row) :
  forall flat,
    NoDup (od_keys flat ++ od_keys record) ->
    fold_left flat_step record flat =
      flat ++ map (fun kv => (kv.1, flat_value json_dumps kv.2)) record.
Proof.
  induction record as [|[k v] record IH]; intros flat Hnd; cbn [fold_left map].
  - rewrite app_nil_r. reflexivity.
  - rewrite flat_step_set. cbn [fst snd].
    assert (Hk : k ∉ od_keys flat).
    { apply NoDup_app in Hnd as (_ & Hdisj & _). intros Hin. apply (Hdisj k Hin). left. }
    rewrite (od_set_fresh _ _ _ Hk), IH, <- app_assoc; [reflexivity|].
    unfold od_keys in *. rewrite map_app. cbn [map fst] in *.
    rewrite <- app_assoc. exact Hnd.
Qed.

Lemma flatten_keys_fold (record : row) (k : string) :
  forall flat,
    k ∈ od_keys (fold_left flat_step record flat) <-> k ∈ od_keys flat \/ k ∈ od_keys record.
Proof.
  induction record as [|[k0 v0] record IH]; intros flat; cbn [fold_left].
  - split; [auto|]. intros [?|Hin]; [auto | inversion Hin].
  - rewrite IH, flat_step_set, od_keys_od_set.
    change (od_keys ((k0, v0) :: record)) with (k0 :: od_keys record).
    rewrite elem_of_cons. cbn [fst]. tauto.
Qed.

Lemma flatten_keys (record : row) (k : string) :
  k ∈ od_keys (flatten record) <-> k ∈ od_keys record.
Proof.
  unfold exporters._flatten_record_for_csv. rewrite flatten_keys_fold.
  split; [intros [Hin|?]; [inversion Hin | assumption] | auto].
Qed.

Lemma flatten_map (record : row) :
  NoDup (od_keys record) ->
  flatten record = map (fun kv => (kv.1, flat_value json_dumps kv.2)) record.
Proof.
  intros Hnd. unfold exporters._flatten_record_for_csv.
  rewrite flatten_fold; [reflexivity | exact Hnd].
Qed.
End flatten_facts.

(** X18: on a record (a dictionary: its keys are distinct)
    [_flatten_record_for_csv] keeps the keys and their order, leaves a
    string, a number, a boolean and [None] as they are and replaces a list
    or a mapping by its JSON text, so that no value of the result is a list
    or a mapping; flattening the result again changes nothing. *)
Theorem flatten_record_scalars (json_dumps : pyval -> string) (record : row) :
  NoDup (od_keys record) ->
  exporters._flatten_record_for_csv json_dumps record =
    map (fun kv => (kv.1, flat_value json_dumps kv.2)) record /\
  od_keys (exporters._flatten_record_for_csv json_dumps record) = od_keys record /\
  Forall (fun kv => exporters.is_scalar kv.2 = true)
    (exporters._flatten_record_for_csv json_dumps record) /\
  exporters._flatten_record_for_csv json_dumps
    (exporters._flatten_record_for_csv json_dumps record) =
    exporters._flatten_record_for_csv json_dumps record.
Proof.
  intros Hnd. pose proof (flatten_map json_dumps record Hnd) as Hmap.
  assert (Hkeys : od_keys (exporters._flatten_record_for_csv json_dumps record) =
                  od_keys record).
  { rewrite Hmap. unfold od_keys. rewrite map_map. reflexivity. }
  split; [exact Hmap|]. split; [exact Hkeys|]. split.
  - rewrite Hmap. apply Forall_forall. intros kv Hkv.
    apply elem_of_map in Hkv as (kv0 & -> & _). apply flat_value_scalar.
  - rewrite (flatten_map json_dumps (exporters._flatten_record_for_csv json_dumps record))
      by (rewrite Hkeys; exact Hnd).
    rewrite Hmap, map_map. apply map_ext_eq. intros [k v]. cbn [fst snd].
    rewrite flat_value_idem. reflexivity.
Qed.

Lemma flatten_record_scalars_witness :
  exporters._flatten_record_for_csv (fun _ => "[1, 2]") nested_record =
    map (fun kv => (kv.1, flat_value (fun _ => "[1, 2]") kv.2)) nested_record /\
  od_keys (exporters._flatten_record_for_csv (fun _ => "[1, 2]") nested_record) =
    od_keys nested_record /\
  Forall (fun kv => exporters.is_scalar kv.2 = true)
    (exporters._flatten_record_for_csv (fun _ => "[1, 2]") nested_record) /\
  exporters._flatten_record_for_csv (fun _ => "[1, 2]")
    (exporters._flatten_record_for_csv (fun _ => "[1, 2]") nested_record) =
    exporters._flatten_record_for_csv (fun _ => "[1, 2]") nested_record.
Proof.
  apply (flatten_record_scalars (fun _ => "[1, 2]") nested_record).
  apply (bool_decide_unpack _). vm_compute. exact I.
Defined.

Lemma fold_snoc_map {A B} (f : A -> B) (l : list A) :
  forall acc, fold_left (fun data x => data ++ [f x]) l acc = acc ++ map f l.
Proof.
  induction l as [|x l IH]; intros acc; cbn [fold_left map].
  - rewrite app_nil_r. reflexivity.
  - rewrite IH, <- app_assoc. reflexivity.
Qed.

Lemma elem_of_fieldnames (data : list row) (k : string) :
  k ∈ exporters.fieldnames_of data <-> exists rec, rec ∈ data /\ k ∈ od_keys rec.
Proof.
  unfold exporters.fieldnames_of. rewrite (sorted_by_Permutation str_ltb id _).
  rewrite <- (map_id (first_occurrences id [] _)), first_occurrences_keys, map_id.
  rewrite elem_of_concat_map. split.
  - intros [Hex _]. exact Hex.
  - intros Hex. split; [exact Hex | apply not_elem_of_nil].
Qed.

Lemma fieldnames_sorted (data : list row) :
  StronglySorted (fun a b => str_ltb a b = true) (exporters.fieldnames_of data).
Proof.
  unfold exporters.fieldnames_of.
  rewrite <- (map_id (sorted_by str_ltb id _)).
  apply sorted_by_strict;
    [apply str_ltb_trans | apply str_ltb_irrefl | apply str_ltb_total |].
  apply first_occurrences_NoDup.
Qed.

(** X19: [export_to_csv] never fails on account of the field names: the
    header is the strictly increasing list of all the keys that occur in
    some record, so [DictWriter] accepts every row; the file then holds the
    header and one line per record, in order, each with one value per
    header field (the empty string where the record lacks the key).
    Without records the file is only touched: it is created empty when it
    does not exist, and keeps its content when it does. *)
Theorem export_to_csv_total (json_dumps : pyval -> string) (records : list row)
    (file : option (list (list pyval))) :
  let data := map (exporters._flatten_record_for_csv json_dumps) records in
  let header := exporters.fieldnames_of data in
  exporters.export_to_csv json_dumps records file =
    (Ok tt, Some match records with
                 | [] => match file with Some lines => lines | None => [] end
                 | _ :: _ => map PStr header :: map (csv_line header) data
                 end) /\
  StronglySorted (fun a b => str_ltb a b = true) header /\
  (forall k, k ∈ header <-> exists rec, rec ∈ records /\ k ∈ od_keys rec) /\
  Forall (fun line => length line = length header) (map (csv_line header) data).
Proof.
  intros data header. split; [|split; [|split]].
  - unfold exporters.export_to_csv. rewrite fold_snoc_map. cbn [app].
    subst header data. destruct records as [|rec records].
    + destruct file; reflexivity.
    + cbn [map]. rewrite writerows_Ok; [reflexivity|].
      apply Forall_forall. intros r Hr k Hk. apply elem_of_fieldnames. eauto.
  - apply fieldnames_sorted.
  - intros k. unfold header. rewrite elem_of_fieldnames. split.
    + intros (r & Hr & Hk). apply elem_of_map in Hr as (rec & -> & Hrec).
      exists rec. split; [exact Hrec|]. apply (flatten_keys json_dumps), Hk.
    + intros (rec & Hrec & Hk). exists (exporters._flatten_record_for_csv json_dumps rec).
      split; [apply elem_of_map_2, Hrec | apply (flatten_keys json_dumps), Hk].
  - apply Forall_forall. intros line Hline.
    apply elem_of_map in Hline as (x & -> & _). apply length_map.
Qed.

(** ** More on [targeting_parser] *)

(** X20: the three outcomes of [parse_targeting].  It returns [None] exactly
    on a falsy input; it returns a [TargetingInfo] exactly on a non-empty
    mapping whose ["targetingCategory"] is absent or is a mapping; in every
    other case (a truthy input that is no mapping, or whose category is no
    mapping) it raises, and what it raises is [AttributeError]. *)
Theorem parse_targeting_outcome (repr : pyval -> string) (raw : pyval) :
  match parse_targeting repr raw with
  | Ok None => truthy raw = false
  | Ok (Some _) =>
      truthy raw = true /\
      exists kvs cs,
        raw = PDict kvs /\
        default (PDict []) (dict_lookup "targetingCategory" kvs) = PDict cs
  | Raise e =>
      e = AttributeError /\ truthy raw = true /\
      (~ is_mapping raw \/
       exists kvs,
         raw = PDict kvs /\
         ~ is_mapping (default (PDict []) (dict_lookup "targetingCategory" kvs)))
  end.
Proof.
  destruct (truthy raw) eqn:Ht.
  - destruct raw as [| | | | | |kvs];
      try (unfold parse_targeting; rewrite Ht; cbn; split; [reflexivity|]; split;
           [reflexivity | left; intros []]).
    destruct (default (PDict []) (dict_lookup "targetingCategory" kvs)) as [| | | | | |cs]
      eqn:Hc;
      try (unfold parse_targeting; rewrite Ht; cbn [negb py_get mbind result_bind];
           rewrite Hc; cbn; split; [reflexivity|]; split; [reflexivity|];
           right; exists kvs; split; [reflexivity | rewrite Hc; intros []]).
    rewrite (parse_targeting_mapping repr kvs cs Ht Hc). split; [reflexivity|]. eauto.
  - rewrite (parse_targeting_falsy repr raw Ht). reflexivity.
Qed.

Section od_fold.
Context {A K V : Type} `{EqDecision K} (fk : A -> K) (fv : A -> V).

Lemma fold_od_set_map (l : list A) :
  forall d : list (K * V),
    NoDup (od_keys d ++ map fk l) ->
    fold_left (fun acc x => od_set (fk x) (fv x) acc) l d = d ++ map (fun x => (fk x, fv x)) l.
Proof.
  induction l as [|x l IH]; intros d Hnd; cbn [fold_left map].
  - rewrite app_nil_r. reflexivity.
  - assert (Hk : fk x ∉ od_keys d).
    { apply NoDup_app in Hnd as (_ & Hdisj & _). intros Hin. apply (Hdisj _ Hin). left. }
    rewrite (od_set_fresh _ _ _ Hk), IH, <- app_assoc; [reflexivity|].
    unfold od_keys in *. rewrite map_app. cbn [map fst] in *.
    rewrite <- app_assoc. exact Hnd.
Qed.
End od_fold.

(** X21: on a mapping whose keys have distinct texts (as the string keys of
    a JSON object have), [_ensure_bool_map] keeps one entry per entry of the
    mapping, in order: the text of the key with the truth value of the
    value. *)
Theorem ensure_bool_map_mapping (repr : pyval -> string) (kvs : list (pyval * pyval)) :
  NoDup (map (fun kv => py_str repr kv.1) kvs) ->
  _ensure_bool_map repr (PDict kvs) = map (fun kv => (py_str repr kv.1, truthy kv.2)) kvs.
Proof.
  intros Hnd. unfold _ensure_bool_map.
  apply (fold_od_set_map (fun kv => py_str repr kv.1) (fun kv => truthy kv.2) kvs []).
  exact Hnd.
Qed.

Lemma ensure_bool_map_mapping_witness :
  _ensure_bool_map (fun _ => "")
    (PDict [(PStr "b", PBool true); (PStr "a", PInt 1); (PStr "c", PStr "")]) =
    [("b", true); ("a", true); ("c", false)].
Proof.
  apply (ensure_bool_map_mapping (fun _ => "")
           [(PStr "b", PBool true); (PStr "a", PInt 1); (PStr "c", PStr "")]).
  apply (bool_decide_unpack _). vm_compute. exact I.
Defined.

(** ** [ads_parser.parse_ads]: one entry at a time *)

Section parse_ads_more.
Variable repr : pyval -> string.

Lemma parse_ads_from_run (raw_ads : list pyval) :
  forall parsed h,
    parse_ads_from repr raw_ads parsed h =
      (Ok (parsed ++ constructed repr raw_ads h), parsed_store repr raw_ads h).
Proof.
  induction raw_ads as [|raw rest IH]; intros parsed h.
  - cbn. rewrite app_nil_r. reflexivity.
  - cbn [parse_ads_from constructed parsed_store]. unfold bindM at 1. unfold try_exceptM.
    unfold bindM at 1.
    destruct (build_ad repr raw h) as [[ad|e] h1]; cbn [snd].
    + unfold retM at 1. rewrite IH, <- app_assoc. reflexivity.
    + destruct e; cbn [is_Exception]; unfold retM at 1; apply IH.
Qed.

Lemma constructed_app (a b : list pyval) :
  forall h,
    constructed repr (a ++ b) h =
      constructed repr a h ++ constructed repr b (parsed_store repr a h) /\
    parsed_store repr (a ++ b) h = parsed_store repr b (parsed_store repr a h).
Proof.
  induction a as [|raw rest IH]; intros h; cbn [app constructed parsed_store].
  - auto.
  - destruct (build_ad repr raw h) as [[ad|e] h1]; cbn [snd]; destruct (IH h1) as [-> ->];
      auto.
Qed.

Lemma constructed_length (raw_ads : list pyval) :
  forall h, (length (constructed repr raw_ads h) <= length raw_ads)%nat.
Proof.
  induction raw_ads as [|raw rest IH]; intros h; cbn [constructed length]; [lia|].
  destruct (build_ad repr raw h) as [[ad|e] h1]; cbn [length]; specialize (IH h1); lia.
Qed.
End parse_ads_more.

(** X22: [parse_ads] works entry by entry: parsing a list [a ++ b] is
    parsing [a] and then, in the store that leaves, parsing [b], and the
    records are those of [a] followed by those of [b]; a failing entry only
    makes the result shorter, never longer than the input. *)
Theorem parse_ads_app (repr : pyval -> string) (a b : list pyval) (h : heap) :
  exists xs ys h1 h2,
    parse_ads repr a h = (Ok xs, h1) /\
    parse_ads repr b h1 = (Ok ys, h2) /\
    parse_ads repr (a ++ b) h = (Ok (xs ++ ys), h2) /\
    (length xs <= length a)%nat.
Proof.
  exists (constructed repr a h), (constructed repr b (parsed_store repr a h)),
    (parsed_store repr a h), (parsed_store repr b (parsed_store repr a h)).
  unfold parse_ads. rewrite !parse_ads_from_run.
  destruct (constructed_app repr a b h) as [-> ->].
  split; [reflexivity|]. split; [reflexivity|]. split; [reflexivity|].
  apply constructed_length.
Qed.

(** ** What [normalize_region_stats] writes *)

(** The first pass writes no region object but the first of each key. *)
Lemma group_regions_regs_other (rs : list loc) (h : heap) :
  exists h1,
    group_regions rs [] h =
      (keyed (region_key h) (first_occurrences (region_key h) [] rs), h1) /\
    forall x, x ∉ first_occurrences (region_key h) [] rs -> regs h1 x = regs h x.
Proof.
  destruct (group_loop_inv region_key merge_region region_key_merge h rs
    (fun pre cur =>
       forall x, x ∉ first_occurrences (region_key h) [] pre -> regs cur x = regs h x))
    as (h1 & Hrun & HI & _).
  - reflexivity.
  - intros pre x post cur _ HI _ Hmiss y Hy. apply HI. intros Hin. apply Hy.
    rewrite (first_occurrences_snoc_miss _ _ _ Hmiss). apply elem_of_app. auto.
  - intros pre x post e cur _ HI _ He Hke y Hy.
    assert (Hhit : region_key h x ∈ map (region_key h) pre).
    { rewrite <- Hke. apply elem_of_map_2. eapply first_occurrences_subset. exact He. }
    rewrite (first_occurrences_snoc_hit _ _ _ Hhit) in Hy.
    rewrite merge_region_regs_other; [apply HI, Hy|]. intros ->. contradiction.
  - exists h1. rewrite group_regions_loop. auto.
Qed.

Lemma normalize_regs_other (rs : list loc) (h : heap) (x : loc) :
  x ∉ (normalize_region_stats rs h).1 ->
  regs (normalize_region_stats rs h).2 x = regs h x.
Proof.
  intros Hx. rewrite normalize_out in Hx.
  destruct (normalize_spec rs h) as (h1 & h2 & Hrun & _ & _ & _ & Hregs & Hn).
  rewrite Hn. cbn [snd]. rewrite Hregs. destruct (decide _) as [Hin|_]; [contradiction|].
  destruct (group_regions_regs_other rs h) as (h1' & Hrun' & Hother).
  rewrite Hrun in Hrun'. injection Hrun' as <-. apply Hother, Hx.
Qed.

(** The dates of a returned region are the extremes over its group. *)
Lemma normalize_dates (rs : list loc) (h : heap) (c : loc) :
  c ∈ (normalize_region_stats rs h).1 ->
  smallest_nonempty (map (fun r => first_shown (regs h r)) (region_group h rs c))
    (first_shown (regs (normalize_region_stats rs h).2 c)) /\
  largest_nonempty (map (fun r => last_shown (regs h r)) (region_group h rs c))
    (last_shown (regs (normalize_region_stats rs h).2 c)).
Proof.
  intros Hc. rewrite normalize_out in Hc.
  destruct (normalize_spec rs h) as (h1 & h2 & Hrun & _ & _ & _ & Hregs & Hn).
  rewrite Hn. cbn [snd].
  destruct (group_regions_dates rs h) as (h1' & Hrun' & Hd).
  rewrite Hrun in Hrun'. injection Hrun' as <-.
  rewrite Hregs. destruct (decide _) as [_|?]; [|contradiction].
  cbn [with_surfaces first_shown last_shown]. apply Hd, Hc.
Qed.

(** Under ownership the range of a region that is not the first of its key
    keeps its value. *)
Lemma normalize_range_other (rs : list loc) (h : heap) (r : loc) :
  NoDup (impression_objects h rs) ->
  r ∈ rs -> r ∉ (normalize_region_stats rs h).1 ->
  imps (normalize_region_stats rs h).2 (imp_of h r) = imps h (imp_of h r).
Proof.
  intros Hown Hr Hout. rewrite normalize_out in Hout.
  unfold impression_objects in Hown. apply NoDup_app in Hown as (Himp & Hdisj & _).
  destruct (normalize_spec rs h) as (h1 & h2 & Hrun & Hid1 & Hh2 & _ & _ & Hn).
  rewrite Hn. cbn [snd]. clear Hn.
  set (cs := first_occurrences (region_key h) [] rs) in *.
  destruct (group_regions_sums rs h Himp) as (h1' & Hrun' & _ & Hfr1 & _).
  rewrite Hrun in Hrun'. injection Hrun' as <-.
  destruct (group_regions_footprint rs h) as (h1' & Hrun' & _ & _ & _ & Hsurf1).
  rewrite Hrun in Hrun'. injection Hrun' as <-.
  destruct (merge_region_surfaces_footprint cs h1) as (_ & _ & _ & Hfr2).
  rewrite <- Hh2 in Hfr2. rewrite Hfr2.
  - apply Hfr1. intros Hin. apply elem_of_map in Hin as (c & Heq & Hc).
    assert (r = c); [|subst; contradiction].
    apply (NoDup_map_inj (imp_of h) rs); [exact Himp | exact Hr | | exact Heq].
    apply (first_occurrences_subset (region_key h)), Hc.
  - intros c s Hc Hs Heq. rewrite (same_identity_simp_of h h1 s Hid1) in Heq.
    apply (Hdisj (imp_of h r)); [apply elem_of_map_2, Hr|].
    rewrite Heq. apply elem_of_map_2, (Hsurf1 c s); [|exact Hs].
    apply (first_occurrences_subset (region_key h)), Hc.
Qed.

(** C10 (as the code has it): [to_flat_dicts] leaves every object that
    exists unchanged, it only allocates its placeholders.
    [normalize_region_stats] works in place: it never changes a surface
    object, nor the code, name and impressions reference of a region, and it
    leaves every object in its state when no two regions of the input share
    a key and no region lists a surface code twice.  Otherwise the first
    region of a key absorbs its group: no other region object is written,
    and its dates become the extremes over the group; and, when no
    impression range is shared, its range becomes the sum over the group
    while the ranges of the other regions keep their values, its surface
    list becomes the first surface of every code among the surfaces of the
    group, and the range of each surface it keeps becomes the sum over the
    surfaces of the group with that code. *)
Theorem C10_in_place_effects :
  (forall (self : AdRecord) (h : heap), extends h (to_flat_dicts self h).2) /\
  (forall (rs : list loc) (h : heap), same_identity h (normalize_region_stats rs h).2) /\
  (forall (rs : list loc) (h : heap),
     NoDup (map (region_key h) rs) ->
     Forall (fun r => NoDup (map (code_of h) (surfaces_of h r))) rs ->
     heap_eq (normalize_region_stats rs h).2 h) /\
  (forall (rs : list loc) (h : heap),
     let '(out, h') := normalize_region_stats rs h in
     (forall x, x ∉ out -> regs h' x = regs h x) /\
     Forall (fun c =>
         smallest_nonempty (map (fun r => first_shown (regs h r)) (region_group h rs c))
           (first_shown (regs h' c)) /\
         largest_nonempty (map (fun r => last_shown (regs h r)) (region_group h rs c))
           (last_shown (regs h' c))) out) /\
  (forall (rs : list loc) (h : heap),
     NoDup (impression_objects h rs) ->
     let '(out, h') := normalize_region_stats rs h in
     (forall r, r ∈ rs -> r ∉ out -> imps h' (imp_of h r) = imps h (imp_of h r)) /\
     Forall (fun c =>
         imps h' (imp_of h' c) =
           range_sum (map (fun r => imps h (imp_of h r)) (region_group h rs c)) /\
         surfaces_of h' c = first_occurrences (code_of h) [] (group_surfaces h rs c) /\
         Forall (fun s =>
             surfs h' s = surfs h s /\
             imps h' (simp_of h' s) =
               range_sum (map (fun s' => imps h (simp_of h s'))
                            (members (code_of h) (code_of h s) (group_surfaces h rs c))))
           (surfaces_of h' c)) out).
Proof.
  split; [exact to_flat_dicts_extends|]. split; [exact normalize_same_identity|].
  split; [|split].
  - intros rs h Hk Hs. destruct (normalize_no_duplicates rs h Hk Hs) as (h' & -> & Heq).
    exact Heq.
  - intros rs h. pose proof (normalize_regs_other rs h) as Hother.
    pose proof (normalize_dates rs h) as Hdates.
    destruct (normalize_region_stats rs h) as [out h']. cbn [fst snd] in *.
    split; [exact Hother|]. apply Forall_forall. exact Hdates.
  - intros rs h Hown. pose proof (normalize_range_other rs h) as Hother.
    pose proof (normalize_sums rs h Hown) as Hsums.
    destruct (normalize_region_stats rs h) as [out h']. cbn [fst snd] in *.
    split; [|exact Hsums]. intros r Hr Hout. apply Hother; assumption.
Qed.

Lemma C10_in_place_effects_witness :
  heap_eq (normalize_region_stats [2%nat; 1%nat] example_heap).2 example_heap /\
  let '(out, h') := normalize_region_stats [0%nat; 1%nat; 2%nat] example_heap in
  (forall r, r ∈ [0%nat; 1%nat; 2%nat] -> r ∉ out ->
     imps h' (imp_of example_heap r) = imps example_heap (imp_of example_heap r)) /\
  Forall (fun c =>
      imps h' (imp_of h' c) =
        range_sum (map (fun r => imps example_heap (imp_of example_heap r))
                     (region_group example_heap [0%nat; 1%nat; 2%nat] c)) /\
      surfaces_of h' c =
        first_occurrences (code_of example_heap) []
          (group_surfaces example_heap [0%nat; 1%nat; 2%nat] c) /\
      Forall (fun s =>
          surfs h' s = surfs example_heap s /\
          imps h' (simp_of h' s) =
            range_sum (map (fun s' => imps example_heap (simp_of example_heap s'))
                         (members (code_of example_heap) (code_of example_heap s)
                            (group_surfaces example_heap [0%nat; 1%nat; 2%nat] c))))
        (surfaces_of h' c)) out.
Proof.
  split.
  - apply (proj1 (proj2 (proj2 C10_in_place_effects)) [2%nat; 1%nat] example_heap).
    + apply (bool_decide_unpack _). vm_compute. exact I.
    + repeat constructor; apply (bool_decide_unpack _); vm_compute; exact I.
  - apply (proj2 (proj2 (proj2 (proj2 C10_in_place_effects)))
             [0%nat; 1%nat; 2%nat] example_heap).
    apply (bool_decide_unpack _). vm_compute. exact I.
Defined.

(** C10 as stated fails: merging the two ["US"] regions of [example_heap]
    rewrites the impression range, the dates and the surface list of the
    first region object, and the impression range of its first surface. *)
Lemma C10_counterexample :
  let h' := (normalize_region_stats [0%nat; 1%nat] example_heap).2 in
  imps example_heap 0%nat = mkImpressionRange 100 200 /\
  imps h' 0%nat = mkImpressionRange 150 275 /\
  regs example_heap 0%nat =
    mkRegionStat "US" "United States" "2023-02-01" "" 0%nat [0%nat] /\
  regs h' 0%nat =
    mkRegionStat "US" "United States" "2023-01-01" "2024-01-01" 0%nat [0%nat; 2%nat] /\
  imps example_heap 2%nat = mkImpressionRange 1 2 /\
  imps h' 2%nat = mkImpressionRange 11 22.
Proof. repeat split. Qed.
